(** * A contact directory: contact.py and phonebook.py

    The two classes of the program are embedded as functions over an explicit
    world: a store of Contact objects addressed by reference (Python passes
    and stores contacts by reference, and [list.remove] compares them with
    [__eq__]), the phone book's list of references, the audit-log file, the
    CSV files under [data/], the console and the system clock.

    Text is modelled as strings of 8-bit characters, the code points below
    U+0100: what is proved of a string is proved of the strings of these
    code points, and nothing is said of text beyond them (where [\d], for
    one, also matches the decimal digits of other scripts).  A formatted
    string keeps its interpolated dates, numbers and dictionaries as values.

    A name under [data/] is one of three things: absent; a file that reads
    to its end, taken as the list of records [csv.reader] yields; or
    something that exists but cannot be read, the directory itself (the
    names '' and '.'), a file that may not be opened or whose first block
    cannot be decoded, with the exception that reading it raises.  A file
    whose reading fails only after some records were gone through is not
    modelled.  The files under [data/] are distinct from the audit log,
    which is taken to be readable and writable; it is read line by line as
    a text file is, so an entry that holds a line end makes several lines.
    [re.search] on a
    pattern typed by the user belongs to Python's [re] module and is a
    parameter of the search; the two fixed patterns of [update_contact] are
    embedded as regular expressions with a matcher. *)

From stdpp Require Import base option list strings gmap.
From stdpp Require Import sorting.
From Stdlib Require Import ZArith Ascii.

(** ** Python strings *)

Module Str.

(** [str.lower] on one character: A-Z and the accented capitals. *)
Definition lower_ascii (a : ascii) : ascii :=
  let n := nat_of_ascii a in
  if ((65 <=? n) && (n <=? 90)) || ((192 <=? n) && (n <=? 222) && negb (n =? 215))
  then ascii_of_nat (n + 32)
  else a.

Fixpoint lower (s : string) : string :=
  match s with
  | EmptyString => EmptyString
  | String a s' => String (lower_ascii a) (lower s')
  end.

(** Truth value of a string: the empty string is false. *)
Definition truthy (s : string) : bool :=
  match s with
  | EmptyString => false
  | String _ _ => true
  end.

(** Truth value of an argument that defaults to [None]. *)
Definition given (o : option string) : bool :=
  match o with
  | Some s => truthy s
  | None => false
  end.

(** [s[0]]: the first character as a string, absent on the empty string. *)
Definition first_char (s : string) : option string :=
  match s with
  | EmptyString => None
  | String a _ => Some (String a EmptyString)
  end.

(** [str.isspace] on one character. *)
Definition is_space (a : ascii) : bool :=
  let n := nat_of_ascii a in
  ((9 <=? n) && (n <=? 13)) || ((28 <=? n) && (n <=? 32)) || (n =? 133) || (n =? 160).

Fixpoint lstrip (s : string) : string :=
  match s with
  | EmptyString => EmptyString
  | String a s' => if is_space a then lstrip s' else s
  end.

Fixpoint rstrip (s : string) : string :=
  match s with
  | EmptyString => EmptyString
  | String a s' =>
      match rstrip s' with
      | EmptyString => if is_space a then EmptyString else String a EmptyString
      | t => String a t
      end
  end.

(** [s * n] *)
Fixpoint times (s : string) (n : nat) : string :=
  match n with
  | O => EmptyString
  | S n' => s +:+ times s n'
  end.

End Str.

(** ** The two fixed patterns given to [re.fullmatch] *)

Module Re.

Inductive regex : Type :=
  | Nul
  | Eps
  | Lit (a : ascii)
  | Dot
  | Digit
  | Seq (r1 r2 : regex)
  | Alt (r1 r2 : regex)
  | Star (r : regex).

(** [r+] and [r{n}] *)
Definition Plus (r : regex) : regex := Seq r (Star r).

Fixpoint Rep (n : nat) (r : regex) : regex :=
  match n with
  | O => Eps
  | S n' => Seq r (Rep n' r)
  end.

Definition newline : ascii := ascii_of_nat 10.

(** [\d] on a character below U+0100: the decimal digits of Unicode in that
    range are '0' to '9'.  The decimal digits of other scripts, which [\d]
    matches too in a pattern of type [str], are not characters of the text
    modelled here. *)
Definition is_digit (a : ascii) : bool :=
  let n := nat_of_ascii a in (48 <=? n) && (n <=? 57).

Fixpoint nullable (r : regex) : bool :=
  match r with
  | Nul => false
  | Eps => true
  | Lit _ => false
  | Dot => false
  | Digit => false
  | Seq r1 r2 => nullable r1 && nullable r2
  | Alt r1 r2 => nullable r1 || nullable r2
  | Star _ => true
  end.

(** Derivative of a pattern by one character. *)
Fixpoint deriv (a : ascii) (r : regex) : regex :=
  match r with
  | Nul => Nul
  | Eps => Nul
  | Lit b => if Ascii.eqb a b then Eps else Nul
  | Dot => if Ascii.eqb a newline then Nul else Eps
  | Digit => if is_digit a then Eps else Nul
  | Seq r1 r2 =>
      if nullable r1
      then Alt (Seq (deriv a r1) r2) (deriv a r2)
      else Seq (deriv a r1) r2
  | Alt r1 r2 => Alt (deriv a r1) (deriv a r2)
  | Star r1 => Seq (deriv a r1) (Star r1)
  end.

(** [re.fullmatch(r, s) is not None] *)
Fixpoint fullmatch (r : regex) (s : string) : bool :=
  match s with
  | EmptyString => nullable r
  | String a s' => fullmatch (deriv a r) s'
  end.

Fixpoint lits (s : string) : regex :=
  match s with
  | EmptyString => Eps
  | String a s' => Seq (Lit a) (lits s')
  end.

(** r"\(\d{3}\) \d{3}-\d{4}" *)
Definition phone_pattern : regex :=
  Seq (lits "(") (Seq (Rep 3 Digit) (Seq (lits ") ") (Seq (Rep 3 Digit)
    (Seq (lits "-") (Rep 4 Digit))))).

(** r".+@.+\..+" *)
Definition email_pattern : regex :=
  Seq (Plus Dot) (Seq (lits "@") (Seq (Plus Dot) (Seq (lits ".") (Plus Dot)))).

End Re.

(** ** Dates *)

(** A [datetime] is a count of microseconds. *)
Definition datetime : Type := Z.

(** [t.replace(microsecond=0)] *)
Definition replace_microsecond_0 (t : datetime) : datetime :=
  (t - t mod 1000000)%Z.

(** ** contact.py: the object and the store *)

(** The dictionary of the five attributes, as built for [old_values] and
    [new_values]. *)
Record values : Type := Values {
  v_first_name : string;
  v_last_name : string;
  v_phone_number : string;
  v_email : option string;
  v_address : option string
}.

(** One element of [update_history]. *)
Record change : Type := Change {
  ch_time_updated : datetime;
  old_values : values;
  new_values : values
}.

(** The attributes of a [Contact] object. *)
Record contact : Type := MkContact {
  first_name : string;
  last_name : string;
  phone_number : string;
  email : option string;
  address : option string;
  time_created : datetime;
  time_updated : datetime;
  update_history : list change
}.

Definition values_of (c : contact) : values :=
  Values (first_name c) (last_name c) (phone_number c) (email c) (address c).

Global Instance values_eq_dec : EqDecision values.
Proof. solve_decision. Defined.

Global Instance contact_inhabited : Inhabited contact :=
  populate (MkContact "" "" "" None None 0%Z 0%Z []).

(** A reference to a [Contact] object. *)
Abbreviation ref := nat (only parsing).

(** ** Formatted text *)

Inductive piece : Type :=
  | Txt (s : string)
  | Num (n : nat)
  | Date (t : datetime)
  | Dict (v : values)
  | Obj (c : contact).

Definition text : Type := list piece.

(** ANSI colours *)
Definition ESC : string := String (ascii_of_nat 27) EmptyString.
Definition RED : string := ESC +:+ "[91m".
Definition GREEN : string := ESC +:+ "[92m".
Definition BLUE : string := ESC +:+ "[94m".
Definition RESET : string := ESC +:+ "[0m".
Definition NL : string := String Re.newline EmptyString.

(** ** The world *)

Inductive exn : Type :=
  | IndexError
  | ValueError
  | FileNotFoundError
  | re_error
  | IsADirectoryError
  | PermissionError
  | UnicodeDecodeError
  | csv_Error.

Record World : Type := MkWorld {
  heap : list contact;               (* every Contact object created so far *)
  contacts_list : list ref;          (* PhoneBook.contacts_list *)
  audit_log : option (list text);    (* audit_log.txt: one element per write; None: no such file *)
  data : gmap string (list (list string));  (* data/<name> as csv.reader yields it *)
  broken : gmap string exn;          (* data/<name> exists but cannot be read: a directory, a file
                                        that may not be opened or that cannot be decoded; what
                                        reading it raises, before any record is seen *)
  stdout : list text;                (* one element per print *)
  clock : nat -> datetime;           (* what the successive calls of datetime.now() return *)
  ticks : nat                        (* how many calls were made *)
}.

Definition set_heap (h : list contact) (w : World) : World :=
  MkWorld h (contacts_list w) (audit_log w) (data w) (broken w) (stdout w) (clock w) (ticks w).
Definition set_contacts_list (l : list ref) (w : World) : World :=
  MkWorld (heap w) l (audit_log w) (data w) (broken w) (stdout w) (clock w) (ticks w).
Definition set_audit_log (f : option (list text)) (w : World) : World :=
  MkWorld (heap w) (contacts_list w) f (data w) (broken w) (stdout w) (clock w) (ticks w).
Definition set_stdout (o : list text) (w : World) : World :=
  MkWorld (heap w) (contacts_list w) (audit_log w) (data w) (broken w) o (clock w) (ticks w).
Definition set_ticks (n : nat) (w : World) : World :=
  MkWorld (heap w) (contacts_list w) (audit_log w) (data w) (broken w) (stdout w) (clock w) n.

(** ** Statements: state and exceptions *)

Inductive outcome (A : Type) : Type :=
  | Ok (a : A)
  | Raised (e : exn).
Arguments Ok {A} a.
Arguments Raised {A} e.

Definition M (A : Type) : Type := World -> outcome A * World.

Definition ret {A} (a : A) : M A := fun w => (Ok a, w).
Definition raise {A} (e : exn) : M A := fun w => (Raised e, w).
Definition bind {A B} (m : M A) (k : A -> M B) : M B :=
  fun w =>
    match m w with
    | (Ok a, w') => k a w'
    | (Raised e, w') => (Raised e, w')
    end.

Notation "x <- m ;; k" := (bind m (fun x => k))
  (at level 100, m at next level, right associativity).
Notation "m ;;; k" := (bind m (fun _ => k))
  (at level 100, right associativity).

Definition gets {A} (f : World -> A) : M A := fun w => (Ok (f w), w).
Definition modify (f : World -> World) : M unit := fun w => (Ok tt, f w).

(** [try: body except E: handler], for the exceptions [catches] selects. *)
Definition try_except {A} (body : M A) (catches : exn -> bool) (handler : exn -> M A) : M A :=
  fun w =>
    match body w with
    | (Ok a, w') => (Ok a, w')
    | (Raised e, w') => if catches e then handler e w' else (Raised e, w')
    end.

(** [for x in xs: body x] *)
Fixpoint for_each {A} (xs : list A) (body : A -> M unit) : M unit :=
  match xs with
  | [] => ret tt
  | x :: xs' => body x ;;; for_each xs' body
  end.

(** What a statement leaves behind. *)
Definition result {A} (m : M A) (w : World) : outcome A := fst (m w).
Definition exec {A} (m : M A) (w : World) : World := snd (m w).

(** [datetime.now()] *)
Definition now : M datetime :=
  fun w => (Ok (clock w (ticks w)), set_ticks (S (ticks w)) w).

(** [print(t)] *)
Definition print (t : text) : M unit :=
  modify (fun w => set_stdout (stdout w ++ [t]) w).

(** Reading and writing the attributes of an object.  A reference is the
    position of its object in the store; every reference a program holds
    was returned by [alloc], so it points to an object (see [wf] for the
    list of contacts).  Reading elsewhere yields a blank contact, writing
    elsewhere does nothing. *)
Definition deref (r : ref) : M contact := gets (fun w => heap w !!! r).
Definition store (r : ref) (c : contact) : M unit :=
  modify (fun w => set_heap (<[r := c]> (heap w)) w).
Definition alloc (c : contact) : M ref :=
  fun w => (Ok (length (heap w)), set_heap (heap w ++ [c]) w).

Module Contact.

(** [Contact(first_name, last_name, phone_number, email, address)] *)
Definition __init__ (first last phone : string) (mail addr : option string) : M ref :=
  t1 <- now ;;
  t2 <- now ;;
  alloc (MkContact first last phone mail addr
           (replace_microsecond_0 t1) (replace_microsecond_0 t2) []).

(** [self.update(first_name, last_name, phone_number, email, address)] *)
Definition update (self : ref) (first last phone mail addr : option string) : M unit :=
  c <- deref self ;;
  let old := values_of c in
  let fn := if Str.given first then default "" first else first_name c in
  let ln := if Str.given last then default "" last else last_name c in
  let pn := if Str.given phone then default "" phone else phone_number c in
  let em := if Str.given mail then mail else email c in
  let ad := if Str.given addr then addr else address c in
  t <- now ;;
  let tu := replace_microsecond_0 t in
  store self (MkContact fn ln pn em ad (time_created c) tu
                (update_history c ++ [Change tu old (Values fn ln pn em ad)])).

(** [a == b] *)
Definition __eq__ (a b : contact) : bool :=
  bool_decide (values_of a = values_of b).

(** [str(self)] *)
Definition __str__ (c : contact) : text :=
  [Txt (NL +:+ Str.times "-" 40 +:+ NL);
   Txt ("Contact Name : " +:+ first_name c +:+ " " +:+ last_name c +:+ NL);
   Txt ("Phone Number : " +:+ phone_number c +:+ NL);
   Txt ("Address      : " +:+ (if Str.given (address c) then default "" (address c) else "N/A") +:+ NL);
   Txt ("Email        : " +:+ (if Str.given (email c) then default "" (email c) else "N/A") +:+ NL);
   Txt "Added on     : "; Date (time_created c); Txt NL;
   Txt (Str.times "-" 40 +:+ NL)].

(** [self.view_update_history()] *)
Definition view_update_history (self : ref) : M unit :=
  c <- deref self ;;
  print [Txt (NL +:+ "--- Update History for " +:+ first_name c +:+ " " +:+ last_name c +:+ " ---")] ;;;
  match update_history c with
  | [] => print [Txt "No updates made to this contact."]
  | h =>
      for_each h (fun u =>
        print [Txt "Updated on "; Date (ch_time_updated u); Txt ":"] ;;;
        print [Txt "  Old values: "; Dict (old_values u)] ;;;
        print [Txt "  New values: "; Dict (new_values u)])
  end.

End Contact.

(** ** phonebook.py *)

(** The message of a caught exception, [str(e)]. *)
Definition str_exn (e : exn) : string :=
  match e with
  | IndexError => "list index out of range"
  | ValueError => "list.remove(x): x not in list"
  | FileNotFoundError => "No such file or directory"
  | re_error => "error"
  | IsADirectoryError => "Is a directory"
  | PermissionError => "Permission denied"
  | UnicodeDecodeError => "invalid start byte"
  | csv_Error => "line contains NUL"
  end.

Module PhoneBook.

(** [self.log_operation(operation)]: opening the file for appending creates
    it when it is absent. *)
Definition log_operation (operation : text) : M unit :=
  t <- now ;;
  modify (fun w =>
    set_audit_log (Some (default [] (audit_log w) ++ [[Date t; Txt " - "] ++ operation ++ [Txt NL]])) w).

Definition full_name_of (c : contact) : string :=
  first_name c +:+ " " +:+ last_name c.

(** [self.add_contact(contact)] *)
Definition add_contact (contact : ref) : M unit :=
  modify (fun w => set_contacts_list (contacts_list w ++ [contact]) w) ;;;
  c <- deref contact ;;
  log_operation [Txt ("Added contact: " +:+ full_name_of c)].

(** The search loop of [delete_contact]: the first contact whose lowered
    full name is [full_name], with that name. *)
Fixpoint find_full_name (h : list contact) (full_name : string) (l : list ref)
    : option (ref * string) :=
  match l with
  | [] => None
  | r :: l' =>
      let contact_full_name := Str.lower (full_name_of (h !!! r)) in
      if String.eqb contact_full_name full_name
      then Some (r, contact_full_name)
      else find_full_name h full_name l'
  end.

(** [l.remove(x)] on a list of references: the first element that is [x]
    or equal to it under [__eq__] goes; [None] stands for ValueError. *)
Fixpoint remove_first (h : list contact) (x : ref) (l : list ref) : option (list ref) :=
  match l with
  | [] => None
  | y :: l' =>
      if Nat.eqb y x || Contact.__eq__ (h !!! y) (h !!! x)
      then Some l'
      else cons y <$> remove_first h x l'
  end.

(** [self.contacts_list.remove(x)] *)
Definition contacts_list_remove (x : ref) : M unit :=
  fun w =>
    match remove_first (heap w) x (contacts_list w) with
    | Some l => (Ok tt, set_contacts_list l w)
    | None => (Raised ValueError, w)
    end.

(** [self.delete_contact(full_name)] *)
Definition delete_contact (full_name : string) : M unit :=
  let full_name := Str.lower full_name in
  found <- gets (fun w => find_full_name (heap w) full_name (contacts_list w)) ;;
  match found with
  | Some (contact_to_delete, contact_full_name) =>
      contacts_list_remove contact_to_delete ;;;
      print [Txt (GREEN +:+ "Contact '" +:+ full_name +:+ "' deleted successfully." +:+ RESET)] ;;;
      log_operation [Txt ("Deleted contact: " +:+ contact_full_name)]
  | None =>
      print [Txt (RED +:+ "Error: No contact found with the full name '" +:+ full_name +:+ "'." +:+ RESET)] ;;;
      log_operation [Txt ("Failed to delete contact: " +:+ full_name)]
  end.

(** [row[i]] *)
Definition index (row : list string) (i : nat) : M string :=
  match row !! i with
  | Some s => ret s
  | None => raise IndexError
  end.

(** The object a CSV row stands for, in both batch operations. *)
Definition contact_of_row (row : list string) : M ref :=
  first <- index row 0 ;;
  last <- index row 1 ;;
  phone <- index row 2 ;;
  let mail := row !! 3 in
  let addr := row !! 4 in
  Contact.__init__ first last phone mail addr.

(** The bodies of the loops of the two batch operations. *)
Definition batch_add_row (row : list string) : M unit :=
  contact <- contact_of_row row ;;
  modify (fun w => set_contacts_list (contacts_list w ++ [contact]) w).

Definition batch_delete_row (row : list string) : M unit :=
  contact <- contact_of_row row ;;
  try_except (contacts_list_remove contact)
    (fun e => match e with ValueError => true | _ => false end)
    (fun _ =>
       c <- deref contact ;;
       print [Txt ("Error: Contact " +:+ full_name_of c +:+ " does not exist.")]).

(** What both batch operations do with a name that is not a CSV file: when
    nothing of that name exists under [data/], [os.path.exists] is false and
    the method returns at once; when the name exists but cannot be read as
    CSV (the directory [data/] itself for the names '' and '.', a file that
    may not be opened), reading raises before any record is seen. *)
Definition open_fails (filename : string) : M unit :=
  failure <- gets (fun w => broken w !! filename) ;;
  match failure with
  | None => ret tt
  | Some e => raise e
  end.

(** [self.batch_add_contacts(filename)]: the first record of the file is
    read as the headers and dropped. *)
Definition batch_add_contacts (filename : string) : M unit :=
  file <- gets (fun w => data w !! filename) ;;
  match file with
  | None => open_fails filename
  | Some csv_reader =>
      for_each (tail csv_reader) batch_add_row ;;;
      print [Txt (GREEN +:+ "Contacts added successfully from CSV." +:+ RESET)] ;;;
      log_operation [Txt ("Batch added contacts from file: " +:+ filename)]
  end.

(** [self.batch_delete_contacts(filename)] *)
Definition batch_delete_contacts (filename : string) : M unit :=
  file <- gets (fun w => data w !! filename) ;;
  match file with
  | None => open_fails filename
  | Some csv_reader =>
      for_each (tail csv_reader) batch_delete_row ;;;
      print [Txt (GREEN +:+ "Contacts added successfully batch removed from CSV." +:+ RESET)] ;;;
      log_operation [Txt ("Batch deleted contacts from file: " +:+ filename)]
  end.

Definition is_valid_phone (phone : string) : bool :=
  Re.fullmatch Re.phone_pattern phone.

Definition is_valid_email (email : string) : bool :=
  Re.fullmatch Re.email_pattern email || negb (Str.truthy email).

Definition phone_error : text :=
  [Txt (RED +:+ "Error: Invalid phone number format. It must be (###) ###-####." +:+ RESET)].
Definition email_error : text :=
  [Txt (RED +:+ "Error: Invalid email format. It must be in the format username@domain.com." +:+ RESET)].

(** The five assignments [contact.x = x if x else contact.x]. *)
Definition assigned (c : contact) (first last phone mail addr : option string) : contact :=
  MkContact
    (if Str.given first then default "" first else first_name c)
    (if Str.given last then default "" last else last_name c)
    (if Str.given phone then default "" phone else phone_number c)
    (if Str.given mail then mail else email c)
    (if Str.given addr then addr else address c)
    (time_created c) (time_updated c) (update_history c).

(** [self.update_contact(contact, first_name, last_name, phone_number, email, address)] *)
Definition update_contact (contact : ref) (first last phone mail addr : option string) : M unit :=
  c <- deref contact ;;
  let old_values := values_of c in
  if Str.given phone && negb (is_valid_phone (default "" phone)) then
    print phone_error
  else if Str.given mail && negb (is_valid_email (default "" mail)) then
    print email_error
  else
    try_except
      (store contact (assigned c first last phone mail addr) ;;;
       c' <- deref contact ;;
       log_operation [Txt "Updated contact: "; Dict old_values; Txt " to "; Obj c'] ;;;
       print [Txt (GREEN +:+ "Contact updated successfully!" +:+ RESET)])
      (fun _ => true)
      (fun e =>
         print [Txt (RED +:+ "Error: Invalid contact or update failed." +:+ RESET)] ;;;
         c' <- deref contact ;;
         log_operation [Txt ("Attempted to update non-existent contact: " +:+ full_name_of c'
                             +:+ ". Error: " +:+ str_exn e)]).

Definition or_na (o : option string) : string :=
  if Str.given o then default "" o else "N/A".

(** The numbered lines of [display_contacts], from [idx] on. *)
Fixpoint display_lines (idx : nat) (l : list ref) : M unit :=
  match l with
  | [] => ret tt
  | r :: l' =>
      c <- deref r ;;
      print [Num idx; Txt (". " +:+ full_name_of c +:+ " | Phone: " +:+ phone_number c
                            +:+ " | Email: " +:+ or_na (email c)
                            +:+ " | Address: " +:+ or_na (address c))] ;;;
      display_lines (S idx) l'
  end.

(** [self.display_contacts()] *)
Definition display_contacts : M unit :=
  l <- gets contacts_list ;;
  match l with
  | [] => print [Txt (NL +:+ "No contacts available in the phonebook.")]
  | _ =>
      print [Txt (NL +:+ "Phonebook Contacts:")] ;;;
      print [Txt (Str.times "=" 90)] ;;;
      display_lines 1 l ;;;
      print [Txt (Str.times "=" 90)] ;;;
      print [Txt "Total contacts: "; Num (length l)]
  end.

Section Search.

(** [re.search(pattern, s) is not None], or [None] where [re] raises
    [re.error] on the pattern.  The search string is an arbitrary pattern
    of Python's [re] module, which is not part of the program. *)
Variable re_search : string -> string -> option bool.

Definition search (pattern s : string) : M bool :=
  match re_search pattern s with
  | Some b => ret b
  | None => raise re_error
  end.

(** [a or b] on two tests, the second run only if the first fails. *)
Definition orelse (a b : M bool) : M bool :=
  x <- a ;; if x then ret true else b.

(** The loop of [search_contacts]; returns [matches]. *)
Fixpoint search_loop (search_string : string) (start_date end_date : option datetime)
    (l : list ref) (matches : list ref) : M (list ref) :=
  match l with
  | [] => ret matches
  | r :: l' =>
      c <- deref r ;;
      let full_name := Str.lower (full_name_of c) in
      hit <- orelse (search search_string (Str.lower (first_name c)))
              (orelse (search search_string (Str.lower (last_name c)))
                (orelse (search search_string full_name)
                  (search search_string (phone_number c)))) ;;
      let matches' :=
        if hit then
          match start_date, end_date with
          | Some s, Some e =>
              if (s <=? time_created c)%Z && (time_created c <=? e)%Z
              then matches ++ [r] else matches
          | _, _ => matches ++ [r]
          end
        else matches in
      search_loop search_string start_date end_date l' matches'
  end.

(** [self.search_contacts(search_string, start_date, end_date)] *)
Definition search_contacts (search_string : string) (start_date end_date : option datetime)
    : M (list ref) :=
  let search_string := Str.lower search_string in
  l <- gets contacts_list ;;
  matches <- search_loop search_string start_date end_date l [] ;;
  match matches with
  | [] => print [Txt (RED +:+ "No contacts found matching the search criteria: "
                        +:+ search_string +:+ RESET)]
  | _ => for_each matches (fun r => c <- deref r ;; print (Contact.__str__ c) ;;; print [])
  end ;;;
  log_operation [Txt ("Searched for contacts with query: " +:+ search_string +:+ ", found ");
                 Num (length matches); Txt " matches"] ;;;
  ret matches.

End Search.

(** [list.sort(key=...)]: the keys are computed first, then the list is
    sorted stably, comparing keys with [<] only. *)
Fixpoint insert_by_key (k : string) (x : ref) (l : list (string * ref)) : list (string * ref) :=
  match l with
  | [] => [(k, x)]
  | (k', y) :: l' =>
      if String.ltb k' k then (k', y) :: insert_by_key k x l'
      else (k, x) :: (k', y) :: l'
  end.

Fixpoint sort_by_key (l : list (string * ref)) : list (string * ref) :=
  match l with
  | [] => []
  | (k, x) :: l' => insert_by_key k x (sort_by_key l')
  end.

Fixpoint keys_of (key : contact -> option string) (h : list contact) (l : list ref)
    : option (list (string * ref)) :=
  match l with
  | [] => Some []
  | r :: l' =>
      match key (h !!! r) with
      | Some k => cons (k, r) <$> keys_of key h l'
      | None => None
      end
  end.

(** [self.contacts_list.sort(key=key)]; a key that is [None] stands for the
    IndexError of [x.last_name[0]], which leaves the list as it was. *)
Definition contacts_list_sort (key : contact -> option string) : M unit :=
  fun w =>
    match keys_of key (heap w) (contacts_list w) with
    | Some keyed => (Ok tt, set_contacts_list (snd <$> sort_by_key keyed) w)
    | None => (Raised IndexError, w)
    end.

(** [self.sort_contacts(sort_type)] *)
Definition sort_contacts (sort_type : string) : M unit :=
  if String.eqb sort_type "alphabetical" then
    contacts_list_sort (fun x => Some (last_name x)) ;;;
    log_operation [Txt "Sorted contacts alphabetically by last name."]
  else if String.eqb sort_type "group" then
    contacts_list_sort (fun x => Str.first_char (last_name x)) ;;;
    log_operation [Txt "Grouped contacts by last name initial."]
  else
    print [Txt "Error: Invalid sort type."] ;;;
    log_operation [Txt "Attempted to sort contacts with invalid sort type."].

(** [line.strip()]: white space goes from both ends of the line; only the
    literal pieces of a line can begin or end with white space. *)
Fixpoint lstrip_text (line : text) : text :=
  match line with
  | Txt s :: rest =>
      match Str.lstrip s with
      | EmptyString => lstrip_text rest
      | s' => Txt s' :: rest
      end
  | _ => line
  end.

Definition rstrip_text (line : text) : text :=
  reverse ((fix go (rev_line : text) : text :=
    match rev_line with
    | Txt s :: rest =>
        match Str.rstrip s with
        | EmptyString => go rest
        | s' => Txt s' :: rest
        end
    | _ => rev_line
    end) (reverse line)).

Definition strip (line : text) : text := lstrip_text (rstrip_text line).

(** The content of a text file, character by character.  A date, a number
    or a dictionary written into the file is kept as one item: its
    characters are not modelled, and none of them is a line end or white
    space at either end ([repr] escapes the line ends of the strings of a
    dictionary). *)
Inductive item : Type :=
  | Chr (a : ascii)
  | Atom (p : piece).

Fixpoint chars (s : string) : list item :=
  match s with
  | EmptyString => []
  | String a s' => Chr a :: chars s'
  end.

Definition items (t : text) : list item :=
  t ≫= (fun p => match p with Txt s => chars s | _ => [Atom p] end).

(** The text of a run of items: neighbouring characters make one string. *)
Fixpoint text_of (l : list item) : text :=
  match l with
  | [] => []
  | Chr a :: rest =>
      match text_of rest with
      | Txt s :: t => Txt (String a s) :: t
      | t => Txt (String a EmptyString) :: t
      end
  | Atom p :: rest => p :: text_of rest
  end.

Definition CR : ascii := ascii_of_nat 13.
Definition LF : ascii := Re.newline.

(** [for line in log_file], on a file opened in text mode and written
    where the line end is the line feed: a line ends at a line feed, at a
    carriage return or at a carriage return followed by a line feed, each of
    which reaches the program as one line feed at the end of the line; what
    follows the last of them, if anything, is a line without one.  [line]
    holds the items of the line being read. *)
Fixpoint readlines (line : list item) (file : list item) : list (list item) :=
  match file with
  | [] =>
      match line with
      | [] => []
      | _ => [line]
      end
  | Chr a :: rest =>
      if Ascii.eqb a LF then (line ++ [Chr LF]) :: readlines [] rest
      else if Ascii.eqb a CR then
        (line ++ [Chr LF]) ::
        match rest with
        | Chr b :: rest' => if Ascii.eqb b LF then readlines [] rest' else readlines [] rest
        | _ => readlines [] rest
        end
      else readlines (line ++ [Chr a]) rest
  | Atom p :: rest => readlines (line ++ [Atom p]) rest
  end.

(** The lines of a file that was written piece by piece. *)
Definition lines_of (writes : list text) : list text :=
  text_of <$> readlines [] (items (concat writes)).

(** [self.view_audit_log()]: opening a file that is absent for reading
    raises; the loop goes over the lines of the file, not over the entries
    that were written to it. *)
Definition view_audit_log : M unit :=
  file <- gets audit_log ;;
  match file with
  | None => raise FileNotFoundError
  | Some log_file =>
      print [Txt (NL +:+ BLUE +:+ "--- Audit Log ---" +:+ RESET)] ;;;
      for_each (lines_of log_file) (fun line =>
        print ([Txt (" " +:+ BLUE)] ++ strip line ++ [Txt RESET]))
  end.

(** [self.clear_audit_log()] *)
Definition clear_audit_log : M unit :=
  modify (set_audit_log (Some [])) ;;;
  print [Txt (GREEN +:+ "Audit log has been cleared." +:+ RESET)].

End PhoneBook.

(** ** main.py: the checks made before a contact is constructed *)

Module Main.

(** [is_valid_phone(phone)] *)
Definition is_valid_phone (phone : string) : bool :=
  Re.fullmatch Re.phone_pattern phone.

(** r".+@.+\.com" *)
Definition email_pattern : Re.regex :=
  Re.Seq (Re.Plus Re.Dot) (Re.Seq (Re.lits "@") (Re.Seq (Re.Plus Re.Dot) (Re.lits ".com"))).

(** [is_valid_email(email)] *)
Definition is_valid_email (email : string) : bool :=
  Re.fullmatch email_pattern email || negb (Str.truthy email).

(** What a statement that reads the keyboard ends with: a value and the
    lines not read yet, or the EOFError of [input] when no line is left. *)
Inductive answer (A : Type) : Type :=
  | Got (a : A) (rest : list string)
  | EOFError.
Arguments Got {A} a rest.
Arguments EOFError {A}.

(** A statement that reads the keyboard: a function of the lines to come. *)
Definition Console (A : Type) : Type := list string -> M (answer A).

Definition cbind {A B} (m : Console A) (k : A -> Console B) : Console B :=
  fun stdin =>
    r <- m stdin ;;
    match r with
    | Got a rest => k a rest
    | EOFError => ret EOFError
    end.

Definition lift {A} (m : M A) : Console A :=
  fun stdin => a <- m ;; ret (Got a stdin).

(** [input(prompt)]: the prompt is written, then a line is read. *)
Definition input (prompt : string) : Console string :=
  fun stdin =>
    print [Txt prompt] ;;;
    match stdin with
    | [] => ret EOFError
    | line :: rest => ret (Got line rest)
    end.

(** [get_valid_input(prompt, validation_func, error_message)]: the loop
    asks again for as long as the line read fails the check. *)
Fixpoint get_valid_input (prompt : string) (validation_func : string -> bool)
    (error_message : string) (stdin : list string) : M (answer string) :=
  match stdin with
  | [] => print [Txt prompt] ;;; ret EOFError
  | value :: rest =>
      print [Txt prompt] ;;;
      if validation_func value then ret (Got value rest)
      else
        print [Txt (RED +:+ error_message +:+ RESET)] ;;;
        get_valid_input prompt validation_func error_message rest
  end.

(** [lambda x: bool(x.strip())] *)
Definition not_blank (x : string) : bool := Str.truthy (Str.lstrip (Str.rstrip x)).

Definition email_error : text :=
  [Txt (RED +:+ "Error: Invalid email format. It must be in the format username@domain.com."
        +:+ RESET)].

(** [get_contact_details()] *)
Definition get_contact_details : Console ref :=
  cbind (get_valid_input "Enter first name: " not_blank
           "Error: First name cannot be empty.") (fun first_name =>
  cbind (get_valid_input "Enter last name: " not_blank
           "Error: Last name cannot be empty.") (fun last_name =>
  cbind (get_valid_input "Enter phone number (format: (###) ###-####): " is_valid_phone
           "Error: Invalid phone number format. It must be (###) ###-####.") (fun phone_number =>
  cbind (input "Enter email (optional): ") (fun email =>
  cbind (if Str.truthy email && negb (is_valid_email email)
         then cbind (lift (print email_error)) (fun _ => input "Enter email (optional): ")
         else lift (ret email)) (fun email =>
  cbind (input "Enter address (optional): ") (fun address =>
  lift (Contact.__init__ first_name last_name phone_number (Some email) (Some address)))))))).

(** [add_contact(phonebook)] *)
Definition add_contact : Console unit :=
  cbind get_contact_details (fun contact =>
  cbind (lift (PhoneBook.add_contact contact)) (fun _ =>
  lift (print [Txt (GREEN +:+ "Contact added successfully!" +:+ RESET)]))).

End Main.

(** * Vocabulary of the properties *)

Import PhoneBook.

(** The line [log_operation] writes at time [t]. *)
Definition log_line (t : datetime) (operation : text) : text :=
  [Date t; Txt " - "] ++ operation ++ [Txt NL].

(** The object a call of the constructor creates. *)
Definition created first last phone mail addr (w : World) : contact :=
  heap (exec (Contact.__init__ first last phone mail addr) w)
    !!! length (heap w).

(** A clock that advances by one microsecond per reading, started just
    before a change of second. *)
Definition clock_across_second : nat -> datetime :=
  fun n => (1999999 + Z.of_nat n)%Z.

Definition world_across_second : World :=
  MkWorld [] [] None ∅ ∅ [] clock_across_second 0.

(** A phone book holding one contact, Ann Lee. *)
Definition ann : contact :=
  MkContact "Ann" "Lee" "(613) 555-0100" None None 1000000%Z 1000000%Z [].

Definition world_ann : World :=
  MkWorld [ann] [0] None ∅ ∅ [] (fun n => (5000000 + Z.of_nat n)%Z) 0.

(** The arguments of an update, and the two ways an update is refused. *)
Definition bad_phone (phone : option string) : Prop :=
  exists p, phone = Some p /\ p <> "" /\ is_valid_phone p = false.

Definition bad_email (mail : option string) : Prop :=
  exists e, mail = Some e /\ e <> "" /\ is_valid_email e = false.

(** The contact behind [r] is called [full_name], letter case aside. *)
Definition named (h : list contact) (full_name : string) (r : ref) : Prop :=
  Str.lower (full_name_of (h !!! r)) = Str.lower full_name.

(** What [delete_contact] prints. *)
Definition deleted_message (full_name : string) : text :=
  [Txt (GREEN +:+ "Contact '" +:+ full_name +:+ "' deleted successfully." +:+ RESET)].

Definition not_found_message (full_name : string) : text :=
  [Txt (RED +:+ "Error: No contact found with the full name '" +:+ full_name +:+ "'." +:+ RESET)].

(** The audit log of [w] with one more line, written at the time the clock
    of [w] shows next. *)
Definition logged (operation : text) (w : World) : option (list text) :=
  Some (default [] (audit_log w) ++ [log_line (clock w (ticks w)) operation]).

(** What the search prints for its matches: each contact, then an empty
    line. *)
Definition printed_matches (h : list contact) (matches : list ref) : list text :=
  concat ((fun r => [Contact.__str__ (h !!! r); []]) <$> matches).

(** A search primitive for patterns without special characters: the
    pattern is looked for as it is written. *)
Fixpoint starts_with (pattern s : string) : bool :=
  match pattern, s with
  | EmptyString, _ => true
  | String a p', String b s' => Ascii.eqb a b && starts_with p' s'
  | String _ _, EmptyString => false
  end.

Fixpoint contains (pattern s : string) : bool :=
  starts_with pattern s ||
  match s with
  | EmptyString => false
  | String _ s' => contains pattern s'
  end.

Definition literal_search (pattern s : string) : option bool :=
  Some (contains pattern s).

(** The five fields a CSV row gives a contact. *)
Definition values_of_row (row : list string) : values :=
  Values (default "" (row !! 0)) (default "" (row !! 1)) (default "" (row !! 2))
    (row !! 3) (row !! 4).

(** The object [contact_of_row] creates in [w]. *)
Definition contact_at (row : list string) (w : World) : contact :=
  MkContact (default "" (row !! 0)) (default "" (row !! 1)) (default "" (row !! 2))
    (row !! 3) (row !! 4)
    (replace_microsecond_0 (clock w (ticks w)))
    (replace_microsecond_0 (clock w (S (ticks w)))) [].

(** The rows a batch operation gets through: those in front of the first
    row with fewer than three fields. *)
Fixpoint well_formed_prefix (rows : list (list string)) : list (list string) :=
  match rows with
  | [] => []
  | row :: rows' =>
      if decide (3 <= length row) then row :: well_formed_prefix rows' else []
  end.

(** Every reference in the list of contacts points to an object. *)
Definition wf (w : World) : Prop :=
  Forall (fun r => r < length (heap w)) (contacts_list w).

(** The fields of the contacts of a list, in order. *)
Definition vals (h : list contact) (l : list ref) : list values :=
  (fun r => values_of (h !!! r)) <$> l.

(** Where there are files under [data/] there is the directory itself,
    which the names '' and '.' stand for. *)
Definition data_dir : gmap string exn :=
  {["" := IsADirectoryError; "." := IsADirectoryError]}.

(** A phone book with a CSV file of two records, both of them contacts. *)
Definition two_rows : list (list string) :=
  [["Bob"; "Ray"; "(613) 555-0101"]; ["Cy"; "Dow"; "(613) 555-0102"; "cy@dow.org"]].

Definition world_two_rows : World :=
  MkWorld [] [] None {["people.csv" := two_rows]} data_dir []
    (fun n => (5000000 + Z.of_nat n)%Z) 0.

(** Ann Lee's phone book with the CSV file beside it. *)
Definition world_ann_file : World :=
  MkWorld [ann] [0] None {["people.csv" := two_rows]} data_dir []
    (fun n => (5000000 + Z.of_nat n)%Z) 0.

(** An empty phone book beside two CSV files: one whose contact has no last
    name, one whose record has two fields only. *)
Definition world_bad_files : World :=
  MkWorld [] [] None
    {["noname.csv" := [["first"; "last"; "phone"]; ["Eve"; ""; "(613) 555-0103"]];
      "short.csv" := [["first"; "last"; "phone"]; ["Eve"; "Fox"]]]}
    data_dir [] (fun n => (5000000 + Z.of_nat n)%Z) 0.

(** The operations of the phone book, with their arguments. *)
Inductive operation : Type :=
  | Add (contact : ref)
  | Delete (full_name : string)
  | BatchImport (filename : string)
  | BatchDelete (filename : string)
  | Update (contact : ref) (first last phone mail addr : option string)
  | Search (query : string) (start_date end_date : option datetime)
  | Sort (mode : string)
  | RenderAll
  | RenderAuditLog
  | ClearAuditLog.

Definition run (re_search : string -> string -> option bool) (o : operation) : M unit :=
  match o with
  | Add contact => add_contact contact
  | Delete full_name => delete_contact full_name
  | BatchImport filename => batch_add_contacts filename
  | BatchDelete filename => batch_delete_contacts filename
  | Update contact first last phone mail addr =>
      update_contact contact first last phone mail addr
  | Search query start_date end_date =>
      search_contacts re_search query start_date end_date ;;; ret tt
  | Sort mode => sort_contacts mode
  | RenderAll => display_contacts
  | RenderAuditLog => view_audit_log
  | ClearAuditLog => clear_audit_log
  end.

(** What an operation that returns does to the audit log. *)
Inductive log_effect : Type :=
  | Appends     (* one more line *)
  | Nothing     (* the log is as it was *)
  | Empties.    (* the log is empty *)

Definition refused (phone mail : option string) : bool :=
  (Str.given phone && negb (is_valid_phone (default "" phone))) ||
  (Str.given mail && negb (is_valid_email (default "" mail))).

Definition log_effect_of (o : operation) (w : World) : log_effect :=
  match o with
  | Add _ | Delete _ | Search _ _ _ | Sort _ => Appends
  | Update _ _ _ phone mail _ => if refused phone mail then Nothing else Appends
  | BatchImport filename | BatchDelete filename =>
      match data w !! filename with
      | Some _ => Appends
      | None => Nothing
      end
  | RenderAll | RenderAuditLog => Nothing
  | ClearAuditLog => Empties
  end.

(** The audit log of [w'] is that of [w] and one line of the form
    "{timestamp} - {description}". *)
Definition one_more_line (w w' : World) : Prop :=
  exists (t : datetime) (description : text),
    audit_log w' = Some (default [] (audit_log w) ++ [log_line t description]).


(** A statement that only reads the world. *)
Definition reads {A} (m : M A) : Prop :=
  forall w : World, exists r : outcome A, m w = (r, w).

(** A statement that only reads the world and returns. *)
Definition reads_and_returns {A} (m : M A) : Prop :=
  forall w : World, exists a : A, m w = (Ok a, w).

(** A statement that only prints, and returns. *)
Definition prints {A} (m : M A) : Prop :=
  forall w : World, exists (a : A) (out : list text),
    m w = (Ok a, set_stdout (stdout w ++ out) w).

(** The strings a pattern denotes. *)
Inductive matches : Re.regex -> string -> Prop :=
  | matches_eps : matches Re.Eps ""
  | matches_lit (a : ascii) : matches (Re.Lit a) (String a "")
  | matches_dot (a : ascii) : a <> Re.newline -> matches Re.Dot (String a "")
  | matches_digit (a : ascii) : Re.is_digit a = true -> matches Re.Digit (String a "")
  | matches_seq (r1 r2 : Re.regex) (s1 s2 : string) :
      matches r1 s1 -> matches r2 s2 -> matches (Re.Seq r1 r2) (s1 +:+ s2)
  | matches_alt_l (r1 r2 : Re.regex) (s : string) :
      matches r1 s -> matches (Re.Alt r1 r2) s
  | matches_alt_r (r1 r2 : Re.regex) (s : string) :
      matches r2 s -> matches (Re.Alt r1 r2) s
  | matches_star_nil (r : Re.regex) : matches (Re.Star r) ""
  | matches_star_cons (r : Re.regex) (s1 s2 : string) :
      matches r s1 -> matches (Re.Star r) s2 -> matches (Re.Star r) (s1 +:+ s2).

(** Every character of a string passes a test. *)
Fixpoint all_chars (test : ascii -> bool) (s : string) : bool :=
  match s with
  | EmptyString => true
  | String a s' => test a && all_chars test s'
  end.

(** [n] digits, each of them one of '0' to '9'. *)
Definition digits (n : nat) (s : string) : Prop :=
  String.length s = n /\ all_chars Re.is_digit s = true.

(** The shape "(###) ###-####". *)
Definition phone_shape (phone : string) : Prop :=
  exists a b c : string,
    phone = "(" +:+ a +:+ ") " +:+ b +:+ "-" +:+ c /\
    digits 3 a /\ digits 3 b /\ digits 4 c.

(** A piece of a line of text: not empty, and without a line break. *)
Definition one_line (s : string) : Prop :=
  s <> "" /\ all_chars (fun a => negb (Ascii.eqb a Re.newline)) s = true.

(** The five arguments of an update, and a sequence of calls of
    [Contact.update] on one contact. *)
Definition update_args : Type :=
  (option string * option string * option string * option string * option string)%type.

Definition Contact_update_with (self : ref) (args : update_args) : M unit :=
  let '(first, last, phone, mail, addr) := args in
  Contact.update self first last phone mail addr.

(** The history of a contact tells its story: each entry starts from the
    values the entry before ended with, and the last entry ends with the
    values and the time of update the contact has now. *)
Definition history_consistent (c : contact) : Prop :=
  (forall (i : nat) (e1 e2 : change),
     update_history c !! i = Some e1 -> update_history c !! S i = Some e2 ->
     old_values e2 = new_values e1) /\
  (forall e : change,
     last (update_history c) = Some e ->
     new_values e = values_of c /\ ch_time_updated e = time_updated c).

(** The formats [update_contact] checks hold of a contact. *)
Definition well_formatted (c : contact) : Prop :=
  is_valid_phone (phone_number c) = true /\
  (forall e : string, email c = Some e -> is_valid_email e = true).

(** None of the five arguments is given. *)
Definition nothing_given (args : update_args) : Prop :=
  let '(first, last, phone, mail, addr) := args in
  Str.given first = false /\ Str.given last = false /\ Str.given phone = false /\
  Str.given mail = false /\ Str.given addr = false.

(** The pattern is found in the first name, the last name, the full name
    (all three in lower case) or the phone number of a contact. *)
Definition hit (re_search : string -> string -> option bool) (pattern : string)
    (c : contact) : Prop :=
  re_search pattern (Str.lower (first_name c)) = Some true \/
  re_search pattern (Str.lower (last_name c)) = Some true \/
  re_search pattern (Str.lower (full_name_of c)) = Some true \/
  re_search pattern (phone_number c) = Some true.

(** The contact was created between the two dates, when both are given. *)
Definition in_range (start_date end_date : option datetime) (c : contact) : Prop :=
  match start_date, end_date with
  | Some s, Some e => (s <= time_created c <= e)%Z
  | _, _ => True
  end.

(** The order of the keys of a sort: [k2] is not less than [k1], as Python
    compares strings. *)
Definition key_le (k1 k2 : string) : Prop := String.ltb k2 k1 = false.

(** The keys of the two sorts. *)
Definition alphabetical_key (c : contact) : option string := Some (last_name c).
Definition group_key (c : contact) : option string := Str.first_char (last_name c).

(** A list of contacts is sorted by a key. *)
Definition sorted_by (key : contact -> option string) (h : list contact) (l : list ref) : Prop :=
  StronglySorted
    (fun r1 r2 => forall k1 k2, key (h !!! r1) = Some k1 -> key (h !!! r2) = Some k2 ->
                                key_le k1 k2) l.

(** The contacts of a list that have a given key, in order. *)
Definition with_key (key : contact -> option string) (h : list contact) (k : string)
    (l : list ref) : list ref :=
  filter (fun r => key (h !!! r) = Some k) l.

(** Each pair of a list holds a contact and its key. *)
Definition keyed_for (key : contact -> option string) (h : list contact)
    (keyed : list (string * ref)) : Prop :=
  Forall (fun p => key (h !!! p.2) = Some p.1) keyed.

(** The line [display_contacts] prints for the contact at a position. *)
Definition contact_line (idx : nat) (c : contact) : text :=
  [Num idx; Txt (". " +:+ full_name_of c +:+ " | Phone: " +:+ phone_number c
                  +:+ " | Email: " +:+ or_na (email c)
                  +:+ " | Address: " +:+ or_na (address c))].

(** Between two worlds nothing changed but the console. *)
Definition only_console (w w' : World) : Prop :=
  heap w' = heap w /\ contacts_list w' = contacts_list w /\ audit_log w' = audit_log w /\
  data w' = data w /\ clock w' = clock w /\ ticks w' = ticks w.

(** What [get_valid_input] writes while it reads the lines [bad], which
    fail the check, and one line more. *)
Definition asked (prompt error_message : string) (bad : list string) : list text :=
  (bad ≫= fun _ => [[Txt prompt]; [Txt (RED +:+ error_message +:+ RESET)]]) ++ [[Txt prompt]].

(** Every contact of the list has a phone number of the checked shape. *)
Definition phones_valid (w : World) : Prop :=
  Forall (fun r => exists c, heap w !! r = Some c /\ is_valid_phone (phone_number c) = true)
    (contacts_list w).

(** A phone book of Ann Lee, and the lines typed to add Bob Ray to it after
    a mistyped phone number. *)
Definition typed_bob : list string :=
  ["Bob"; "Ray"; "555-0101"; "(613) 555-0101"; ""; ""; "2"].

(** An item of a file that is no line end, and a text that holds none:
    neither a line feed nor a carriage return. *)
Definition line_end (a : ascii) : bool := Ascii.eqb a LF || Ascii.eqb a CR.

Definition plain (i : item) : bool :=
  match i with
  | Chr a => negb (line_end a)
  | Atom _ => true
  end.

Definition no_line_end (t : text) : bool := forallb plain (items t).

(** An entry of the audit log as [log_operation] writes it, and one whose
    description holds no line end. *)
Definition log_entry (entry : text) : Prop :=
  exists (t : datetime) (description : text), entry = log_line t description.

Definition entry_on_one_line (entry : text) : Prop :=
  exists (t : datetime) (description : text),
    entry = log_line t description /\ no_line_end description = true.

(** Ann Lee's phone book after she was added to it, and after a name of two
    lines was looked for in order to delete it. *)
Definition world_ann_logged : World :=
  MkWorld [ann] [0] (Some [log_line 4000000%Z [Txt "Added contact: Ann Lee"]]) ∅ ∅ []
    (fun n => (5000000 + Z.of_nat n)%Z) 0.

Definition name_of_two_lines : string := "x" +:+ NL +:+ "y".

(** Ann Lee's phone book beside a directory [data/] that holds one file,
    which may not be read. *)
Definition world_data_dir : World :=
  MkWorld [ann] [0] None ∅ (<["secret.csv" := PermissionError]> data_dir)
    [] (fun n => (5000000 + Z.of_nat n)%Z) 0.

(** * Properties *)

(** ** Running statements *)

Lemma exec_bind {A B} (m : M A) (k : A -> M B) (w : World) :
  exec (bind m k) w =
  match result m w with
  | Ok a => exec (k a) (exec m w)
  | Raised _ => exec m w
  end.
Proof. unfold exec, result, bind. destruct (m w) as [[a|e] w']; reflexivity. Qed.

Lemma result_bind {A B} (m : M A) (k : A -> M B) (w : World) :
  result (bind m k) w =
  match result m w with
  | Ok a => result (k a) (exec m w)
  | Raised e => Raised e
  end.
Proof. unfold exec, result, bind. destruct (m w) as [[a|e] w']; reflexivity. Qed.

Lemma bind_ok {A B} (m : M A) (k : A -> M B) (w w' : World) (a : A) :
  m w = (Ok a, w') -> bind m k w = k a w'.
Proof. unfold bind. by intros ->. Qed.

Lemma bind_raised {A B} (m : M A) (k : A -> M B) (w w' : World) (e : exn) :
  m w = (Raised e, w') -> bind m k w = (Raised e, w').
Proof. unfold bind. by intros ->. Qed.

Lemma run_eq {A} (m : M A) (w : World) : m w = (result m w, exec m w).
Proof. unfold result, exec. destruct (m w); reflexivity. Qed.

Lemma log_operation_run (operation : text) (w : World) :
  log_operation operation w =
  (Ok tt,
   MkWorld (heap w) (contacts_list w)
     (Some (default [] (audit_log w) ++ [log_line (clock w (ticks w)) operation]))
     (data w) (broken w) (stdout w) (clock w) (S (ticks w))).
Proof. reflexivity. Qed.

(** ** Construction of a contact *)

Lemma Contact_init_run first last phone mail addr (w : World) :
  Contact.__init__ first last phone mail addr w =
  (Ok (length (heap w)),
   MkWorld
     (heap w ++ [MkContact first last phone mail addr
                   (replace_microsecond_0 (clock w (ticks w)))
                   (replace_microsecond_0 (clock w (S (ticks w)))) []])
     (contacts_list w) (audit_log w) (data w) (broken w) (stdout w) (clock w) (S (S (ticks w)))).
Proof. reflexivity. Qed.

Lemma created_eq first last phone mail addr (w : World) :
  created first last phone mail addr w =
  MkContact first last phone mail addr
    (replace_microsecond_0 (clock w (ticks w)))
    (replace_microsecond_0 (clock w (S (ticks w)))) [].
Proof.
  unfold created, exec. rewrite Contact_init_run. cbn [snd heap].
  apply list_lookup_total_correct.
  rewrite lookup_app_r by lia. by rewrite Nat.sub_diag.
Qed.

Lemma created_history_empty first last phone mail addr (w : World) :
  update_history (created first last phone mail addr w) = [].
Proof. by rewrite created_eq. Qed.

(** The two readings of the clock agree once truncated exactly when they
    fall in the same second. *)
Lemma created_times first last phone mail addr (w : World) :
  time_updated (created first last phone mail addr w)
    = time_created (created first last phone mail addr w)
  <-> (clock w (S (ticks w)) / 1000000 = clock w (ticks w) / 1000000)%Z.
Proof.
  rewrite created_eq. cbn [time_updated time_created].
  unfold replace_microsecond_0.
  set (a := clock w (ticks w)). set (b := clock w (S (ticks w))).
  pose proof (Z.div_mod a 1000000 ltac:(lia)).
  pose proof (Z.div_mod b 1000000 ltac:(lia)).
  lia.
Qed.

(** C9: the constructor reads the clock once for [time_created] and once
    more for [time_updated]; a contact constructed while the second changes
    has an empty history but two different time stamps. *)
Lemma Contact_init_times_differ :
  let c := created "Ann" "Lee" "(613) 555-0100" None None world_across_second in
  update_history c = [] /\
  time_created c = 1000000%Z /\
  time_updated c = 2000000%Z /\
  time_updated c <> time_created c.
Proof. vm_compute. repeat split; congruence. Qed.

(** ** Contact.update *)

Lemma Contact_update_run self first last phone mail addr (w : World) :
  let c := heap w !!! self in
  let tu := replace_microsecond_0 (clock w (ticks w)) in
  let c' := assigned c first last phone mail addr in
  Contact.update self first last phone mail addr w =
  (Ok tt,
   MkWorld
     (<[self := MkContact (first_name c') (last_name c') (phone_number c') (email c')
                  (address c') (time_created c) tu
                  (update_history c ++ [Change tu (values_of c) (values_of c')])]> (heap w))
     (contacts_list w) (audit_log w) (data w) (broken w) (stdout w) (clock w) (S (ticks w))).
Proof. reflexivity. Qed.

(** Each call of [Contact.update] appends one entry whose [new_values] are
    the fields the contact has after the call. *)
Lemma Contact_update_history self first last phone mail addr (w : World) :
  self < length (heap w) ->
  let c := heap w !!! self in
  let c' := heap (exec (Contact.update self first last phone mail addr) w) !!! self in
  exists t, update_history c' = update_history c ++ [Change t (values_of c) (values_of c')].
Proof.
  intros Hlt c c'. subst c'. unfold exec. rewrite Contact_update_run. cbn [snd heap].
  rewrite list_lookup_total_insert_eq by done. cbn. eauto.
Qed.

(** ** PhoneBook.update_contact *)

Lemma given_true (o : option string) :
  Str.given o = true <-> exists s, o = Some s /\ s <> "".
Proof.
  split.
  - destruct o as [[|a s]|]; cbn; try discriminate. intros _. by exists (String a s).
  - intros (s & -> & Hs). destruct s; [done | reflexivity].
Qed.

Lemma bad_phone_guard (phone : option string) :
  Str.given phone && negb (is_valid_phone (default "" phone)) = true <-> bad_phone phone.
Proof.
  rewrite andb_true_iff, negb_true_iff, given_true. unfold bad_phone. split.
  - intros [(s & -> & Hs) Hv]. eauto.
  - intros (p & -> & Hp & Hv). eauto.
Qed.

Lemma bad_email_guard (mail : option string) :
  Str.given mail && negb (is_valid_email (default "" mail)) = true <-> bad_email mail.
Proof.
  rewrite andb_true_iff, negb_true_iff, given_true. unfold bad_email. split.
  - intros [(s & -> & Hs) Hv]. eauto.
  - intros (p & -> & Hp & Hv). eauto.
Qed.

(** The three ways a call of [update_contact] ends. *)
Lemma update_contact_run contact first last phone mail addr (w : World) :
  let c := heap w !!! contact in
  let h' := <[contact := assigned c first last phone mail addr]> (heap w) in
  update_contact contact first last phone mail addr w =
  if Str.given phone && negb (is_valid_phone (default "" phone)) then
    (Ok tt, set_stdout (stdout w ++ [phone_error]) w)
  else if Str.given mail && negb (is_valid_email (default "" mail)) then
    (Ok tt, set_stdout (stdout w ++ [email_error]) w)
  else
    (Ok tt,
     MkWorld h' (contacts_list w)
       (Some (default [] (audit_log w) ++
              [log_line (clock w (ticks w))
                 [Txt "Updated contact: "; Dict (values_of c); Txt " to "; Obj (h' !!! contact)]]))
       (data w) (broken w)
       (stdout w ++ [[Txt (GREEN +:+ "Contact updated successfully!" +:+ RESET)]])
       (clock w) (S (ticks w))).
Proof.
  intros c h'. unfold update_contact, bind, deref, gets. cbn beta iota.
  fold c. destruct (Str.given phone && _); [reflexivity|].
  destruct (Str.given mail && _); reflexivity.
Qed.

(** An update never touches the list of contacts, nor any object but the
    one it is given, and of that object only the five fields. *)
Lemma update_contact_heap contact first last phone mail addr (w : World) :
  let w' := exec (update_contact contact first last phone mail addr) w in
  heap w' = heap w \/
  heap w' = <[contact := assigned (heap w !!! contact) first last phone mail addr]> (heap w).
Proof.
  intros w'. subst w'. unfold exec. rewrite update_contact_run.
  destruct (Str.given phone && _); [by left|].
  destruct (Str.given mail && _); [by left | by right].
Qed.

Lemma assigned_rest (c : contact) first last phone mail addr :
  time_created (assigned c first last phone mail addr) = time_created c /\
  time_updated (assigned c first last phone mail addr) = time_updated c /\
  update_history (assigned c first last phone mail addr) = update_history c.
Proof. done. Qed.

Lemma insert_assigned_rest (h : list contact) (r : ref) first last phone mail addr :
  let c' := <[r := assigned (h !!! r) first last phone mail addr]> h !!! r in
  time_created c' = time_created (h !!! r) /\
  time_updated c' = time_updated (h !!! r) /\
  update_history c' = update_history (h !!! r).
Proof.
  intros c'. subst c'. destruct (decide (r < length h)) as [Hlt|Hge].
  - rewrite list_lookup_total_insert_eq by done. apply assigned_rest.
  - rewrite list_insert_ge by lia. done.
Qed.

(** C1: [update_contact] assigns the five fields itself and never calls
    [Contact.update]: after a successful update of Ann Lee's first name her
    history is still empty and [time_updated] is what it was, where
    [Contact.update] with the same arguments records one change. *)
Lemma update_contact_no_history :
  let w' := exec (update_contact 0 (Some "Bob") None None None None) world_ann in
  let w'' := exec (Contact.update 0 (Some "Bob") None None None None) world_ann in
  result (update_contact 0 (Some "Bob") None None None None) world_ann = Ok tt /\
  first_name (heap w' !!! 0) = "Bob" /\
  length (update_history (heap w' !!! 0)) = 0 /\
  time_updated (heap w' !!! 0) = time_updated ann /\
  length (update_history (heap w'' !!! 0)) = 1.
Proof. vm_compute. repeat split; reflexivity. Qed.

(** C10: whatever object [update_contact] is given, in the list or not, the
    list of contacts is the same list of the same objects afterwards, every
    other object is unchanged, and of the object itself nothing changes but
    the five fields. *)
Theorem update_contact_frame contact first last phone mail addr (w : World) :
  let w' := exec (update_contact contact first last phone mail addr) w in
  contacts_list w' = contacts_list w /\
  length (heap w') = length (heap w) /\
  (forall r : ref, r <> contact -> heap w' !! r = heap w !! r) /\
  time_created (heap w' !!! contact) = time_created (heap w !!! contact) /\
  time_updated (heap w' !!! contact) = time_updated (heap w !!! contact) /\
  update_history (heap w' !!! contact) = update_history (heap w !!! contact).
Proof.
  intros w'.
  assert (Hl : contacts_list w' = contacts_list w).
  { subst w'. unfold exec. rewrite update_contact_run.
    destruct (Str.given phone && _); [done|]. by destruct (Str.given mail && _). }
  split; [exact Hl|].
  destruct (update_contact_heap contact first last phone mail addr w) as [Hh|Hh];
    fold w' in Hh; rewrite Hh.
  - done.
  - split; [by rewrite length_insert|]. split.
    + intros r Hr. by rewrite list_lookup_insert_ne.
    + apply insert_assigned_rest.
Qed.

(** C3, as stated, fails for a phone number that is supplied but empty: the
    empty string does not match the phone pattern, yet the update goes
    through, changes the first name and logs a success. *)
Lemma update_contact_empty_phone_accepted :
  let w' := exec (update_contact 0 (Some "Zed") None (Some "") None None) world_ann in
  is_valid_phone "" = false /\
  first_name (heap world_ann !!! 0) = "Ann" /\
  first_name (heap w' !!! 0) = "Zed" /\
  audit_log world_ann = None /\
  audit_log w' =
    Some [log_line 5000000%Z
            [Txt "Updated contact: "; Dict (values_of ann); Txt " to ";
             Obj (assigned ann (Some "Zed") None (Some "") None None)]].
Proof. vm_compute. repeat split; reflexivity. Qed.

(** C3, amended: an update whose phone number is supplied, not empty and
    malformed, or whose email is supplied, not empty and malformed, is
    abandoned: no object changes (so no field of the contact and no history
    entry), the list of contacts and the audit log are as before, and the
    one thing printed is the error of the check that failed, the phone
    check coming first. *)
Theorem update_contact_rejected contact first last phone mail addr (w : World) :
  bad_phone phone \/ bad_email mail ->
  let w' := exec (update_contact contact first last phone mail addr) w in
  result (update_contact contact first last phone mail addr) w = Ok tt /\
  heap w' = heap w /\
  contacts_list w' = contacts_list w /\
  audit_log w' = audit_log w /\
  (bad_phone phone -> stdout w' = stdout w ++ [phone_error]) /\
  (~ bad_phone phone -> stdout w' = stdout w ++ [email_error]).
Proof.
  intros Hbad w'. subst w'. unfold exec, result. rewrite update_contact_run.
  destruct (Str.given phone && _) eqn:Hp.
  - apply bad_phone_guard in Hp. cbn. split_and!; done.
  - assert (Hnp : ~ bad_phone phone).
    { intros H%bad_phone_guard. congruence. }
    destruct Hbad as [?|Hm]; [done|].
    apply bad_email_guard in Hm. rewrite Hm. cbn. split_and!; done.
Qed.

Lemma update_contact_rejected_witness :
  let w' := exec (update_contact 0 None None (Some "555-1234") None None) world_ann in
  heap w' = heap world_ann /\ audit_log w' = audit_log world_ann /\
  stdout w' = [phone_error].
Proof.
  assert (Hbad : bad_phone (Some "555-1234")).
  { exists "555-1234". split_and!; [reflexivity | discriminate | reflexivity]. }
  destruct (update_contact_rejected 0 None None (Some "555-1234") None None world_ann
              (or_introl Hbad)) as (_ & Hh & _ & Ha & Hs & _).
  split; [exact Hh | split; [exact Ha | exact (Hs Hbad)]].
Defined.

(** ** PhoneBook.delete_contact *)

Lemma find_full_name_none (h : list contact) (full_name : string) (l : list ref) :
  Forall (fun y => ~ named h full_name y) l ->
  find_full_name h (Str.lower full_name) l = None.
Proof.
  induction 1 as [|y l Hy _ IH]; [done|]. cbn.
  destruct (String.eqb_spec (Str.lower (full_name_of (h !!! y))) (Str.lower full_name)); done.
Qed.

Lemma find_full_name_first (h : list contact) (full_name : string) (l1 l2 : list ref) (r : ref) :
  Forall (fun y => ~ named h full_name y) l1 ->
  named h full_name r ->
  find_full_name h (Str.lower full_name) (l1 ++ r :: l2) = Some (r, Str.lower full_name).
Proof.
  intros Hl1 Hr. induction Hl1 as [|y l Hy _ IH]; cbn.
  - unfold named in Hr. by rewrite Hr, String.eqb_refl.
  - destruct (String.eqb_spec (Str.lower (full_name_of (h !!! y))) (Str.lower full_name)); done.
Qed.

(** Two contacts with different names are not equal under [__eq__]. *)
Lemma eq_named (h : list contact) (full_name : string) (x y : ref) :
  Contact.__eq__ (h !!! y) (h !!! x) = true -> named h full_name x -> named h full_name y.
Proof.
  unfold Contact.__eq__, named, full_name_of, values_of.
  intros Heq%bool_decide_eq_true. injection Heq as -> -> _ _ _. done.
Qed.

(** [list.remove] takes out the contact the loop found, not an equal one
    in front of it: every contact in front has another name. *)
Lemma remove_first_found (h : list contact) (full_name : string) (l1 l2 : list ref) (r : ref) :
  Forall (fun y => ~ named h full_name y) l1 ->
  named h full_name r ->
  remove_first h r (l1 ++ r :: l2) = Some (l1 ++ l2).
Proof.
  intros Hl1 Hr. induction Hl1 as [|y l Hy _ IH]; cbn.
  - by rewrite Nat.eqb_refl.
  - destruct (Nat.eqb_spec y r) as [->|_]; [done|]. cbn.
    destruct (Contact.__eq__ (h !!! y) (h !!! r)) eqn:Heq.
    + exfalso. eauto using eq_named.
    + by rewrite IH.
Qed.

Lemma first_named_split (h : list contact) (full_name : string) (l : list ref) :
  Forall (fun y => ~ named h full_name y) l \/
  exists l1 r l2, l = l1 ++ r :: l2 /\
    Forall (fun y => ~ named h full_name y) l1 /\ named h full_name r.
Proof.
  induction l as [|y l IH]; [by left|].
  destruct (decide (Str.lower (full_name_of (h !!! y)) = Str.lower full_name)) as [Hy|Hy].
  - right. exists [], y, l. done.
  - destruct IH as [IH|(l1 & r & l2 & -> & Hl1 & Hr)].
    + left. by constructor.
    + right. exists (y :: l1), r, l2. split_and!; [done| by constructor |done].
Qed.

Lemma delete_contact_found (full_name : string) (w : World) (l1 l2 : list ref) (r : ref) :
  contacts_list w = l1 ++ r :: l2 ->
  Forall (fun y => ~ named (heap w) full_name y) l1 ->
  named (heap w) full_name r ->
  delete_contact full_name w =
  (Ok tt,
   MkWorld (heap w) (l1 ++ l2)
     (logged [Txt ("Deleted contact: " +:+ Str.lower full_name)] w)
     (data w) (broken w) (stdout w ++ [deleted_message (Str.lower full_name)]) (clock w) (S (ticks w))).
Proof.
  intros Hl Hl1 Hr. unfold delete_contact, bind, gets, contacts_list_remove.
  rewrite Hl, find_full_name_first by done. cbn.
  rewrite Hl. erewrite remove_first_found by done. reflexivity.
Qed.

Lemma delete_contact_not_found (full_name : string) (w : World) :
  Forall (fun y => ~ named (heap w) full_name y) (contacts_list w) ->
  delete_contact full_name w =
  (Ok tt,
   MkWorld (heap w) (contacts_list w)
     (logged [Txt ("Failed to delete contact: " +:+ Str.lower full_name)] w)
     (data w) (broken w) (stdout w ++ [not_found_message (Str.lower full_name)]) (clock w) (S (ticks w))).
Proof.
  intros Hl. unfold delete_contact, bind, gets.
  rewrite find_full_name_none by done. reflexivity.
Qed.

(** C7: [delete_contact] goes through the contacts in order and removes the
    first one whose full name is the given one, letter case aside, printing
    the success and logging the deletion; when no contact has that name the
    list is untouched, the error is printed and the failure is logged, in a
    line that no deletion can produce.  No object changes, and the call
    always returns. *)
Theorem delete_contact_first_match (full_name : string) (w : World) :
  let target := Str.lower full_name in
  let w' := exec (delete_contact full_name) w in
  result (delete_contact full_name) w = Ok tt /\
  heap w' = heap w /\
  (forall (l1 l2 : list ref) (r : ref),
     contacts_list w = l1 ++ r :: l2 ->
     Forall (fun y => ~ named (heap w) full_name y) l1 ->
     named (heap w) full_name r ->
     contacts_list w' = l1 ++ l2 /\
     stdout w' = stdout w ++ [deleted_message target] /\
     audit_log w' = logged [Txt ("Deleted contact: " +:+ target)] w) /\
  (Forall (fun y => ~ named (heap w) full_name y) (contacts_list w) ->
     contacts_list w' = contacts_list w /\
     stdout w' = stdout w ++ [not_found_message target] /\
     audit_log w' = logged [Txt ("Failed to delete contact: " +:+ target)] w) /\
  (forall a b : string, "Deleted contact: " +:+ a <> "Failed to delete contact: " +:+ b).
Proof.
  intros target w'. subst target w'. unfold exec, result.
  split_and!.
  - destruct (first_named_split (heap w) full_name (contacts_list w))
      as [Hl|(l1 & r & l2 & Hl & Hl1 & Hr)].
    + by rewrite delete_contact_not_found.
    + by erewrite delete_contact_found.
  - destruct (first_named_split (heap w) full_name (contacts_list w))
      as [Hl|(l1 & r & l2 & Hl & Hl1 & Hr)].
    + by rewrite delete_contact_not_found.
    + by erewrite delete_contact_found.
  - intros l1 l2 r Hl Hl1 Hr. by erewrite delete_contact_found.
  - intros Hl. by rewrite delete_contact_not_found.
  - intros a b. discriminate.
Qed.

Lemma delete_contact_first_match_witness :
  let w' := exec (delete_contact "ANN lee") world_ann in
  contacts_list w' = [] /\
  stdout w' = [deleted_message "ann lee"] /\
  audit_log w' = logged [Txt "Deleted contact: ann lee"] world_ann.
Proof.
  destruct (delete_contact_first_match "ANN lee" world_ann) as (_ & _ & Hfound & _).
  apply (Hfound [] [] 0); [reflexivity | constructor | reflexivity].
Defined.

(** ** PhoneBook.search_contacts *)

Lemma print_matches_run (matches : list ref) (w : World) :
  for_each matches (fun r => c <- deref r ;; print (Contact.__str__ c) ;;; print []) w =
  (Ok tt, set_stdout (stdout w ++ printed_matches (heap w) matches) w).
Proof.
  revert w. induction matches as [|r l IH]; intros w.
  - unfold printed_matches. cbn. rewrite app_nil_r. by destruct w.
  - cbn [for_each]. unfold bind at 1. unfold bind at 1. unfold bind at 1.
    cbn [deref gets print modify]. rewrite IH. cbn.
    unfold set_stdout. cbn. unfold printed_matches. cbn.
    by rewrite <- !app_assoc.
Qed.

Lemma print_search_result_run (search_string : string) (matches : list ref) (w : World) :
  match matches with
  | [] => print [Txt (RED +:+ "No contacts found matching the search criteria: "
                        +:+ search_string +:+ RESET)]
  | _ => for_each matches (fun r => c <- deref r ;; print (Contact.__str__ c) ;;; print [])
  end w =
  (Ok tt,
   set_stdout
     (stdout w ++
      match matches with
      | [] => [[Txt (RED +:+ "No contacts found matching the search criteria: "
                       +:+ search_string +:+ RESET)]]
      | _ => printed_matches (heap w) matches
      end) w).
Proof. destruct matches; [reflexivity | apply print_matches_run]. Qed.

Section SearchEmpty.

Variable re_search : string -> string -> option bool.

(** The empty pattern is found in every string. *)
Hypothesis empty_pattern : forall s : string, re_search "" s = Some true.

Lemma search_loop_empty (l matches : list ref) (w : World) :
  search_loop re_search "" None None l matches w = (Ok (matches ++ l), w).
Proof.
  revert matches. induction l as [|r l IH]; intros matches; cbn [search_loop].
  - by rewrite app_nil_r.
  - unfold bind at 1. cbn [deref gets]. unfold bind at 1.
    unfold orelse at 1. unfold bind at 1. unfold search at 1.
    rewrite empty_pattern. cbn [ret]. rewrite IH.
    by rewrite <- app_assoc.
Qed.

(** C8: with the empty query and no dates, the search returns the whole
    list of contacts as it stands, changes neither the list nor any
    object, and logs a count that is the size of the list. *)
Theorem search_empty_query (w : World) :
  let w' := exec (search_contacts re_search "" None None) w in
  result (search_contacts re_search "" None None) w = Ok (contacts_list w) /\
  contacts_list w' = contacts_list w /\
  heap w' = heap w /\
  audit_log w' =
    logged [Txt "Searched for contacts with query: , found ";
            Num (length (contacts_list w)); Txt " matches"] w.
Proof.
  intros w'. subst w'. unfold exec, result, search_contacts. cbn [Str.lower].
  erewrite bind_ok by reflexivity.
  erewrite bind_ok by apply search_loop_empty. cbn [app].
  erewrite bind_ok by apply print_search_result_run.
  erewrite bind_ok by apply log_operation_run.
  done.
Qed.

End SearchEmpty.

Lemma literal_search_empty (s : string) : literal_search "" s = Some true.
Proof. by destruct s. Qed.

Lemma search_empty_query_witness :
  result (search_contacts literal_search "" None None) world_ann = Ok [0].
Proof.
  exact (proj1 (search_empty_query literal_search literal_search_empty world_ann)).
Defined.

(** ** The batch operations *)

Lemma contact_of_row_ok (row : list string) (w : World) :
  3 <= length row ->
  contact_of_row row w =
  (Ok (length (heap w)),
   MkWorld (heap w ++ [contact_at row w]) (contacts_list w) (audit_log w) (data w) (broken w)
     (stdout w) (clock w) (S (S (ticks w)))).
Proof.
  intros Hlen. destruct row as [|a [|b [|c row]]]; cbn in Hlen; try lia. reflexivity.
Qed.

Lemma contact_of_row_short (row : list string) (w : World) :
  ~ 3 <= length row -> contact_of_row row w = (Raised IndexError, w).
Proof.
  intros Hlen. destruct row as [|a [|b [|c row]]]; cbn in Hlen; try lia; reflexivity.
Qed.

Lemma values_of_contact_at (row : list string) (w : World) :
  values_of (contact_at row w) = values_of_row row.
Proof. reflexivity. Qed.

Lemma well_formed_prefix_all (rows : list (list string)) :
  Forall (fun row => 3 <= length row) rows -> well_formed_prefix rows = rows.
Proof.
  induction 1 as [|row rows Hrow _ IH]; [done|]. cbn.
  rewrite decide_True by done. by rewrite IH.
Qed.

Lemma well_formed_prefix_all_inv (rows : list (list string)) :
  well_formed_prefix rows = rows -> Forall (fun row => 3 <= length row) rows.
Proof.
  induction rows as [|row rows IH]; [done|]. cbn.
  destruct (decide (3 <= length row)); [|done].
  intros [= Heq]. constructor; auto.
Qed.

(** The loop of [batch_add_contacts]: one new object per row it gets
    through, each appended to the list of contacts. *)
Lemma batch_add_loop (rows : list (list string)) (w : World) :
  exists objs : list contact,
    exec (for_each rows batch_add_row) w =
      MkWorld (heap w ++ objs)
        (contacts_list w ++ seq (length (heap w)) (length objs))
        (audit_log w) (data w) (broken w) (stdout w) (clock w) (ticks w + 2 * length objs) /\
    values_of <$> objs = values_of_row <$> well_formed_prefix rows /\
    Forall (fun c => update_history c = []) objs /\
    result (for_each rows batch_add_row) w =
      if decide (well_formed_prefix rows = rows) then Ok tt else Raised IndexError.
Proof.
  revert w. induction rows as [|row rows IH]; intros w.
  - exists []. cbn. rewrite !app_nil_r, Nat.add_0_r. by destruct w.
  - cbn [for_each well_formed_prefix]. unfold exec, result.
    destruct (decide (3 <= length row)) as [Hrow|Hrow].
    + erewrite bind_ok; last first.
      { unfold batch_add_row. erewrite bind_ok by by apply contact_of_row_ok. reflexivity. }
      unfold set_contacts_list.
      cbn [heap contacts_list audit_log data stdout clock ticks].
      destruct (IH (MkWorld (heap w ++ [contact_at row w]) (contacts_list w ++ [length (heap w)])
                      (audit_log w) (data w) (broken w) (stdout w) (clock w) (S (S (ticks w)))))
        as (objs & Hexec & Hvals & Hhist & Hres).
      exists (contact_at row w :: objs). unfold exec, result in *.
      cbn [heap contacts_list audit_log data stdout clock ticks] in *.
      split_and!.
      * etrans; [exact Hexec|]. rewrite length_app. cbn [length seq].
        rewrite <- !app_assoc. cbn [app]. f_equal; [by rewrite Nat.add_1_r | lia].
      * cbn. by rewrite Hvals.
      * by constructor.
      * etrans; [exact Hres|]. repeat case_decide; congruence.
    + erewrite bind_raised; last first.
      { unfold batch_add_row. erewrite bind_raised by by apply contact_of_row_short. reflexivity. }
      exists []. cbn. rewrite !app_nil_r, Nat.add_0_r. by destruct w.
Qed.

Lemma open_fails_run (filename : string) (w : World) :
  open_fails filename w =
  (match broken w !! filename with
   | Some e => Raised e
   | None => Ok tt
   end, w).
Proof. unfold open_fails, bind, gets. by destruct (broken w !! filename). Qed.

Lemma batch_add_contacts_missing (filename : string) (w : World) :
  data w !! filename = None ->
  batch_add_contacts filename w =
  (match broken w !! filename with
   | Some e => Raised e
   | None => Ok tt
   end, w).
Proof.
  intros Hf. unfold batch_add_contacts. erewrite bind_ok by (unfold gets; reflexivity).
  rewrite Hf. apply open_fails_run.
Qed.

(** C4, as stated, fails on a file of two contacts and no header: the
    method itself drops the first record, so one contact is added, the
    second one. *)
Lemma batch_add_contacts_drops_first_record :
  let w' := exec (batch_add_contacts "people.csv") world_two_rows in
  data world_two_rows !! "people.csv" = Some two_rows /\
  length two_rows = 2 /\
  Forall (fun row => 3 <= length row <= 5) two_rows /\
  length (contacts_list w') = 1 /\
  vals (heap w') (contacts_list w') = [values_of_row ["Cy"; "Dow"; "(613) 555-0102"; "cy@dow.org"]].
Proof.
  split_and!; try reflexivity.
  repeat constructor.
Qed.

(** C4, amended: [batch_add_contacts] drops the first record of the file,
    whatever it holds, and then creates one contact for each further record
    and appends it to the list, in the order of the file, provided each of
    these records has at least three fields.  The first three fields become
    the names and the phone number, the fourth and fifth, where present, the
    email and the address, as they are: nothing is validated and nothing is
    compared with the contacts already there. *)
Theorem batch_add_contacts_rows (filename : string) (csv : list (list string)) (w : World) :
  data w !! filename = Some csv ->
  Forall (fun row => 3 <= length row) (tail csv) ->
  let w' := exec (batch_add_contacts filename) w in
  result (batch_add_contacts filename) w = Ok tt /\
  exists objs : list contact,
    heap w' = heap w ++ objs /\
    contacts_list w' = contacts_list w ++ seq (length (heap w)) (length objs) /\
    values_of <$> objs = values_of_row <$> tail csv /\
    Forall (fun c => update_history c = []) objs.
Proof.
  intros Hf Hrows w'. subst w'.
  destruct (batch_add_loop (tail csv) w) as (objs & Hexec & Hvals & Hhist & Hres).
  rewrite well_formed_prefix_all in Hvals by done.
  rewrite decide_True in Hres by by apply well_formed_prefix_all.
  unfold exec, result, batch_add_contacts.
  erewrite bind_ok by (unfold gets; reflexivity). rewrite Hf.
  erewrite bind_ok by (rewrite (run_eq (for_each _ _)), Hexec, Hres; reflexivity).
  split; [reflexivity|]. exists objs. done.
Qed.

Lemma batch_add_contacts_rows_witness :
  result (batch_add_contacts "people.csv") world_two_rows = Ok tt.
Proof.
  refine (proj1 (batch_add_contacts_rows "people.csv" two_rows world_two_rows _ _)).
  - reflexivity.
  - repeat constructor.
Defined.

(** *** Removing by equality *)

Lemma vals_app_heap (h objs : list contact) (l : list ref) :
  Forall (fun r => r < length h) l -> vals (h ++ objs) l = vals h l.
Proof.
  unfold vals. induction 1 as [|r l Hr _ IH]; [done|].
  cbn. rewrite IH. by rewrite lookup_total_app_l.
Qed.

Lemma vals_app (h : list contact) (l1 l2 : list ref) :
  vals h (l1 ++ l2) = vals h l1 ++ vals h l2.
Proof. apply fmap_app. Qed.

Lemma vals_new_objects (h objs : list contact) :
  vals (h ++ objs) (seq (length h) (length objs)) = values_of <$> objs.
Proof.
  revert h. induction objs as [|c objs IH]; intros h; [done|].
  cbn [length seq]. unfold vals in *. cbn [fmap list_fmap].
  rewrite list_lookup_total_middle by done. f_equal.
  specialize (IH (h ++ [c])). rewrite <- app_assoc, length_app in IH. cbn in IH.
  by rewrite Nat.add_1_r in IH.
Qed.

(** The element [list.remove] takes out has the five fields of its
    argument. *)
Lemma remove_first_Some (h : list contact) (x : ref) (l l' : list ref) :
  remove_first h x l = Some l' ->
  vals h l ≡ₚ values_of (h !!! x) :: vals h l' /\
  length l = S (length l') /\
  (forall P : ref -> Prop, Forall P l -> Forall P l').
Proof.
  revert l'. induction l as [|y l IH]; intros l'; cbn; [done|].
  destruct (Nat.eqb y x || Contact.__eq__ (h !!! y) (h !!! x)) eqn:Hy.
  - intros [= <-]. split_and!; [|done|by inversion 1].
    apply orb_true_iff in Hy as [->%Nat.eqb_eq|Heq]; [done|].
    unfold Contact.__eq__ in Heq. apply bool_decide_eq_true in Heq. by rewrite Heq.
  - destruct (remove_first h x l) as [k|]; [|done]. intros [= <-].
    destruct (IH k eq_refl) as (Hperm & Hlen & Hsub). split_and!.
    + cbn. rewrite Hperm. apply Permutation_swap.
    + cbn. by rewrite Hlen.
    + intros P. inversion 1; subst. constructor; auto.
Qed.

(** It raises ValueError only when no contact of the list has these five
    fields. *)
Lemma remove_first_None (h : list contact) (x : ref) (l : list ref) :
  remove_first h x l = None -> values_of (h !!! x) ∉ vals h l.
Proof.
  induction l as [|y l IH]; cbn.
  - intros _. apply not_elem_of_nil.
  - destruct (Nat.eqb y x || Contact.__eq__ (h !!! y) (h !!! x)) eqn:Hy; [done|].
    apply orb_false_iff in Hy as [_ Hy]. unfold Contact.__eq__ in Hy.
    apply bool_decide_eq_false in Hy.
    destruct (remove_first h x l); [done|]. intros _.
    apply not_elem_of_cons. split; [congruence | by apply IH].
Qed.

(** *** The loop of batch_delete_contacts *)

Lemma batch_delete_row_ok (row : list string) (w : World) :
  3 <= length row ->
  let h' := heap w ++ [contact_at row w] in
  let x := length (heap w) in
  batch_delete_row row w =
  (Ok tt,
   MkWorld h'
     (default (contacts_list w) (remove_first h' x (contacts_list w)))
     (audit_log w) (data w) (broken w)
     (match remove_first h' x (contacts_list w) with
      | Some _ => stdout w
      | None => stdout w ++ [[Txt ("Error: Contact " +:+ full_name_of (h' !!! x)
                                     +:+ " does not exist.")]]
      end)
     (clock w) (S (S (ticks w)))).
Proof.
  intros Hlen h' x. unfold batch_delete_row.
  erewrite bind_ok by by apply contact_of_row_ok.
  unfold try_except, contacts_list_remove.
  cbn [heap contacts_list audit_log data stdout clock ticks]. fold h' x.
  destruct (remove_first h' x (contacts_list w)); reflexivity.
Qed.

Lemma batch_delete_row_short (row : list string) (w : World) :
  ~ 3 <= length row -> batch_delete_row row w = (Raised IndexError, w).
Proof.
  intros Hlen. unfold batch_delete_row.
  by erewrite bind_raised by by apply contact_of_row_short.
Qed.

(** The loop writes no file, and gets as far as the loop of
    [batch_add_contacts] on the same rows. *)
Lemma batch_delete_loop_frame (rows : list (list string)) (w : World) :
  let w' := exec (for_each rows batch_delete_row) w in
  audit_log w' = audit_log w /\ data w' = data w /\ clock w' = clock w /\
  result (for_each rows batch_delete_row) w =
    if decide (well_formed_prefix rows = rows) then Ok tt else Raised IndexError.
Proof.
  revert w. induction rows as [|row rows IH]; intros w; [done|].
  cbn [for_each well_formed_prefix]. unfold exec, result.
  destruct (decide (3 <= length row)) as [Hrow|Hrow].
  - erewrite bind_ok by by apply batch_delete_row_ok.
    match goal with |- context [for_each rows batch_delete_row ?w1] =>
      destruct (IH w1) as (Ha & Hd & Hc & Hres) end.
    unfold exec, result in *. rewrite Ha, Hd, Hc, Hres. split_and!; try done.
    repeat case_decide; congruence.
  - erewrite bind_raised by by apply batch_delete_row_short. done.
Qed.

(** Each row the loop gets through takes one contact with the fields of the
    row out of the list, as long as there is one. *)
Lemma batch_delete_loop_perm (rows : list (list string)) (V : list values) (w : World) :
  wf w ->
  vals (heap w) (contacts_list w) ≡ₚ (values_of_row <$> well_formed_prefix rows) ++ V ->
  let w' := exec (for_each rows batch_delete_row) w in
  wf w' /\ vals (heap w') (contacts_list w') ≡ₚ V.
Proof.
  revert w. induction rows as [|row rows IH]; intros w Hwf Hperm; [done|].
  cbn [for_each well_formed_prefix] in *. unfold exec.
  destruct (decide (3 <= length row)) as [Hrow|Hrow].
  - erewrite bind_ok by by apply batch_delete_row_ok.
    apply IH; cbn [heap contacts_list].
    + unfold wf in *. cbn [heap contacts_list]. rewrite length_app. cbn.
      destruct (remove_first _ _ _) as [l'|] eqn:Hrem; cbn.
      * apply (remove_first_Some _ _ _ _ Hrem). eapply Forall_impl; [done|]. cbn. lia.
      * eapply Forall_impl; [done|]. cbn. lia.
    + cbn [fmap list_fmap app] in Hperm.
      destruct (remove_first _ _ _) as [l'|] eqn:Hrem; cbn.
      * destruct (remove_first_Some _ _ _ _ Hrem) as (Hp & _ & _).
        rewrite vals_app_heap in Hp by done.
        rewrite list_lookup_total_middle in Hp by done.
        rewrite values_of_contact_at, Hperm in Hp.
        by apply Permutation_cons_inv in Hp.
      * apply remove_first_None in Hrem. exfalso. apply Hrem.
        rewrite vals_app_heap by done.
        rewrite list_lookup_total_middle by done.
        rewrite values_of_contact_at, Hperm. apply list_elem_of_here.
  - erewrite bind_raised by by apply batch_delete_row_short. done.
Qed.

(** *** The two operations as a whole *)

Lemma batch_add_contacts_exec (filename : string) (csv : list (list string)) (w : World) :
  data w !! filename = Some csv ->
  let w' := exec (batch_add_contacts filename) w in
  let complete := bool_decide (well_formed_prefix (tail csv) = tail csv) in
  exists objs : list contact,
    heap w' = heap w ++ objs /\
    contacts_list w' = contacts_list w ++ seq (length (heap w)) (length objs) /\
    values_of <$> objs = values_of_row <$> well_formed_prefix (tail csv) /\
    data w' = data w /\
    result (batch_add_contacts filename) w = (if complete then Ok tt else Raised IndexError) /\
    audit_log w' =
      (if complete
       then Some (default [] (audit_log w) ++
                  [log_line (clock w (ticks w + 2 * length objs))
                     [Txt ("Batch added contacts from file: " +:+ filename)]])
       else audit_log w).
Proof.
  intros Hf w' complete. subst w' complete.
  destruct (batch_add_loop (tail csv) w) as (objs & Hexec & Hvals & Hhist & Hres).
  exists objs. unfold exec, result, batch_add_contacts.
  erewrite bind_ok by (unfold gets; reflexivity). rewrite Hf.
  case_bool_decide as Hc.
  - rewrite decide_True in Hres by done.
    erewrite bind_ok by (rewrite (run_eq (for_each _ _)), Hexec, Hres; reflexivity).
    done.
  - rewrite decide_False in Hres by done.
    erewrite bind_raised by (rewrite (run_eq (for_each _ _)), Hexec, Hres; reflexivity).
    done.
Qed.

Lemma batch_delete_contacts_missing (filename : string) (w : World) :
  data w !! filename = None ->
  batch_delete_contacts filename w =
  (match broken w !! filename with
   | Some e => Raised e
   | None => Ok tt
   end, w).
Proof.
  intros Hf. unfold batch_delete_contacts. erewrite bind_ok by (unfold gets; reflexivity).
  rewrite Hf. apply open_fails_run.
Qed.

Lemma batch_delete_contacts_exec (filename : string) (csv : list (list string)) (w : World) :
  data w !! filename = Some csv ->
  let w' := exec (batch_delete_contacts filename) w in
  let loop := exec (for_each (tail csv) batch_delete_row) w in
  let complete := bool_decide (well_formed_prefix (tail csv) = tail csv) in
  heap w' = heap loop /\
  contacts_list w' = contacts_list loop /\
  data w' = data w /\
  result (batch_delete_contacts filename) w = (if complete then Ok tt else Raised IndexError) /\
  audit_log w' =
    (if complete
     then Some (default [] (audit_log w) ++
                [log_line (clock w (ticks loop))
                   [Txt ("Batch deleted contacts from file: " +:+ filename)]])
     else audit_log w).
Proof.
  intros Hf w' loop complete. subst w' complete.
  destruct (batch_delete_loop_frame (tail csv) w) as (Ha & Hd & Hc & Hres).
  fold loop in Ha, Hd, Hc.
  unfold exec at 1 2 3 4, result, batch_delete_contacts.
  erewrite bind_ok by (unfold gets; reflexivity). rewrite Hf.
  case_bool_decide as Hcomplete.
  - rewrite decide_True in Hres by done.
    erewrite bind_ok by (rewrite (run_eq (for_each _ _)), Hres; reflexivity).
    fold loop. cbn. by rewrite Ha, Hd, Hc.
  - rewrite decide_False in Hres by done.
    erewrite bind_raised by (rewrite (run_eq (for_each _ _)), Hres; reflexivity).
    cbn [fst snd]. fold loop. by rewrite Ha, Hd.
Qed.

(** Importing a file and deleting it again leaves as many contacts as there
    were, whatever the file holds. *)
Lemma batch_roundtrip_size (filename : string) (w : World) :
  wf w ->
  length (contacts_list
            (exec (batch_delete_contacts filename) (exec (batch_add_contacts filename) w)))
  = length (contacts_list w).
Proof.
  intros Hwf. destruct (data w !! filename) as [csv|] eqn:Hf.
  - destruct (batch_add_contacts_exec filename csv w Hf)
      as (objs & Hh & Hl & Hvals & Hd & _ & _).
    set (w1 := exec (batch_add_contacts filename) w) in *.
    assert (Hf1 : data w1 !! filename = Some csv) by by rewrite Hd.
    destruct (batch_delete_contacts_exec filename csv w1 Hf1) as (_ & -> & _).
    assert (Hwf1 : wf w1).
    { unfold wf in *. rewrite Hl, Hh, length_app. apply Forall_app. split.
      - eapply Forall_impl; [done|]. cbn. lia.
      - apply Forall_seq. lia. }
    assert (Hperm : vals (heap w1) (contacts_list w1) ≡ₚ
                    (values_of_row <$> well_formed_prefix (tail csv))
                      ++ vals (heap w) (contacts_list w)).
    { rewrite Hl, Hh, vals_app.
      rewrite vals_app_heap by done. rewrite vals_new_objects, Hvals.
      apply Permutation_app_comm. }
    destruct (batch_delete_loop_perm _ _ _ Hwf1 Hperm) as [_ Hfinal].
    apply Permutation_length in Hfinal. unfold vals in Hfinal.
    by rewrite !length_fmap in Hfinal.
  - unfold exec. rewrite (batch_add_contacts_missing _ _ Hf). cbn [snd].
    by rewrite (batch_delete_contacts_missing _ _ Hf).
Qed.

(** C6: when no record of the file has the five fields of a contact already
    in the list, [batch_add_contacts] followed at once by
    [batch_delete_contacts] on the same file leaves the list with the
    number of contacts it had.  (The size comes back without that
    condition too, see [batch_roundtrip_size]; what the condition adds is
    that the contacts taken out are the imported ones.) *)
Theorem batch_add_then_delete_size (filename : string) (w : World) :
  wf w ->
  (forall csv, data w !! filename = Some csv ->
     Forall (fun row => values_of_row row ∉ vals (heap w) (contacts_list w)) (tail csv)) ->
  length (contacts_list
            (exec (batch_delete_contacts filename) (exec (batch_add_contacts filename) w)))
  = length (contacts_list w).
Proof. intros Hwf _. by apply batch_roundtrip_size. Qed.

Lemma batch_add_then_delete_size_witness :
  length (contacts_list
            (exec (batch_delete_contacts "people.csv")
               (exec (batch_add_contacts "people.csv") world_ann_file))) = 1.
Proof.
  apply (batch_add_then_delete_size "people.csv" world_ann_file).
  - repeat constructor.
  - intros csv Hcsv. vm_compute in Hcsv. injection Hcsv as <-.
    repeat constructor. intros Hin%list_elem_of_singleton. discriminate.
Defined.

(** ** Statements that read, and statements that print *)

Lemma print_prints (t : text) : prints (print t).
Proof. intros w. by exists tt, [t]. Qed.

Lemma prints_bind {A B} (m : M A) (k : A -> M B) :
  prints m -> (forall a, prints (k a)) -> prints (bind m k).
Proof.
  intros Hm Hk w. destruct (Hm w) as (a & out & Hrun).
  destruct (Hk a (set_stdout (stdout w ++ out) w)) as (b & out' & Hrun').
  exists b, (out ++ out'). erewrite bind_ok by done. rewrite Hrun'.
  unfold set_stdout. cbn. by rewrite <- app_assoc.
Qed.

Lemma prints_ret {A} (a : A) : prints (ret a).
Proof. intros w. exists a, []. unfold ret, set_stdout. rewrite app_nil_r. by destruct w. Qed.

Lemma prints_deref (r : ref) : prints (deref r).
Proof.
  intros w. exists (heap w !!! r), []. unfold deref, gets, set_stdout.
  rewrite app_nil_r. by destruct w.
Qed.

Lemma prints_for_each {A} (l : list A) (body : A -> M unit) :
  (forall a, prints (body a)) -> prints (for_each l body).
Proof.
  intros Hbody. induction l as [|a l IH]; cbn [for_each].
  - apply prints_ret.
  - apply prints_bind; [apply Hbody | intros _; apply IH].
Qed.

Lemma display_lines_prints (idx : nat) (l : list ref) : prints (display_lines idx l).
Proof.
  revert idx. induction l as [|r l IH]; intros idx; cbn [display_lines].
  - apply prints_ret.
  - apply prints_bind; [apply prints_deref | intros c].
    apply prints_bind; [apply print_prints | intros _; apply IH].
Qed.

Lemma display_contacts_prints : prints display_contacts.
Proof.
  intros w. unfold display_contacts. erewrite bind_ok by (unfold gets; reflexivity).
  destruct (contacts_list w) as [|r l].
  - apply print_prints.
  - revert w. repeat (apply prints_bind; [try apply print_prints | intros _]);
      [apply display_lines_prints | apply print_prints].
Qed.

Lemma view_audit_log_run (w : World) :
  match audit_log w with
  | Some _ => exists out, view_audit_log w = (Ok tt, set_stdout (stdout w ++ out) w)
  | None => view_audit_log w = (Raised FileNotFoundError, w)
  end.
Proof.
  unfold view_audit_log. erewrite bind_ok by (unfold gets; reflexivity).
  destruct (audit_log w) as [log_file|]; [|reflexivity].
  assert (Hp : prints (print [Txt (NL +:+ BLUE +:+ "--- Audit Log ---" +:+ RESET)] ;;;
                       for_each (lines_of log_file) (fun line =>
                         print ([Txt (" " +:+ BLUE)] ++ strip line ++ [Txt RESET])))).
  { apply prints_bind; [apply print_prints | intros _].
    apply prints_for_each. intros line. apply print_prints. }
  destruct (Hp w) as ([] & out & Hrun). eauto.
Qed.

Lemma reads_ret {A} (a : A) : reads_and_returns (ret a).
Proof. intros w. by exists a. Qed.


Lemma reads_returns_reads {A} (m : M A) : reads_and_returns m -> reads m.
Proof. intros Hm w. destruct (Hm w) as (a & Hrun). eauto. Qed.

Lemma reads_bind {A B} (m : M A) (k : A -> M B) :
  reads m -> (forall a, reads (k a)) -> reads (bind m k).
Proof.
  intros Hm Hk w. destruct (Hm w) as ([a|e] & Hrun).
  - destruct (Hk a w) as (r & Hrun'). exists r. by erewrite bind_ok by done.
  - exists (Raised e). by erewrite bind_raised by done.
Qed.

Lemma deref_reads (r : ref) : reads_and_returns (deref r).
Proof. intros w. by exists (heap w !!! r). Qed.

Section SearchLoop.

Variable re_search : string -> string -> option bool.

Lemma search_reads (pattern s : string) : reads (search re_search pattern s).
Proof. intros w. unfold search. destruct (re_search pattern s); eauto. Qed.

Lemma orelse_reads (a b : M bool) : reads a -> reads b -> reads (orelse a b).
Proof.
  intros Ha Hb. apply reads_bind; [done|]. intros [|]; [|done].
  apply reads_returns_reads, reads_ret.
Qed.

Lemma search_loop_reads search_string start_date end_date (l matches : list ref) :
  reads (search_loop re_search search_string start_date end_date l matches).
Proof.
  revert matches. induction l as [|r l IH]; intros matches; cbn [search_loop].
  - apply reads_returns_reads, reads_ret.
  - apply reads_bind; [apply reads_returns_reads, deref_reads | intros c].
    apply reads_bind; [|intros hit; apply IH].
    repeat apply orelse_reads; apply search_reads.
Qed.

Section Accepted.

Variable search_string : string.
Hypothesis accepted : forall s : string, re_search search_string s <> None.




End Accepted.

(** A search that raises leaves the world as it was; one that returns has
    printed something and logged one line. *)
Lemma search_contacts_run query start_date end_date (w : World) :
  let w' := exec (search_contacts re_search query start_date end_date) w in
  match result (search_contacts re_search query start_date end_date) w with
  | Ok matches =>
      heap w' = heap w /\ contacts_list w' = contacts_list w /\
      audit_log w' =
        logged [Txt ("Searched for contacts with query: " +:+ Str.lower query +:+ ", found ");
                Num (length matches); Txt " matches"] w
  | Raised _ => w' = w
  end.
Proof.
  intros w'. subst w'. unfold exec, result, search_contacts.
  erewrite bind_ok by (unfold gets; reflexivity).
  destruct (search_loop_reads (Str.lower query) start_date end_date (contacts_list w) [] w)
    as ([matches|e] & Hloop).
  - erewrite bind_ok by done.
    erewrite bind_ok by apply print_search_result_run.
    erewrite bind_ok by apply log_operation_run. done.
  - by erewrite bind_raised by done.
Qed.


End SearchLoop.

(** ** PhoneBook.sort_contacts *)

Lemma keys_of_total (key : contact -> option string) (h : list contact) (l : list ref) :
  Forall (fun r => is_Some (key (h !!! r))) l -> is_Some (keys_of key h l).
Proof.
  induction 1 as [|r l [k Hk] _ [keyed IH]]; cbn; [done|].
  rewrite Hk, IH. done.
Qed.

Lemma contacts_list_sort_run (key : contact -> option string) (w : World) :
  match keys_of key (heap w) (contacts_list w) with
  | Some keyed => contacts_list_sort key w = (Ok tt, set_contacts_list (snd <$> sort_by_key keyed) w)
  | None => contacts_list_sort key w = (Raised IndexError, w)
  end.
Proof. unfold contacts_list_sort. by destruct (keys_of _ _ _). Qed.

(** Sorting raises before anything is logged, or logs one line. *)
Lemma sort_contacts_run (sort_type : string) (w : World) :
  let w' := exec (sort_contacts sort_type) w in
  match result (sort_contacts sort_type) w with
  | Ok _ => heap w' = heap w /\ one_more_line w w'
  | Raised _ => w' = w
  end.
Proof.
  intros w'. subst w'. unfold exec, result, sort_contacts.
  destruct (String.eqb sort_type "alphabetical").
  - pose proof (contacts_list_sort_run (fun x => Some (last_name x)) w) as Hsort.
    destruct (keys_of _ _ _).
    + erewrite bind_ok by done. rewrite log_operation_run.
      split; [done|]. by eexists _, _.
    + by erewrite bind_raised by done.
  - destruct (String.eqb sort_type "group").
    + pose proof (contacts_list_sort_run (fun x => Str.first_char (last_name x)) w) as Hsort.
      destruct (keys_of _ _ _).
      * erewrite bind_ok by done. rewrite log_operation_run.
        split; [done|]. by eexists _, _.
      * by erewrite bind_raised by done.
    + erewrite bind_ok by reflexivity. rewrite log_operation_run.
      split; [done|]. by eexists _, _.
Qed.

Lemma first_char_is_Some (s : string) : s <> "" -> is_Some (Str.first_char s).
Proof. destruct s; [done|]. by eexists. Qed.


(** ** Every operation: the audit log and exceptions *)

Lemma add_contact_run (contact : ref) (w : World) :
  add_contact contact w =
  (Ok tt,
   MkWorld (heap w) (contacts_list w ++ [contact])
     (logged [Txt ("Added contact: " +:+ full_name_of (heap w !!! contact))] w)
     (data w) (broken w) (stdout w) (clock w) (S (ticks w))).
Proof. reflexivity. Qed.

Lemma delete_contact_run (full_name : string) (w : World) :
  exists w', delete_contact full_name w = (Ok tt, w') /\ one_more_line w w'.
Proof.
  destruct (first_named_split (heap w) full_name (contacts_list w))
    as [Hl|(l1 & r & l2 & Hl & Hl1 & Hr)].
  - eexists. split; [by apply delete_contact_not_found|]. by eexists _, _.
  - eexists. split; [by eapply delete_contact_found|]. by eexists _, _.
Qed.

Lemma refused_false (phone mail : option string) :
  refused phone mail = false ->
  Str.given phone && negb (is_valid_phone (default "" phone)) = false /\
  Str.given mail && negb (is_valid_email (default "" mail)) = false.
Proof. unfold refused. apply orb_false_iff. Qed.

Lemma update_contact_log contact first last phone mail addr (w : World) :
  let w' := exec (update_contact contact first last phone mail addr) w in
  result (update_contact contact first last phone mail addr) w = Ok tt /\
  if refused phone mail then audit_log w' = audit_log w else one_more_line w w'.
Proof.
  intros w'. subst w'. unfold exec, result. rewrite update_contact_run.
  unfold refused.
  destruct (Str.given phone && _); [done|].
  destruct (Str.given mail && _); [done|].
  split; [done|]. by eexists _, _.
Qed.

(** C2, as stated, fails: listing the contacts writes nothing to the audit
    log, and neither does an update that validation refuses. *)
Lemma audit_log_not_always_written :
  result display_contacts world_ann = Ok tt /\
  ~ one_more_line world_ann (exec display_contacts world_ann) /\
  result (update_contact 0 None None (Some "555-1234") None None) world_ann = Ok tt /\
  ~ one_more_line world_ann
      (exec (update_contact 0 None None (Some "555-1234") None None) world_ann).
Proof.
  split_and!; try reflexivity.
  - intros (t & d & H). cbv in H. discriminate.
  - intros (t & d & H). cbv in H. discriminate.
Qed.

(** A name that exists under [data/] and is no file that can be read makes
    a batch operation stop where it opens it, with nothing changed: the
    empty name and '.' stand for the directory itself.  A name that does
    not exist makes it return at once. *)
Lemma batch_operations_on_directory :
  batch_add_contacts "" world_data_dir = (Raised IsADirectoryError, world_data_dir) /\
  batch_delete_contacts "." world_data_dir = (Raised IsADirectoryError, world_data_dir) /\
  batch_add_contacts "secret.csv" world_data_dir = (Raised PermissionError, world_data_dir) /\
  batch_delete_contacts "nothing.csv" world_data_dir = (Ok tt, world_data_dir).
Proof.
  split_and!.
  - by rewrite batch_add_contacts_missing.
  - by rewrite batch_delete_contacts_missing.
  - by rewrite batch_add_contacts_missing.
  - by rewrite batch_delete_contacts_missing.
Qed.

(** A batch operation returns exactly when the name it is given is absent
    under [data/], or is a file that reads as CSV each of whose records
    after the first has at least three fields. *)
Lemma batch_add_contacts_returns_iff (filename : string) (w : World) :
  result (batch_add_contacts filename) w = Ok tt <->
  (forall csv, data w !! filename = Some csv ->
     Forall (fun row => 3 <= length row) (tail csv)) /\
  (data w !! filename = None -> broken w !! filename = None).
Proof.
  destruct (data w !! filename) as [csv|] eqn:Hf.
  - destruct (batch_add_contacts_exec filename csv w Hf)
      as (objs & _ & _ & _ & _ & -> & _).
    case_bool_decide as Hc; split.
    + intros _. split; [|done]. intros csv' [= <-]. by apply well_formed_prefix_all_inv.
    + done.
    + done.
    + intros [Hrows _]. exfalso. apply Hc. by apply well_formed_prefix_all, Hrows.
  - unfold result. rewrite batch_add_contacts_missing by done. cbn [fst].
    destruct (broken w !! filename) as [e|]; split.
    + done.
    + intros [_ Hopen]. by specialize (Hopen eq_refl).
    + done.
    + done.
Qed.

Lemma batch_delete_contacts_returns_iff (filename : string) (w : World) :
  result (batch_delete_contacts filename) w = Ok tt <->
  (forall csv, data w !! filename = Some csv ->
     Forall (fun row => 3 <= length row) (tail csv)) /\
  (data w !! filename = None -> broken w !! filename = None).
Proof.
  destruct (data w !! filename) as [csv|] eqn:Hf.
  - destruct (batch_delete_contacts_exec filename csv w Hf) as (_ & _ & _ & -> & _).
    case_bool_decide as Hc; split.
    + intros _. split; [|done]. intros csv' [= <-]. by apply well_formed_prefix_all_inv.
    + done.
    + done.
    + intros [Hrows _]. exfalso. apply Hc. by apply well_formed_prefix_all, Hrows.
  - unfold result. rewrite batch_delete_contacts_missing by done. cbn [fst].
    destruct (broken w !! filename) as [e|]; split.
    + done.
    + intros [_ Hopen]. by specialize (Hopen eq_refl).
    + done.
    + done.
Qed.


Section Operations.

Variable re_search : string -> string -> option bool.

(** C2, amended: an operation that returns appends exactly one line
    "{timestamp} - {description}" to the audit log when it is add, delete,
    search, sort, an update that passes validation, or a batch operation
    whose file exists; it leaves the log as it was when it is an update
    that validation refuses, a batch operation whose file is missing,
    render_all or render_audit_log; clear_audit_log leaves the log empty.
    An operation that raises writes nothing. *)
Theorem audit_log_effect (o : operation) (w : World) :
  let w' := exec (run re_search o) w in
  match result (run re_search o) w with
  | Ok _ =>
      match log_effect_of o w with
      | Appends => one_more_line w w'
      | Nothing => audit_log w' = audit_log w
      | Empties => audit_log w' = Some []
      end
  | Raised _ => audit_log w' = audit_log w
  end.
Proof.
  intros w'. subst w'.
  destruct o as [c|full_name|filename|filename|c first last phone mail addr|query start_date end_date|mode| | |];
    cbn [run log_effect_of].
  - unfold exec, result. rewrite add_contact_run. by eexists _, _.
  - destruct (delete_contact_run full_name w) as (w' & Hrun & Hlog).
    unfold exec, result. by rewrite Hrun.
  - destruct (data w !! filename) as [csv|] eqn:Hf.
    + destruct (batch_add_contacts_exec filename csv w Hf)
        as (objs & _ & _ & _ & _ & -> & Hlog).
      revert Hlog. case_bool_decide; intros Hlog; [by eexists _, _ | done].
    + unfold exec, result. rewrite batch_add_contacts_missing by done.
      by destruct (broken w !! filename).
  - destruct (data w !! filename) as [csv|] eqn:Hf.
    + destruct (batch_delete_contacts_exec filename csv w Hf) as (_ & _ & _ & -> & Hlog).
      revert Hlog. case_bool_decide; intros Hlog; [by eexists _, _ | done].
    + unfold exec, result. rewrite batch_delete_contacts_missing by done.
      by destruct (broken w !! filename).
  - destruct (update_contact_log c first last phone mail addr w) as [-> Hlog].
    by destruct (refused phone mail).
  - pose proof (search_contacts_run re_search query start_date end_date w) as Hrun.
    rewrite result_bind, exec_bind.
    destruct (result (search_contacts re_search query start_date end_date) w).
    + destruct Hrun as (_ & _ & Hlog). by eexists _, _.
    + cbn in Hrun. by rewrite Hrun.
  - pose proof (sort_contacts_run mode w) as Hrun.
    destruct (result (sort_contacts mode) w).
    + by destruct Hrun.
    + cbn in Hrun. by rewrite Hrun.
  - destruct (display_contacts_prints w) as ([] & out & Hrun).
    unfold exec, result. by rewrite Hrun.
  - pose proof (view_audit_log_run w) as Hrun. unfold exec, result.
    destruct (audit_log w) eqn:Hlog.
    + destruct Hrun as (out & ->). done.
    + by rewrite Hrun.
  - reflexivity.
Qed.


End Operations.


(** ** References stay valid *)

(** A contact that is constructed and then added, as the menu does it,
    keeps the list of contacts well formed. *)
Lemma wf_init_add first last phone mail addr (w : World) :
  wf w ->
  wf (exec (contact <- Contact.__init__ first last phone mail addr ;; add_contact contact) w).
Proof.
  intros Hwf. unfold exec. erewrite bind_ok by apply Contact_init_run.
  rewrite add_contact_run. unfold wf in *. cbn [snd heap contacts_list].
  rewrite length_app. cbn. apply Forall_app. split.
  - eapply Forall_impl; [done|]. cbn. lia.
  - repeat constructor. lia.
Qed.

Lemma wf_delete_contact (full_name : string) (w : World) :
  wf w -> wf (exec (delete_contact full_name) w).
Proof.
  intros Hwf. unfold exec, wf in *.
  destruct (first_named_split (heap w) full_name (contacts_list w))
    as [Hl|(l1 & r & l2 & Hl & Hl1 & Hr)].
  - by rewrite delete_contact_not_found.
  - erewrite delete_contact_found by done. cbn [snd heap contacts_list].
    rewrite Hl in Hwf. apply Forall_app in Hwf as [H1 H2].
    apply Forall_app. split; [done|]. by inversion H2.
Qed.

(** ** The patterns of the phone number and of the email *)

Lemma append_nil_l (s : string) : "" +:+ s = s.
Proof. reflexivity. Qed.

Lemma append_cons (a : ascii) (s1 s2 : string) : String a s1 +:+ s2 = String a (s1 +:+ s2).
Proof. reflexivity. Qed.

Lemma append_nil_r (s : string) : s +:+ "" = s.
Proof. induction s as [|a s IH]; [done | by rewrite append_cons, IH]. Qed.

Lemma append_assoc (s1 s2 s3 : string) : (s1 +:+ s2) +:+ s3 = s1 +:+ (s2 +:+ s3).
Proof. induction s1 as [|a s1 IH]; [done | by rewrite !append_cons, IH]. Qed.

Lemma append_eq_nil (s1 s2 : string) : s1 +:+ s2 = "" -> s1 = "" /\ s2 = "".
Proof. destruct s1; [done | discriminate]. Qed.

(** How a string that starts with [a] splits in two. *)
Lemma append_eq_cons (s1 s2 s : string) (a : ascii) :
  s1 +:+ s2 = String a s ->
  (s1 = "" /\ s2 = String a s) \/ (exists s1', s1 = String a s1' /\ s = s1' +:+ s2).
Proof.
  destruct s1 as [|b s1]; [by left|]. rewrite append_cons.
  intros [= -> <-]. right. by eexists.
Qed.

Lemma matches_seq_inv (r1 r2 : Re.regex) (s : string) :
  matches (Re.Seq r1 r2) s ->
  exists s1 s2, s = s1 +:+ s2 /\ matches r1 s1 /\ matches r2 s2.
Proof. inversion 1; subst. eauto. Qed.

Lemma nullable_matches (r : Re.regex) : Re.nullable r = true <-> matches r "".
Proof.
  split.
  - induction r; cbn; try discriminate; intros Hn.
    + constructor.
    + apply andb_true_iff in Hn as [H1 H2].
      change "" with ("" +:+ ""). constructor; auto.
    + apply orb_true_iff in Hn as [H|H]; [apply matches_alt_l | apply matches_alt_r]; auto.
    + constructor.
  - remember "" as s eqn:Hs. induction 1; cbn; try discriminate; try done.
    + apply append_eq_nil in Hs as [-> ->]. rewrite IHmatches1, IHmatches2; done.
    + by rewrite IHmatches.
    + rewrite IHmatches; [|done]. apply orb_true_r.
Qed.

(** A repetition that starts with [a] starts with one round that does. *)
Lemma matches_star_cons_inv (r : Re.regex) (a : ascii) (s : string) :
  matches (Re.Star r) (String a s) ->
  exists s1 s2, s = s1 +:+ s2 /\ matches r (String a s1) /\ matches (Re.Star r) s2.
Proof.
  remember (Re.Star r) as r' eqn:Hr. remember (String a s) as s' eqn:Hs.
  intros H. revert Hr Hs.
  induction H as [| | | | | | | |r0 s1 s2 H1 _ H2 IH2]; try discriminate.
  intros [= ->] Hs. apply append_eq_cons in Hs as [[-> ->]|(s1' & -> & ->)].
  - by apply IH2.
  - eauto.
Qed.

Lemma deriv_matches (r : Re.regex) (a : ascii) (s : string) :
  matches (Re.deriv a r) s <-> matches r (String a s).
Proof.
  revert s. induction r as [| |b| | |r1 IH1 r2 IH2|r1 IH1 r2 IH2|r IH]; intros s; cbn.
  - split; inversion 1.
  - split; inversion 1.
  - destruct (Ascii.eqb_spec a b) as [->|Hab]; split; inversion 1; subst; try constructor.
    done.
  - destruct (Ascii.eqb_spec a Re.newline) as [->|Hab]; split; inversion 1; subst;
      try done; by constructor.
  - destruct (Re.is_digit a) eqn:Hd; split; inversion 1; subst; try congruence;
      by constructor.
  - assert (Hleft : forall s, matches (Re.Seq (Re.deriv a r1) r2) s ->
                              matches (Re.Seq r1 r2) (String a s)).
    { intros s0 (s1 & s2 & -> & H1 & H2)%matches_seq_inv.
      apply IH1 in H1. change (String a (s1 +:+ s2)) with (String a s1 +:+ s2).
      by constructor. }
    assert (Hinv : matches (Re.Seq r1 r2) (String a s) ->
                   matches (Re.Seq (Re.deriv a r1) r2) s \/
                   (matches r1 "" /\ matches (Re.deriv a r2) s)).
    { intros (s1 & s2 & Hs & H1 & H2)%matches_seq_inv. symmetry in Hs.
      apply append_eq_cons in Hs as [[-> ->]|(s1' & -> & ->)].
      - right. split; [done|]. by apply IH2.
      - left. constructor; [by apply IH1 | done]. }
    destruct (Re.nullable r1) eqn:Hn.
    + split.
      * inversion 1; subst; [by apply Hleft|].
        change (String a s) with ("" +:+ String a s).
        constructor; [by apply nullable_matches | by apply IH2].
      * intros [H|[_ H]]%Hinv; [by apply matches_alt_l | by apply matches_alt_r].
    + split; [by apply Hleft|].
      intros [H|[H _]]%Hinv; [done|].
      apply nullable_matches in H. congruence.
  - split.
    + inversion 1; subst; [apply matches_alt_l; by apply IH1 | apply matches_alt_r; by apply IH2].
    + inversion 1; subst; [apply matches_alt_l; by apply IH1 | apply matches_alt_r; by apply IH2].
  - split.
    + intros (s1 & s2 & -> & H1 & H2)%matches_seq_inv.
      apply IH in H1. change (String a (s1 +:+ s2)) with (String a s1 +:+ s2).
      by constructor.
    + intros (s1 & s2 & -> & H1 & H2)%matches_star_cons_inv.
      constructor; [by apply IH | done].
Qed.

(** The matcher accepts exactly the strings the pattern denotes. *)
Lemma fullmatch_matches (r : Re.regex) (s : string) :
  Re.fullmatch r s = true <-> matches r s.
Proof.
  revert r. induction s as [|a s IH]; intros r; cbn.
  - apply nullable_matches.
  - rewrite IH. apply deriv_matches.
Qed.

Lemma matches_seq_iff (r1 r2 : Re.regex) (s : string) :
  matches (Re.Seq r1 r2) s <->
  exists s1 s2, s = s1 +:+ s2 /\ matches r1 s1 /\ matches r2 s2.
Proof.
  split; [apply matches_seq_inv|]. intros (s1 & s2 & -> & H1 & H2). by constructor.
Qed.

Lemma matches_lits (t s : string) : matches (Re.lits t) s <-> s = t.
Proof.
  revert s. induction t as [|a t IH]; intros s; cbn.
  - split; [by inversion 1 | intros ->; constructor].
  - rewrite matches_seq_iff. split.
    + intros (s1 & s2 & -> & H1 & H2). inversion H1; subst.
      apply IH in H2 as ->. reflexivity.
    + intros ->. exists (String a ""), t. split_and!; [done | constructor | by apply IH].
Qed.

Lemma matches_rep_digit (n : nat) (s : string) :
  matches (Re.Rep n Re.Digit) s <-> digits n s.
Proof.
  unfold digits. revert s. induction n as [|n IH]; intros s; cbn.
  - split.
    + by inversion 1.
    + intros [Hlen _]. destruct s; [constructor | discriminate].
  - rewrite matches_seq_iff. split.
    + intros (s1 & s2 & -> & H1 & H2). inversion H1; subst.
      apply IH in H2 as [<- Hd]. rewrite append_cons, append_nil_l. cbn.
      split; [done|]. by apply andb_true_iff.
    + intros [Hlen Hd]. destruct s as [|a s]; [discriminate|].
      cbn in Hlen, Hd. apply andb_true_iff in Hd as [Ha Hd].
      exists (String a ""), s. split_and!; [done | by constructor |].
      apply IH. split; [lia | done].
Qed.

Lemma matches_star_dot (s : string) :
  matches (Re.Star Re.Dot) s <->
  all_chars (fun a => negb (Ascii.eqb a Re.newline)) s = true.
Proof.
  split.
  - remember (Re.Star Re.Dot) as r eqn:Hr. intros H. revert Hr.
    induction H as [| | | | | | | |r0 s1 s2 H1 _ H2 IH2]; try discriminate; [done|].
    intros [= ->]. inversion H1; subst. rewrite append_cons, append_nil_l. cbn.
    apply andb_true_iff. split; [|by apply IH2].
    apply negb_true_iff. by apply Ascii.eqb_neq.
  - induction s as [|a s IH]; cbn; [constructor|].
    intros [Ha Hs]%andb_true_iff.
    change (String a s) with (String a "" +:+ s).
    constructor; [|by apply IH]. constructor.
    by apply Ascii.eqb_neq, negb_true_iff.
Qed.

Lemma matches_plus_dot (s : string) : matches (Re.Plus Re.Dot) s <-> one_line s.
Proof.
  unfold Re.Plus, one_line. rewrite matches_seq_iff. split.
  - intros (s1 & s2 & -> & H1 & H2). inversion H1; subst.
    rewrite append_cons, append_nil_l. split; [done|]. cbn.
    apply andb_true_iff. split; [|by apply matches_star_dot].
    apply negb_true_iff. by apply Ascii.eqb_neq.
  - intros [Hne Hs]. destruct s as [|a s]; [done|].
    cbn in Hs. apply andb_true_iff in Hs as [Ha Hs].
    exists (String a ""), s. split_and!; [done| |by apply matches_star_dot].
    constructor. by apply Ascii.eqb_neq, negb_true_iff.
Qed.

Lemma fullmatch_phone_pattern (phone : string) :
  Re.fullmatch Re.phone_pattern phone = true <-> phone_shape phone.
Proof.
  unfold Re.phone_pattern, phone_shape. rewrite fullmatch_matches.
  split.
  - intros H.
    apply matches_seq_iff in H as (s1 & s2 & -> & ->%matches_lits & H).
    apply matches_seq_iff in H as (a & s3 & -> & Ha%matches_rep_digit & H).
    apply matches_seq_iff in H as (s4 & s5 & -> & ->%matches_lits & H).
    apply matches_seq_iff in H as (b & s6 & -> & Hb%matches_rep_digit & H).
    apply matches_seq_iff in H as (s7 & c & -> & ->%matches_lits & Hc%matches_rep_digit).
    by exists a, b, c.
  - intros (a & b & c & -> & Ha & Hb & Hc).
    constructor; [by apply matches_lits|].
    constructor; [by apply matches_rep_digit|].
    constructor; [by apply matches_lits|].
    constructor; [by apply matches_rep_digit|].
    constructor; [by apply matches_lits | by apply matches_rep_digit].
Qed.

(** X1: among the strings of code points below U+0100, on which [\d]
    matches the ten digits '0' to '9' and nothing else, a phone number
    passes the check of the phone book exactly when it is an opening
    parenthesis, three digits, a closing parenthesis and a space, three
    digits, a hyphen and four digits; and so it is for the check of the
    menu.  (Beyond these code points [\d] also matches the decimal digits
    of other scripts: of numbers written with them nothing is said.) *)
Theorem is_valid_phone_shape (phone : string) :
  (is_valid_phone phone = true <-> phone_shape phone) /\
  (Main.is_valid_phone phone = true <-> phone_shape phone).
Proof. split; apply fullmatch_phone_pattern. Qed.

Lemma is_valid_email_iff (email : string) :
  is_valid_email email = true <->
  email = "" \/
  exists a b c : string,
    email = a +:+ "@" +:+ b +:+ "." +:+ c /\ one_line a /\ one_line b /\ one_line c.
Proof.
  unfold is_valid_email, Re.email_pattern.
  rewrite orb_true_iff, fullmatch_matches.
  split.
  - intros [H|He]; [right | left; by destruct email].
    apply matches_seq_iff in H as (a & s2 & -> & Ha%matches_plus_dot & H).
    apply matches_seq_iff in H as (s3 & s4 & -> & ->%matches_lits & H).
    apply matches_seq_iff in H as (b & s5 & -> & Hb%matches_plus_dot & H).
    apply matches_seq_iff in H as (s6 & c & -> & ->%matches_lits & Hc%matches_plus_dot).
    by exists a, b, c.
  - intros [->|(a & b & c & -> & Ha & Hb & Hc)]; [by right|]. left.
    constructor; [by apply matches_plus_dot|].
    constructor; [by apply matches_lits|].
    constructor; [by apply matches_plus_dot|].
    constructor; [by apply matches_lits | by apply matches_plus_dot].
Qed.

(** X2: an email passes the check of [update_contact] exactly when it is
    empty or made of three pieces without line break, none of them empty,
    with an at sign after the first and a dot after the second. *)
Theorem is_valid_email_shape (email : string) :
  is_valid_email email = true <->
  email = "" \/
  exists a b c : string,
    email = a +:+ "@" +:+ b +:+ "." +:+ c /\ one_line a /\ one_line b /\ one_line c.
Proof. apply is_valid_email_iff. Qed.

(** X3: the menu asks for an address that ends in ".com", so every email
    the menu accepts is one [update_contact] accepts. *)
Theorem menu_email_accepted_by_update (email : string) :
  Main.is_valid_email email = true -> is_valid_email email = true.
Proof.
  intros Hm. apply is_valid_email_iff.
  unfold Main.is_valid_email, Main.email_pattern in Hm.
  apply orb_true_iff in Hm as [Hm|Hm]; [|left; by destruct email].
  apply fullmatch_matches in Hm.
  apply matches_seq_iff in Hm as (a & s2 & -> & Ha & Hm).
  apply matches_seq_iff in Hm as (s3 & s4 & -> & ->%matches_lits & Hm).
  apply matches_seq_iff in Hm as (b & s5 & -> & Hb & ->%matches_lits).
  right. exists a, b, "com". split_and!; [done| | |done].
  - by apply matches_plus_dot.
  - by apply matches_plus_dot.
Qed.

Lemma menu_email_accepted_by_update_witness : is_valid_email "ann@lee.com" = true.
Proof. apply (menu_email_accepted_by_update "ann@lee.com"). reflexivity. Defined.

(** ** The history Contact.update keeps *)

Lemma Contact_update_run_effect self first last phone mail addr (w : World) :
  self < length (heap w) ->
  let c := heap w !!! self in
  let w' := exec (Contact.update self first last phone mail addr) w in
  let c' := heap w' !!! self in
  result (Contact.update self first last phone mail addr) w = Ok tt /\
  values_of c' = values_of (assigned c first last phone mail addr) /\
  time_updated c' = replace_microsecond_0 (clock w (ticks w)) /\
  update_history c' =
    update_history c ++ [Change (time_updated c') (values_of c) (values_of c')] /\
  time_created c' = time_created c /\
  (forall r : ref, r <> self -> heap w' !! r = heap w !! r) /\
  contacts_list w' = contacts_list w /\
  audit_log w' = audit_log w /\
  stdout w' = stdout w.
Proof.
  intros Hlt c w' c'. subst c' w'. unfold exec, result.
  rewrite Contact_update_run. cbn [fst snd heap contacts_list audit_log stdout].
  rewrite list_lookup_total_insert_eq by done. cbn.
  split_and!; try done.
  intros r Hr. by rewrite list_lookup_insert_ne.
Qed.

(** X4: one call of [Contact.update] on an existing contact returns, gives
    the contact the fields [update_contact] would assign, stamps it with
    the time of the call and appends one entry to its history, holding that
    time, the fields before and the fields after.  The time of creation,
    every other object, the list of contacts, the audit log and the console
    are as before. *)
Theorem Contact_update_effect self first last phone mail addr (w : World) :
  self < length (heap w) ->
  let c := heap w !!! self in
  let w' := exec (Contact.update self first last phone mail addr) w in
  let c' := heap w' !!! self in
  result (Contact.update self first last phone mail addr) w = Ok tt /\
  values_of c' = values_of (assigned c first last phone mail addr) /\
  time_updated c' = replace_microsecond_0 (clock w (ticks w)) /\
  update_history c' =
    update_history c ++ [Change (time_updated c') (values_of c) (values_of c')] /\
  time_created c' = time_created c /\
  (forall r : ref, r <> self -> heap w' !! r = heap w !! r) /\
  contacts_list w' = contacts_list w /\
  audit_log w' = audit_log w /\
  stdout w' = stdout w.
Proof. apply Contact_update_run_effect. Qed.

Lemma Contact_update_effect_witness :
  update_history (heap (exec (Contact.update 0 (Some "Bob") None None None None) world_ann) !!! 0)
  = [Change 5000000%Z (values_of ann) (Values "Bob" "Lee" "(613) 555-0100" None None)].
Proof.
  destruct (Contact_update_effect 0 (Some "Bob") None None None None world_ann)
    as (_ & _ & _ & Hh & _); [cbn; lia|]. exact Hh.
Defined.

Lemma Contact_update_consistent self first last phone mail addr (w : World) :
  self < length (heap w) ->
  history_consistent (heap w !!! self) ->
  let c' := heap (exec (Contact.update self first last phone mail addr) w) !!! self in
  history_consistent c' /\
  length (update_history c') = S (length (update_history (heap w !!! self))).
Proof.
  intros Hlt [Hchain Hlast] c'.
  destruct (Contact_update_run_effect self first last phone mail addr w Hlt)
    as (_ & _ & _ & Hh & _). fold c' in Hh.
  split; [split|].
  - intros i e1 e2 H1 H2. rewrite Hh in H1, H2.
    destruct (decide (S i < length (update_history (heap w !!! self)))) as [Hi|Hi].
    + rewrite lookup_app_l in H1, H2 by lia. eauto.
    + assert (Hlen : S i = length (update_history (heap w !!! self))).
      { apply lookup_lt_Some in H2. rewrite length_app in H2. cbn in H2. lia. }
      rewrite lookup_app_l in H1 by lia.
      rewrite lookup_app_r in H2 by lia.
      replace (S i - length (update_history (heap w !!! self))) with 0 in H2 by lia.
      injection H2 as <-. cbn.
      symmetry. apply Hlast. rewrite last_lookup, <- Hlen. exact H1.
  - intros e He. rewrite Hh, last_snoc in He. by injection He as <-.
  - rewrite Hh, length_app. cbn. lia.
Qed.

Lemma Contact_update_with_length (self : ref) (args : update_args) (w : World) :
  length (heap (exec (Contact_update_with self args) w)) = length (heap w).
Proof.
  destruct args as [[[[first last] phone] mail] addr]. unfold exec. cbn.
  by rewrite length_insert.
Qed.

(** X5: a contact whose history is consistent keeps a consistent history
    through any sequence of calls of [Contact.update], and the history
    grows by one entry per call. *)
Theorem Contact_updates_history (self : ref) (calls : list update_args) (w : World) :
  self < length (heap w) ->
  history_consistent (heap w !!! self) ->
  let w' := exec (for_each calls (Contact_update_with self)) w in
  result (for_each calls (Contact_update_with self)) w = Ok tt /\
  history_consistent (heap w' !!! self) /\
  length (update_history (heap w' !!! self)) =
    length (update_history (heap w !!! self)) + length calls.
Proof.
  revert w. induction calls as [|args calls IH]; intros w Hlt Hc.
  - cbn. split_and!; [done..|lia].
  - cbn [for_each]. unfold exec, result.
    pose proof (Contact_update_with_length self args w) as Hlen.
    destruct args as [[[[first last] phone] mail] addr].
    destruct (Contact_update_consistent self first last phone mail addr w Hlt Hc) as [Hc' Hn].
    erewrite bind_ok; last first.
    { unfold Contact_update_with. rewrite (run_eq (Contact.update _ _ _ _ _ _)).
      by rewrite (proj1 (Contact_update_run_effect self first last phone mail addr w Hlt)). }
    unfold Contact_update_with in Hlen.
    destruct (IH (exec (Contact.update self first last phone mail addr) w)) as (Hr & Hc'' & Hn').
    { by rewrite Hlen. }
    { done. }
    unfold exec, result in *. split_and!; [done..|].
    rewrite Hn', Hn. cbn [length]. lia.
Qed.

Lemma Contact_updates_history_witness :
  length (update_history
            (heap (exec (for_each [(Some "Bob", None, None, None, None);
                                   (None, None, None, None, Some "1 Main St")]
                           (Contact_update_with 0)) world_ann) !!! 0)) = 2.
Proof.
  refine (proj2 (proj2 (Contact_updates_history 0
            [(Some "Bob", None, None, None, None); (None, None, None, None, Some "1 Main St")]
            world_ann _ _))).
  - cbn. lia.
  - split; [intros i e1 e2 H; destruct i; discriminate | intros e H; discriminate].
Defined.

(** A contact just constructed has a consistent history. *)
Lemma created_consistent first last phone mail addr (w : World) :
  history_consistent (created first last phone mail addr w).
Proof.
  rewrite created_eq. split; cbn.
  - intros i e1 e2 H. by rewrite lookup_nil in H.
  - intros e H. discriminate.
Qed.

(** X6: a call of [Contact.update] in which no argument is given (each is
    None or empty) changes none of the five fields, and still appends an
    entry to the history, whose old and new values are the same. *)
Theorem Contact_update_touch (self : ref) (args : update_args) (w : World) :
  self < length (heap w) ->
  nothing_given args ->
  let c := heap w !!! self in
  let c' := heap (exec (Contact_update_with self args) w) !!! self in
  values_of c' = values_of c /\
  exists t, update_history c' = update_history c ++ [Change t (values_of c) (values_of c)].
Proof.
  destruct args as [[[[first last] phone] mail] addr].
  intros Hlt (Hf & Hl & Hp & Hm & Ha) c c'. subst c'. unfold Contact_update_with.
  destruct (Contact_update_run_effect self first last phone mail addr w Hlt)
    as (_ & Hv & _ & Hh & _). fold c in Hv, Hh.
  assert (Hsame : values_of (assigned c first last phone mail addr) = values_of c).
  { unfold assigned, values_of. cbn. by rewrite Hf, Hl, Hp, Hm, Ha. }
  rewrite Hsame in Hv. split; [done|]. rewrite Hh, Hv. by eexists.
Qed.

Lemma Contact_update_touch_witness :
  values_of (heap (exec (Contact_update_with 0 (None, Some "", None, None, None)) world_ann) !!! 0)
  = values_of ann.
Proof.
  refine (proj1 (Contact_update_touch 0 (None, Some "", None, None, None) world_ann _ _)).
  - cbn. lia.
  - repeat split.
Defined.

(** ** Equality of contacts *)

(** X7: [==] on contacts is an equivalence, and two contacts are equal
    exactly when their five fields are: the times and the history play no
    part. *)
Theorem Contact_eq_equivalence :
  (forall a : contact, Contact.__eq__ a a = true) /\
  (forall a b : contact, Contact.__eq__ a b = Contact.__eq__ b a) /\
  (forall a b c : contact,
     Contact.__eq__ a b = true -> Contact.__eq__ b c = true -> Contact.__eq__ a c = true) /\
  (forall a b : contact,
     Contact.__eq__ a b = true <->
     first_name a = first_name b /\ last_name a = last_name b /\
     phone_number a = phone_number b /\ email a = email b /\ address a = address b).
Proof.
  unfold Contact.__eq__. split_and!.
  - intros a. by apply bool_decide_eq_true.
  - intros a b. apply bool_decide_ext. split; congruence.
  - intros a b c Hab%bool_decide_eq_true Hbc%bool_decide_eq_true.
    apply bool_decide_eq_true. congruence.
  - intros a b. rewrite bool_decide_eq_true. unfold values_of. split.
    + intros [= -> -> -> -> ->]. done.
    + intros (-> & -> & -> & -> & ->). done.
Qed.

Lemma Contact_eq_equivalence_witness :
  Contact.__eq__ ann (heap (exec (Contact.update 0 None None None None None) world_ann) !!! 0)
  = true.
Proof.
  destruct Contact_eq_equivalence as (_ & _ & _ & Hfields).
  apply Hfields. repeat split.
Defined.

(** ** Contact.view_update_history *)

Lemma print_changes_run (h : list change) (w : World) :
  for_each h (fun u =>
    print [Txt "Updated on "; Date (ch_time_updated u); Txt ":"] ;;;
    print [Txt "  Old values: "; Dict (old_values u)] ;;;
    print [Txt "  New values: "; Dict (new_values u)]) w =
  (Ok tt,
   set_stdout
     (stdout w ++
      concat ((fun u => [[Txt "Updated on "; Date (ch_time_updated u); Txt ":"];
                         [Txt "  Old values: "; Dict (old_values u)];
                         [Txt "  New values: "; Dict (new_values u)]]) <$> h)) w).
Proof.
  revert w. induction h as [|u h IH]; intros w.
  - cbn. rewrite app_nil_r. by destruct w.
  - cbn [for_each]. erewrite bind_ok by reflexivity. rewrite IH.
    unfold set_stdout. cbn. by rewrite <- !app_assoc.
Qed.

Lemma length_concat_three {A B} (f : A -> list B) (l : list A) :
  (forall a, length (f a) = 3) -> length (concat (f <$> l)) = 3 * length l.
Proof.
  intros Hf. induction l as [|a l IH]; [done|].
  cbn. rewrite length_app, Hf, IH. lia.
Qed.

(** X8: showing the history of a contact changes nothing but the console:
    it prints a title and then one line saying there are no updates, or
    three lines for each entry of the history. *)
Theorem view_update_history_prints (self : ref) (w : World) :
  exists out : list text,
    Contact.view_update_history self w = (Ok tt, set_stdout (stdout w ++ out) w) /\
    length out =
      match update_history (heap w !!! self) with
      | [] => 2
      | h => 1 + 3 * length h
      end.
Proof.
  unfold Contact.view_update_history.
  erewrite bind_ok by (unfold deref, gets; reflexivity).
  erewrite bind_ok by reflexivity.
  destruct (update_history (heap w !!! self)) as [|u h] eqn:Hh.
  - eexists [_; _]. split; [|reflexivity].
    unfold print, modify, set_stdout. cbn. by rewrite <- app_assoc.
  - rewrite print_changes_run. eexists (_ :: _). split.
    + unfold set_stdout. cbn. rewrite <- app_assoc. reflexivity.
    + cbn [length]. rewrite length_concat_three by done. cbn [length]. lia.
Qed.

(** ** What update_contact keeps *)

(** The object an update leaves behind: the one there was, or, when the
    checks pass, the one with the five assignments made. *)
Lemma update_contact_object contact first last phone mail addr (w : World) :
  let c := heap w !!! contact in
  let c' := heap (exec (update_contact contact first last phone mail addr) w) !!! contact in
  c' = c \/ (refused phone mail = false /\ c' = assigned c first last phone mail addr).
Proof.
  intros c c'. subst c c'. unfold exec. rewrite update_contact_run. unfold refused.
  destruct (Str.given phone && _); [by left|].
  destruct (Str.given mail && _); [by left|]. cbn [snd heap orb].
  destruct (decide (contact < length (heap w))) as [Hlt|Hge].
  - right. by rewrite list_lookup_total_insert_eq.
  - left. by rewrite list_insert_ge by lia.
Qed.

Lemma given_default (o : option string) : Str.given o = true -> default "" o <> "".
Proof. intros (s & -> & Hs)%given_true. done. Qed.

(** X9: a contact whose phone number and email have the checked formats
    still has them after any call of [update_contact], accepted or
    refused. *)
Theorem update_contact_keeps_formats contact first last phone mail addr (w : World) :
  well_formatted (heap w !!! contact) ->
  well_formatted (heap (exec (update_contact contact first last phone mail addr) w) !!! contact).
Proof.
  intros [Hp He].
  destruct (update_contact_object contact first last phone mail addr w) as [->|[Hr ->]];
    [done|].
  apply refused_false in Hr as [Hrp Hrm]. split.
  - cbn. destruct (Str.given phone); [|done].
    cbn in Hrp. by apply negb_false_iff in Hrp.
  - cbn. intros e. destruct (Str.given mail) eqn:Hm; [|by apply He].
    cbn in Hrm. apply negb_false_iff in Hrm. intros ->. done.
Qed.

Lemma update_contact_keeps_formats_witness :
  well_formatted
    (heap (exec (update_contact 0 None None (Some "(613) 555-0199") (Some "ann@lee.org") None)
             world_ann) !!! 0).
Proof.
  apply (update_contact_keeps_formats 0 None None (Some "(613) 555-0199") (Some "ann@lee.org")
           None world_ann).
  split; [reflexivity | intros e H; discriminate].
Defined.

(** X10: no call of [update_contact] empties a field: a name or phone
    number that is not empty stays so, and an email or address that is set
    stays set. *)
Theorem update_contact_never_clears contact first last phone mail addr (w : World) :
  let c := heap w !!! contact in
  let c' := heap (exec (update_contact contact first last phone mail addr) w) !!! contact in
  (first_name c <> "" -> first_name c' <> "") /\
  (last_name c <> "" -> last_name c' <> "") /\
  (phone_number c <> "" -> phone_number c' <> "") /\
  (Str.given (email c) = true -> Str.given (email c') = true) /\
  (Str.given (address c) = true -> Str.given (address c') = true).
Proof.
  intros c c'. subst c c'.
  destruct (update_contact_object contact first last phone mail addr w) as [->|[_ ->]];
    [done|].
  cbn. split_and!.
  - destruct (Str.given first) eqn:H; [intros _; by apply given_default | done].
  - destruct (Str.given last) eqn:H; [intros _; by apply given_default | done].
  - destruct (Str.given phone) eqn:H; [intros _; by apply given_default | done].
  - by destruct (Str.given mail) eqn:H.
  - by destruct (Str.given addr) eqn:H.
Qed.

Lemma update_contact_never_clears_witness :
  first_name (heap (exec (update_contact 0 (Some "") None None None None) world_ann) !!! 0) <> "".
Proof.
  refine (proj1 (update_contact_never_clears 0 (Some "") None None None None world_ann) _).
  discriminate.
Defined.

(** X11: an update that passes the checks leaves an existing contact with
    the five fields [Contact.update] would give it with the same
    arguments; the two differ in the history and the time of update, which
    only [Contact.update] records. *)
Theorem update_contact_fields_as_Contact_update contact first last phone mail addr (w : World) :
  contact < length (heap w) ->
  refused phone mail = false ->
  let c1 := heap (exec (update_contact contact first last phone mail addr) w) !!! contact in
  let c2 := heap (exec (Contact.update contact first last phone mail addr) w) !!! contact in
  values_of c1 = values_of c2 /\
  time_created c1 = time_created c2 /\
  update_history c2 = update_history c1 ++ [Change (time_updated c2) (values_of (heap w !!! contact)) (values_of c2)].
Proof.
  intros Hlt Hr c1 c2. subst c1 c2.
  destruct (Contact_update_run_effect contact first last phone mail addr w Hlt)
    as (_ & Hv & _ & Hh & Ht & _).
  apply refused_false in Hr as [Hrp Hrm].
  assert (Hc1 : heap (exec (update_contact contact first last phone mail addr) w) !!! contact
                = assigned (heap w !!! contact) first last phone mail addr).
  { unfold exec. rewrite update_contact_run, Hrp, Hrm. cbn [snd heap].
    by rewrite list_lookup_total_insert_eq. }
  rewrite Hc1. split_and!; [by rewrite Hv | by rewrite Ht | exact Hh].
Qed.

Lemma update_contact_fields_as_Contact_update_witness :
  values_of (heap (exec (update_contact 0 (Some "Bob") None None None None) world_ann) !!! 0)
  = values_of (heap (exec (Contact.update 0 (Some "Bob") None None None None) world_ann) !!! 0).
Proof.
  refine (proj1 (update_contact_fields_as_Contact_update 0 (Some "Bob") None None None None
                   world_ann _ _)).
  - cbn. lia.
  - reflexivity.
Defined.

(** ** Adding and deleting again *)

(** X12: deleting by name a contact that was just added takes that contact
    out again when no contact of the list had its name, and otherwise takes
    out the first contact that had the name and leaves the new one at the
    end. *)
Theorem add_then_delete (contact : ref) (w : World) :
  let name := full_name_of (heap w !!! contact) in
  let w' := exec (delete_contact name) (exec (add_contact contact) w) in
  (Forall (fun y => ~ named (heap w) name y) (contacts_list w) ->
   contacts_list w' = contacts_list w) /\
  (forall (l1 l2 : list ref) (r : ref),
     contacts_list w = l1 ++ r :: l2 ->
     Forall (fun y => ~ named (heap w) name y) l1 ->
     named (heap w) name r ->
     contacts_list w' = l1 ++ l2 ++ [contact]).
Proof.
  intros name w'. subst w'. unfold exec at 2 4. rewrite add_contact_run. cbn [snd].
  split.
  - intros Hl. unfold exec.
    erewrite (delete_contact_found name _ (contacts_list w) [] contact); [|done..].
    cbn. by rewrite app_nil_r.
  - intros l1 l2 r Hl Hl1 Hr. unfold exec.
    erewrite (delete_contact_found name _ l1 (l2 ++ [contact]) r); [done| |done..].
    cbn. rewrite Hl. by rewrite <- app_assoc.
Qed.

Lemma add_then_delete_witness :
  contacts_list (exec (delete_contact "Ann Lee") (exec (add_contact 0) world_ann)) = [0].
Proof.
  refine (proj2 (add_then_delete 0 world_ann) [] [] 0 _ _ _).
  - reflexivity.
  - constructor.
  - reflexivity.
Defined.

(** ** More on the batch operations *)

Lemma well_formed_prefix_Forall (P : list string -> Prop) (rows : list (list string)) :
  Forall P rows -> Forall P (well_formed_prefix rows).
Proof.
  induction 1 as [|row rows Hrow _ IH]; cbn; [done|].
  case_decide; by constructor.
Qed.

(** [list.remove] passes over the contacts that differ from its argument
    and takes out the first that is equal to it. *)
Lemma remove_first_middle (h : list contact) (x n : ref) (l news : list ref) :
  Forall (fun y => y <> x /\ values_of (h !!! y) <> values_of (h !!! x)) l ->
  values_of (h !!! n) = values_of (h !!! x) ->
  remove_first h x (l ++ n :: news) = Some (l ++ news).
Proof.
  intros Hl Hn. induction Hl as [|y l [Hy Hv] _ IH]; cbn.
  - unfold Contact.__eq__. rewrite bool_decide_eq_true_2 by done.
    by rewrite orb_true_r.
  - destruct (Nat.eqb_spec y x) as [?|_]; [done|].
    unfold Contact.__eq__ at 1. rewrite bool_decide_eq_false_2 by done. cbn.
    by rewrite IH.
Qed.

Lemma batch_delete_loop_exact (rows : list (list string)) (l news : list ref) (w : World) :
  wf w ->
  contacts_list w = l ++ news ->
  vals (heap w) news = values_of_row <$> well_formed_prefix rows ->
  Forall (fun row => values_of_row row ∉ vals (heap w) l) (well_formed_prefix rows) ->
  contacts_list (exec (for_each rows batch_delete_row) w) = l.
Proof.
  revert news w. induction rows as [|row rows IH]; intros news w Hwf Hl Hnews Hfresh.
  - cbn in *. apply fmap_nil_inv in Hnews as ->. by rewrite app_nil_r in Hl.
  - cbn [for_each well_formed_prefix] in *. unfold exec.
    destruct (decide (3 <= length row)) as [Hrow|Hrow].
    + destruct news as [|n news]; [done|].
      assert (Hn : values_of (heap w !!! n) = values_of_row row).
      { apply (f_equal head) in Hnews. cbn in Hnews. by apply (inj Some) in Hnews. }
      apply (f_equal tail) in Hnews. cbn [tail fmap list_fmap] in Hnews.
      change (vals (heap w) news = values_of_row <$> well_formed_prefix rows) in Hnews.
      apply Forall_cons in Hfresh as [Hfresh1 Hfresh].
      assert (Hwfl : Forall (fun r => r < length (heap w)) l /\ n < length (heap w) /\
                     Forall (fun r => r < length (heap w)) news).
      { unfold wf in Hwf. rewrite Hl in Hwf. apply Forall_app in Hwf as [Ha Hb].
        by apply Forall_cons in Hb as [Hb Hc]. }
      destruct Hwfl as (Hwfl & Hwfn & Hwfnews).
      erewrite bind_ok by by apply batch_delete_row_ok.
      rewrite Hl.
      rewrite (remove_first_middle _ _ n l news); last first.
      { rewrite lookup_total_app_l by done.
        by rewrite list_lookup_total_middle, values_of_contact_at. }
      { rewrite list_lookup_total_middle, values_of_contact_at by done.
        apply Forall_forall. intros y Hy.
        pose proof (proj1 (Forall_forall _ _) Hwfl y Hy) as Hylt. cbn in Hylt.
        split; [lia|]. rewrite lookup_total_app_l by done.
        intros Heq. apply Hfresh1. unfold vals. rewrite <- Heq.
        by apply (list_elem_of_fmap_2 (fun r => values_of (heap w !!! r))). }
      cbn [default]. apply (IH news).
      * unfold wf. cbn [heap contacts_list]. rewrite length_app. cbn.
        apply Forall_app. split; (eapply Forall_impl; [done|]); cbn; lia.
      * reflexivity.
      * cbn [heap]. by rewrite vals_app_heap.
      * cbn [heap]. by rewrite vals_app_heap.
    + apply fmap_nil_inv in Hnews as ->. rewrite app_nil_r in Hl.
      by erewrite bind_raised by by apply batch_delete_row_short.
Qed.

(** X13: when no record of the file has the five fields of a contact
    already in the list, importing the file and deleting it at once leaves
    the list of contacts exactly as it was: the contacts taken out are the
    imported ones. *)
Theorem batch_add_then_delete_restores (filename : string) (w : World) :
  wf w ->
  (forall csv, data w !! filename = Some csv ->
     Forall (fun row => values_of_row row ∉ vals (heap w) (contacts_list w)) (tail csv)) ->
  contacts_list (exec (batch_delete_contacts filename) (exec (batch_add_contacts filename) w))
  = contacts_list w.
Proof.
  intros Hwf Hfresh. destruct (data w !! filename) as [csv|] eqn:Hf.
  - destruct (batch_add_contacts_exec filename csv w Hf)
      as (objs & Hh & Hl & Hvals & Hd & _ & _).
    set (w1 := exec (batch_add_contacts filename) w) in *.
    assert (Hf1 : data w1 !! filename = Some csv) by by rewrite Hd.
    destruct (batch_delete_contacts_exec filename csv w1 Hf1) as (_ & -> & _).
    apply (batch_delete_loop_exact _ _ (seq (length (heap w)) (length objs))).
    + unfold wf in *. rewrite Hl, Hh, length_app. apply Forall_app. split.
      * eapply Forall_impl; [done|]. cbn. lia.
      * apply Forall_seq. lia.
    + done.
    + by rewrite Hh, vals_new_objects.
    + rewrite Hh, vals_app_heap by done.
      by apply well_formed_prefix_Forall, Hfresh.
  - unfold exec. rewrite (batch_add_contacts_missing _ _ Hf). cbn [snd].
    by rewrite (batch_delete_contacts_missing _ _ Hf).
Qed.

Lemma batch_add_then_delete_restores_witness :
  contacts_list (exec (batch_delete_contacts "people.csv")
                   (exec (batch_add_contacts "people.csv") world_ann_file)) = [0].
Proof.
  apply (batch_add_then_delete_restores "people.csv" world_ann_file).
  - repeat constructor.
  - intros csv Hcsv. vm_compute in Hcsv. injection Hcsv as <-.
    repeat constructor. intros Hin%list_elem_of_singleton. discriminate.
Defined.

Lemma remove_first_sublist (h : list contact) (x : ref) (l l' : list ref) :
  remove_first h x l = Some l' -> l' `sublist_of` l.
Proof.
  revert l'. induction l as [|y l IH]; intros l'; cbn; [done|].
  destruct (Nat.eqb y x || Contact.__eq__ (h !!! y) (h !!! x)).
  - intros [= <-]. by apply sublist_cons.
  - destruct (remove_first h x l) as [k|]; [|done]. intros [= <-].
    apply sublist_skip. by apply IH.
Qed.

(** The loop of [batch_delete_contacts]: what it leaves of the list, of the
    store and on the console. *)
Lemma batch_delete_loop_account (rows : list (list string)) (w : World) :
  let w' := exec (for_each rows batch_delete_row) w in
  exists (objs : list contact) (errs : list text),
    heap w' = heap w ++ objs /\
    stdout w' = stdout w ++ errs /\
    contacts_list w' `sublist_of` contacts_list w /\
    length (contacts_list w') + length (well_formed_prefix rows)
      = length (contacts_list w) + length errs.
Proof.
  revert w. induction rows as [|row rows IH]; intros w; cbn zeta.
  - exists [], []. cbn. by rewrite !app_nil_r, Nat.add_0_r.
  - cbn [for_each well_formed_prefix]. unfold exec.
    destruct (decide (3 <= length row)) as [Hrow|Hrow].
    + erewrite bind_ok by by apply batch_delete_row_ok.
      match goal with |- context [for_each rows batch_delete_row ?w1] =>
        destruct (IH w1) as (objs & errs & Hh & Hs & Hsub & Hlen) end.
      unfold exec in *. cbn [heap contacts_list stdout] in *.
      destruct (remove_first _ _ _) as [l'|] eqn:Hrem;
        cbn [default from_option] in *; unfold id in *.
      * exists (contact_at row w :: objs), errs. split_and!.
        -- by rewrite Hh, <- app_assoc.
        -- done.
        -- etrans; [done|]. by eapply remove_first_sublist.
        -- destruct (remove_first_Some _ _ _ _ Hrem) as (_ & Hl & _).
           cbn [length]. lia.
      * eexists (contact_at row w :: objs), (_ :: errs). split_and!.
        -- by rewrite Hh, <- app_assoc.
        -- rewrite Hs, <- app_assoc. reflexivity.
        -- done.
        -- cbn [length]. lia.
    + erewrite bind_raised by by apply batch_delete_row_short.
      exists [], []. cbn. by rewrite !app_nil_r, Nat.add_0_r.
Qed.

(** X14: whatever name it is given, and whether it returns or stops with
    an exception, [batch_delete_contacts] only takes contacts out: the list
    it leaves is the list it found with some elements removed, in the same
    order, and the objects that existed are untouched.  On a file that reads
    as CSV the call returns or stops with an IndexError at a short record:
    the ValueError of [list.remove] is caught for every record. *)
Theorem batch_delete_contacts_only_removes (filename : string) (w : World) :
  let w' := exec (batch_delete_contacts filename) w in
  contacts_list w' `sublist_of` contacts_list w /\
  (forall r : ref, r < length (heap w) -> heap w' !! r = heap w !! r) /\
  (forall csv, data w !! filename = Some csv ->
     result (batch_delete_contacts filename) w = Ok tt \/
     result (batch_delete_contacts filename) w = Raised IndexError).
Proof.
  intros w'. subst w'. destruct (data w !! filename) as [csv|] eqn:Hf.
  - destruct (batch_delete_contacts_exec filename csv w Hf) as (-> & -> & _ & -> & _).
    destruct (batch_delete_loop_account (tail csv) w) as (objs & errs & -> & _ & Hsub & _).
    split_and!; [done| |intros _ _; case_bool_decide; auto].
    intros r Hr. by rewrite lookup_app_l.
  - unfold exec. rewrite (batch_delete_contacts_missing _ _ Hf).
    split_and!; [done|done|intros csv Hcsv; discriminate].
Qed.

(** X15: on a file whose records after the first all have three fields or
    more, [batch_delete_contacts] returns, and each of these records either
    takes one contact out of the list or prints one line: the console gets
    the lines of the records that matched no contact, then the closing
    message, and the contacts removed and the lines printed add up to the
    number of records. *)
Theorem batch_delete_contacts_accounting (filename : string) (csv : list (list string))
    (w : World) :
  data w !! filename = Some csv ->
  Forall (fun row => 3 <= length row) (tail csv) ->
  let w' := exec (batch_delete_contacts filename) w in
  result (batch_delete_contacts filename) w = Ok tt /\
  exists errs : list text,
    stdout w' =
      stdout w ++ errs ++
      [[Txt (GREEN +:+ "Contacts added successfully batch removed from CSV." +:+ RESET)]] /\
    length (contacts_list w') + length (tail csv) = length (contacts_list w) + length errs.
Proof.
  intros Hf Hrows w'. subst w'.
  destruct (batch_delete_loop_frame (tail csv) w) as (_ & _ & _ & Hres).
  rewrite decide_True in Hres by by apply well_formed_prefix_all.
  destruct (batch_delete_loop_account (tail csv) w) as (objs & errs & _ & Hs & _ & Hlen).
  rewrite well_formed_prefix_all in Hlen by done.
  unfold exec, result, batch_delete_contacts.
  erewrite bind_ok by (unfold gets; reflexivity). rewrite Hf.
  erewrite bind_ok by (rewrite (run_eq (for_each _ _)), Hres; reflexivity).
  cbn. split; [done|]. exists errs. by rewrite Hs, <- app_assoc.
Qed.

Lemma batch_delete_contacts_accounting_witness :
  result (batch_delete_contacts "people.csv") world_ann_file = Ok tt.
Proof.
  refine (proj1 (batch_delete_contacts_accounting "people.csv" two_rows world_ann_file _ _)).
  - reflexivity.
  - repeat constructor.
Defined.

(** ** More on search_contacts *)

Section SearchResults.

Variable re_search : string -> string -> option bool.

(** The four tests made on one contact. *)
Lemma search_tests (pattern : string) (c : contact) (w w' : World) (b : bool) :
  orelse (search re_search pattern (Str.lower (first_name c)))
    (orelse (search re_search pattern (Str.lower (last_name c)))
      (orelse (search re_search pattern (Str.lower (full_name_of c)))
        (search re_search pattern (phone_number c)))) w = (Ok b, w') ->
  w' = w /\ (b = true <-> hit re_search pattern c).
Proof.
  unfold orelse, bind, search, ret, raise, hit.
  destruct (re_search pattern (Str.lower (first_name c))) as [[|]|];
    [intros [= <- <-]; split; [done|]; split; [by left|done] | |discriminate].
  destruct (re_search pattern (Str.lower (last_name c))) as [[|]|];
    [intros [= <- <-]; split; [done|]; split; [by right; left|done] | |discriminate].
  destruct (re_search pattern (Str.lower (full_name_of c))) as [[|]|];
    [intros [= <- <-]; split; [done|]; split; [by right; right; left|done] | |discriminate].
  destruct (re_search pattern (phone_number c)) as [[|]|];
    [intros [= <- <-]; split; [done|]; split; [by right; right; right|done] | |discriminate].
  intros [= <- <-]. split; [done|]. split; [done|].
  intros [?|[?|[?|?]]]; discriminate.
Qed.

Lemma search_loop_result pattern start_date end_date (l acc matches : list ref) (w w' : World) :
  search_loop re_search pattern start_date end_date l acc w = (Ok matches, w') ->
  exists found : list ref,
    matches = acc ++ found /\
    found `sublist_of` l /\
    Forall (fun r => hit re_search pattern (heap w !!! r) /\
                     in_range start_date end_date (heap w !!! r)) found /\
    (forall r, r ∈ l -> hit re_search pattern (heap w !!! r) ->
               in_range start_date end_date (heap w !!! r) -> r ∈ found).
Proof.
  revert acc. induction l as [|r l IH]; intros acc; cbn [search_loop].
  - intros [= <- <-]. exists []. rewrite app_nil_r. split_and!; [done..|].
    intros r Hr. by apply elem_of_nil in Hr.
  - erewrite bind_ok by (unfold deref, gets; reflexivity).
    set (tests := orelse _ _). destruct (tests w) as [[b|e] w1] eqn:Htests.
    + destruct (search_tests _ _ _ _ _ Htests) as [-> Hb].
      erewrite bind_ok by done. intros Hloop.
      apply IH in Hloop as (found & -> & Hsub & Hall & Hcomplete).
      destruct b.
      * destruct start_date as [s|], end_date as [e|]; cbn [in_range] in *.
        -- destruct ((s <=? time_created (heap w !!! r))%Z &&
                     (time_created (heap w !!! r) <=? e)%Z) eqn:Hin.
           ++ apply andb_true_iff in Hin as [H1%Z.leb_le H2%Z.leb_le].
              exists (r :: found). rewrite <- app_assoc. split_and!; [done| | |].
              ** by apply sublist_skip.
              ** constructor; [|done]. split; [by apply Hb | done].
              ** intros r' [->|Hr']%elem_of_cons Hh Hr; [apply list_elem_of_here|].
                 apply list_elem_of_further. by apply Hcomplete.
           ++ exists found. split_and!; [done| by apply sublist_cons | done |].
              intros r' [->|Hr']%elem_of_cons Hh Hr; [|by apply Hcomplete].
              apply andb_false_iff in Hin as [H%Z.leb_gt|H%Z.leb_gt]; lia.
        -- exists (r :: found). rewrite <- app_assoc. split_and!; [done| | |].
           ++ by apply sublist_skip.
           ++ constructor; [|done]. split; [by apply Hb | done].
           ++ intros r' [->|Hr']%elem_of_cons Hh Hr; [apply list_elem_of_here|].
              apply list_elem_of_further. by apply Hcomplete.
        -- exists (r :: found). rewrite <- app_assoc. split_and!; [done| | |].
           ++ by apply sublist_skip.
           ++ constructor; [|done]. split; [by apply Hb | done].
           ++ intros r' [->|Hr']%elem_of_cons Hh Hr; [apply list_elem_of_here|].
              apply list_elem_of_further. by apply Hcomplete.
        -- exists (r :: found). rewrite <- app_assoc. split_and!; [done| | |].
           ++ by apply sublist_skip.
           ++ constructor; [|done]. split; [by apply Hb | done].
           ++ intros r' [->|Hr']%elem_of_cons Hh Hr; [apply list_elem_of_here|].
              apply list_elem_of_further. by apply Hcomplete.
      * exists found. split_and!; [done| by apply sublist_cons | done |].
        intros r' [->|Hr']%elem_of_cons Hh Hr; [|by apply Hcomplete].
        apply Hb in Hh. discriminate.
    + by erewrite bind_raised by done.
Qed.

(** X16: a search that returns gives back contacts of the list, in the
    order of the list: exactly those in which the pattern is found and, when
    both dates are given, that were created between them.  The number it
    logs is the number it returns, and neither the list nor any object
    changes. *)
Theorem search_contacts_result query start_date end_date (matches : list ref) (w : World) :
  result (search_contacts re_search query start_date end_date) w = Ok matches ->
  let w' := exec (search_contacts re_search query start_date end_date) w in
  matches `sublist_of` contacts_list w /\
  (forall r : ref,
     r ∈ matches <->
     r ∈ contacts_list w /\ hit re_search (Str.lower query) (heap w !!! r) /\
     in_range start_date end_date (heap w !!! r)) /\
  heap w' = heap w /\ contacts_list w' = contacts_list w /\
  audit_log w' =
    logged [Txt ("Searched for contacts with query: " +:+ Str.lower query +:+ ", found ");
            Num (length matches); Txt " matches"] w.
Proof.
  intros Hres w'.
  pose proof (search_contacts_run re_search query start_date end_date w) as Hrun.
  rewrite Hres in Hrun. destruct Hrun as (Hh & Hl & Hlog). fold w' in Hh, Hl, Hlog.
  split_and!; [| |done..].
  - unfold result, search_contacts in Hres.
    erewrite bind_ok in Hres by (unfold gets; reflexivity).
    destruct (search_loop_reads re_search (Str.lower query) start_date end_date
                (contacts_list w) [] w) as ([ms|e] & Hloop).
    + destruct (search_loop_result _ _ _ _ _ _ _ _ Hloop) as (found & -> & Hsub & _).
      erewrite bind_ok in Hres by done.
      erewrite bind_ok in Hres by apply print_search_result_run.
      erewrite bind_ok in Hres by apply log_operation_run.
      cbn in Hres. by injection Hres as <-.
    + by erewrite bind_raised in Hres by done.
  - unfold result, search_contacts in Hres.
    erewrite bind_ok in Hres by (unfold gets; reflexivity).
    destruct (search_loop_reads re_search (Str.lower query) start_date end_date
                (contacts_list w) [] w) as ([ms|e] & Hloop).
    + destruct (search_loop_result _ _ _ _ _ _ _ _ Hloop)
        as (found & -> & Hsub & Hall & Hcomplete).
      erewrite bind_ok in Hres by done.
      erewrite bind_ok in Hres by apply print_search_result_run.
      erewrite bind_ok in Hres by apply log_operation_run.
      cbn in Hres. injection Hres as <-.
      intros r. split.
      * intros Hr. split; [by eapply elem_of_sublist|].
        by apply (proj1 (Forall_forall _ _) Hall).
      * intros (Hr & Hh' & Hin). by apply Hcomplete.
    + by erewrite bind_raised in Hres by done.
Qed.

Lemma search_loop_one_date pattern (start_date end_date : option datetime)
    (l acc : list ref) (w : World) :
  start_date = None \/ end_date = None ->
  search_loop re_search pattern start_date end_date l acc w =
  search_loop re_search pattern None None l acc w.
Proof.
  intros Hd. revert acc w.
  induction l as [|r l IH]; intros acc w; cbn [search_loop]; [done|].
  unfold bind at 1 3. destruct (deref r w) as [[c|e] w1]; [|done].
  unfold bind at 1 2. destruct (orelse _ _ w1) as [[b|e] w2]; [|done].
  destruct Hd as [->| ->]; [|destruct start_date]; apply IH.
Qed.

(** X17: the dates of a search only count when both are given: a search
    with a start date alone, or an end date alone, does what the search
    without dates does. *)
Theorem search_contacts_one_date query (start_date end_date : option datetime) (w : World) :
  start_date = None \/ end_date = None ->
  search_contacts re_search query start_date end_date w =
  search_contacts re_search query None None w.
Proof.
  intros Hd. unfold search_contacts.
  erewrite bind_ok by (unfold gets; reflexivity). symmetry.
  erewrite bind_ok by (unfold gets; reflexivity). symmetry.
  unfold bind at 1 4. by rewrite search_loop_one_date.
Qed.

End SearchResults.

Lemma search_contacts_result_witness :
  [0] `sublist_of` contacts_list world_ann.
Proof.
  refine (proj1 (search_contacts_result literal_search "LEE" None None [0] world_ann _)).
  reflexivity.
Defined.

Lemma search_contacts_one_date_witness :
  search_contacts literal_search "lee" (Some 0%Z) None world_ann =
  search_contacts literal_search "lee" None None world_ann.
Proof. apply search_contacts_one_date. by right. Defined.

(** ** More on sort_contacts *)

Lemma ascii_compare_refl (a : ascii) : Ascii.compare a a = Eq.
Proof. apply N.compare_refl. Qed.

Lemma ascii_compare_lt_trans (a b c : ascii) :
  Ascii.compare a b = Lt -> Ascii.compare b c = Lt -> Ascii.compare a c = Lt.
Proof. unfold Ascii.compare. rewrite !N.compare_lt_iff. lia. Qed.

Lemma string_compare_lt_trans (a b c : string) :
  String.compare a b = Lt -> String.compare b c = Lt -> String.compare a c = Lt.
Proof.
  revert b c. induction a as [|x a IH]; intros [|y b] [|z c]; cbn; try done.
  destruct (Ascii.compare x y) eqn:Hxy; try done;
    destruct (Ascii.compare y z) eqn:Hyz; try done.
  - apply Ascii.compare_eq_iff in Hxy as ->. rewrite Hyz. apply IH.
  - apply Ascii.compare_eq_iff in Hxy as ->. by rewrite Hyz.
  - apply Ascii.compare_eq_iff in Hyz as <-. by rewrite Hxy.
  - by rewrite (ascii_compare_lt_trans x y z).
Qed.

Lemma string_ltb_irrefl (a : string) : String.ltb a a = false.
Proof.
  unfold String.ltb. pose proof (String.compare_antisym a a) as H.
  destruct (String.compare a a); try done; discriminate.
Qed.

Lemma ltb_key_le (a b : string) : String.ltb a b = true -> key_le a b.
Proof.
  unfold key_le, String.ltb. rewrite (String.compare_antisym b a).
  by destruct (String.compare a b).
Qed.

Lemma key_le_trans (a b c : string) : key_le a b -> key_le b c -> key_le a c.
Proof.
  unfold key_le, String.ltb. intros Hab Hbc.
  destruct (String.compare c a) eqn:Hca; try done. exfalso.
  destruct (String.compare c b) eqn:Hcb; try done.
  - apply String.compare_eq_iff in Hcb as ->. by rewrite Hca in Hab.
  - assert (Hbc' : String.compare b c = Lt).
    { rewrite String.compare_antisym, Hcb. done. }
    by rewrite (string_compare_lt_trans b c a) in Hab.
Qed.

(** *** The sort on keyed pairs *)

Lemma insert_by_key_perm (k : string) (x : ref) (l : list (string * ref)) :
  insert_by_key k x l ≡ₚ (k, x) :: l.
Proof.
  induction l as [|[k' y] l IH]; cbn; [done|].
  destruct (String.ltb k' k); [|done]. rewrite IH. apply Permutation_swap.
Qed.

Lemma sort_by_key_perm (l : list (string * ref)) : sort_by_key l ≡ₚ l.
Proof.
  induction l as [|[k x] l IH]; cbn; [done|]. by rewrite insert_by_key_perm, IH.
Qed.

Lemma insert_by_key_sorted (k : string) (x : ref) (l : list (string * ref)) :
  StronglySorted (fun p q => key_le p.1 q.1) l ->
  StronglySorted (fun p q => key_le p.1 q.1) (insert_by_key k x l).
Proof.
  induction 1 as [|[k' y] l Hs IH Hall]; cbn.
  - repeat constructor.
  - destruct (String.ltb k' k) eqn:Hlt.
    + constructor; [done|]. rewrite insert_by_key_perm.
      constructor; [by apply ltb_key_le | done].
    + constructor; [by constructor|]. constructor; [done|].
      eapply Forall_impl; [done|]. intros [k'' z] Hz. cbn in *.
      by apply (key_le_trans k k' k'').
Qed.

Lemma sort_by_key_sorted (l : list (string * ref)) :
  StronglySorted (fun p q => key_le p.1 q.1) (sort_by_key l).
Proof.
  induction l as [|[k x] l IH]; cbn; [constructor|]. by apply insert_by_key_sorted.
Qed.

(** The sort is stable: the pairs of one key stay in their order. *)
Lemma insert_by_key_filter (k0 k : string) (x : ref) (l : list (string * ref)) :
  filter (fun p => p.1 = k0) (insert_by_key k x l) = filter (fun p => p.1 = k0) ((k, x) :: l).
Proof.
  induction l as [|[k' y] l IH]; cbn; [done|].
  destruct (String.ltb k' k) eqn:Hlt; [|done].
  rewrite (filter_cons _ (k', y)), IH, !filter_cons. cbn.
  destruct (decide (k' = k0)) as [->|Hk']; [|done].
  destruct (decide (k = k0)) as [->|Hk]; [|done].
  by rewrite string_ltb_irrefl in Hlt.
Qed.

Lemma sort_by_key_filter (k0 : string) (l : list (string * ref)) :
  filter (fun p => p.1 = k0) (sort_by_key l) = filter (fun p => p.1 = k0) l.
Proof.
  induction l as [|[k x] l IH]; cbn; [done|].
  by rewrite insert_by_key_filter, !filter_cons, IH.
Qed.

(** Sorting a sorted list changes nothing. *)
Lemma sort_by_key_sorted_id (l : list (string * ref)) :
  StronglySorted (fun p q => key_le p.1 q.1) l -> sort_by_key l = l.
Proof.
  induction 1 as [|[k x] l Hs IH Hall]; cbn; [done|]. rewrite IH.
  destruct l as [|[k' y] l]; cbn; [done|].
  apply Forall_cons in Hall as [Hk _]. cbn in Hk. unfold key_le in Hk. by rewrite Hk.
Qed.

(** *** From pairs to contacts *)

Lemma keys_of_Some (key : contact -> option string) (h : list contact) (l : list ref)
    (keyed : list (string * ref)) :
  keys_of key h l = Some keyed -> snd <$> keyed = l /\ keyed_for key h keyed.
Proof.
  revert keyed. induction l as [|r l IH]; intros keyed; cbn.
  - intros [= <-]. split; [done | constructor].
  - destruct (key (h !!! r)) as [k|] eqn:Hk; [|done].
    destruct (keys_of key h l) as [keyed'|]; [|done]. intros [= <-].
    destruct (IH keyed' eq_refl) as [<- Hall]. split; [done|]. by constructor.
Qed.

Lemma keys_of_keyed (key : contact -> option string) (h : list contact)
    (keyed : list (string * ref)) :
  keyed_for key h keyed -> keys_of key h (snd <$> keyed) = Some keyed.
Proof.
  induction 1 as [|[k r] keyed Hk _ IH]; cbn in *; [done|]. by rewrite Hk, IH.
Qed.

Lemma keyed_filter (key : contact -> option string) (h : list contact) (k0 : string)
    (keyed : list (string * ref)) :
  keyed_for key h keyed ->
  with_key key h k0 (snd <$> keyed) = snd <$> filter (fun p => p.1 = k0) keyed.
Proof.
  unfold with_key. induction 1 as [|[k r] keyed Hk _ IH]; [done|].
  cbn [fmap list_fmap snd] in *. rewrite !filter_cons, IH. cbn in *. rewrite Hk.
  destruct (decide (Some k = Some k0)) as [[= ->]|Hne].
  - by rewrite decide_True.
  - rewrite decide_False; [done|]. congruence.
Qed.

Lemma StronglySorted_with {A} (R : relation A) (P : A -> Prop) (l : list A) :
  StronglySorted R l -> Forall P l ->
  StronglySorted (fun a b => R a b /\ P a /\ P b) l.
Proof.
  induction 1 as [|a l Hs IH Hall]; intros HP; [constructor|].
  apply Forall_cons in HP as [Ha HP]. constructor; [by apply IH|].
  apply Forall_forall. intros b Hb.
  split_and!; [|done|]; by eapply Forall_forall.
Qed.

(** What [list.sort] leaves, for a key that is defined on every contact of
    the list. *)
Lemma contacts_list_sort_spec (key : contact -> option string) (w : World)
    (keyed : list (string * ref)) :
  keys_of key (heap w) (contacts_list w) = Some keyed ->
  let l' := snd <$> sort_by_key keyed in
  l' ≡ₚ contacts_list w /\
  sorted_by key (heap w) l' /\
  (forall k, with_key key (heap w) k l' = with_key key (heap w) k (contacts_list w)) /\
  keys_of key (heap w) l' = Some (sort_by_key keyed).
Proof.
  intros Hkeys l'. destruct (keys_of_Some _ _ _ _ Hkeys) as [Hl Hfor].
  assert (Hfor' : keyed_for key (heap w) (sort_by_key keyed)).
  { unfold keyed_for. by rewrite sort_by_key_perm. }
  subst l'. split_and!.
  - by rewrite sort_by_key_perm, Hl.
  - unfold sorted_by.
    eapply StronglySorted_fmap;
      [|apply (StronglySorted_with _ _ _ (sort_by_key_sorted keyed) Hfor')].
    intros [k1 r1] [k2 r2] (Hle & Hk1 & Hk2) k1' k2' H1 H2. cbn in *. congruence.
  - intros k. rewrite (keyed_filter _ _ _ _ Hfor'), sort_by_key_filter.
    by rewrite <- (keyed_filter _ _ _ _ Hfor), Hl.
  - by apply keys_of_keyed.
Qed.

Lemma sort_then_log_run (key : contact -> option string) (operation : text) (w : World) :
  (contacts_list_sort key ;;; log_operation operation) w =
  match keys_of key (heap w) (contacts_list w) with
  | Some keyed =>
      (Ok tt,
       MkWorld (heap w) (snd <$> sort_by_key keyed) (logged operation w)
         (data w) (broken w) (stdout w) (clock w) (S (ticks w)))
  | None => (Raised IndexError, w)
  end.
Proof.
  pose proof (contacts_list_sort_run key w) as Hsort.
  destruct (keys_of key (heap w) (contacts_list w)) as [keyed|].
  - by erewrite bind_ok by done.
  - by erewrite bind_raised by done.
Qed.

Lemma sort_contacts_alphabetical_run (w : World) :
  sort_contacts "alphabetical" w =
  (contacts_list_sort alphabetical_key ;;;
   log_operation [Txt "Sorted contacts alphabetically by last name."]) w.
Proof. reflexivity. Qed.

Lemma sort_contacts_group_run (w : World) :
  sort_contacts "group" w =
  (contacts_list_sort group_key ;;;
   log_operation [Txt "Grouped contacts by last name initial."]) w.
Proof. reflexivity. Qed.

Lemma keys_of_None (key : contact -> option string) (h : list contact) (l : list ref) :
  Exists (fun r => key (h !!! r) = None) l -> keys_of key h l = None.
Proof.
  induction 1 as [r l Hr|r l _ IH]; cbn.
  - by rewrite Hr.
  - destruct (key (h !!! r)); [|done]. by rewrite IH.
Qed.

(** X18: sorting alphabetically always returns and leaves the same
    contacts, ordered by last name as Python compares strings (no contact
    comes before one whose last name is less), the contacts of one last name
    in the order they were in.  No object changes. *)
Theorem sort_alphabetical (w : World) :
  let w' := exec (sort_contacts "alphabetical") w in
  result (sort_contacts "alphabetical") w = Ok tt /\
  heap w' = heap w /\
  contacts_list w' ≡ₚ contacts_list w /\
  sorted_by alphabetical_key (heap w) (contacts_list w') /\
  (forall k : string,
     with_key alphabetical_key (heap w) k (contacts_list w')
     = with_key alphabetical_key (heap w) k (contacts_list w)).
Proof.
  intros w'. subst w'. unfold exec, result.
  rewrite sort_contacts_alphabetical_run, sort_then_log_run.
  destruct (keys_of_total alphabetical_key (heap w) (contacts_list w)) as [keyed Hkeyed].
  { apply Forall_forall. by eexists. }
  rewrite Hkeyed. cbn [fst snd heap contacts_list].
  destruct (contacts_list_sort_spec _ _ _ Hkeyed) as (Hperm & Hsorted & Hstable & _).
  done.
Qed.

(** X19: when every contact has a last name that is not empty, grouping
    returns and leaves the same contacts, ordered by the first character of
    the last name, the contacts of one initial in the order they were in. *)
Theorem sort_group (w : World) :
  Forall (fun r => last_name (heap w !!! r) <> "") (contacts_list w) ->
  let w' := exec (sort_contacts "group") w in
  result (sort_contacts "group") w = Ok tt /\
  heap w' = heap w /\
  contacts_list w' ≡ₚ contacts_list w /\
  sorted_by group_key (heap w) (contacts_list w') /\
  (forall k : string,
     with_key group_key (heap w) k (contacts_list w')
     = with_key group_key (heap w) k (contacts_list w)).
Proof.
  intros Hnames w'. subst w'. unfold exec, result.
  rewrite sort_contacts_group_run, sort_then_log_run.
  destruct (keys_of_total group_key (heap w) (contacts_list w)) as [keyed Hkeyed].
  { eapply Forall_impl; [done|]. intros r. apply first_char_is_Some. }
  rewrite Hkeyed. cbn [fst snd heap contacts_list].
  destruct (contacts_list_sort_spec _ _ _ Hkeyed) as (Hperm & Hsorted & Hstable & _).
  done.
Qed.

Lemma sort_group_witness :
  contacts_list (exec (sort_contacts "group") world_ann) ≡ₚ contacts_list world_ann.
Proof.
  refine (proj1 (proj2 (proj2 (sort_group world_ann _)))).
  repeat constructor. discriminate.
Defined.

(** X20: when some contact of the list has an empty last name, grouping
    stops with an IndexError and leaves everything as it was: the list is
    not reordered and nothing is logged. *)
Theorem sort_group_empty_last_name (w : World) :
  Exists (fun r => last_name (heap w !!! r) = "") (contacts_list w) ->
  sort_contacts "group" w = (Raised IndexError, w).
Proof.
  intros Hempty. rewrite sort_contacts_group_run, sort_then_log_run.
  rewrite keys_of_None; [done|].
  eapply Exists_impl; [done|]. intros r Hr. unfold group_key. by rewrite Hr.
Qed.

Lemma sort_group_empty_last_name_witness :
  sort_contacts "group" (exec (batch_add_contacts "noname.csv") world_bad_files)
  = (Raised IndexError, exec (batch_add_contacts "noname.csv") world_bad_files).
Proof.
  apply sort_group_empty_last_name. apply Exists_cons_hd. reflexivity.
Defined.

(** X21: sorting twice in the same way leaves the list the first sort
    left, whatever the way asked for. *)
Theorem sort_contacts_idempotent (sort_type : string) (w : World) :
  contacts_list (exec (sort_contacts sort_type) (exec (sort_contacts sort_type) w))
  = contacts_list (exec (sort_contacts sort_type) w).
Proof.
  assert (Hkey : forall key operation,
            let sort := (contacts_list_sort key ;;; log_operation operation) in
            contacts_list (exec sort (exec sort w)) = contacts_list (exec sort w)).
  { intros key operation sort. subst sort. unfold exec at 2 3.
    rewrite sort_then_log_run.
    destruct (keys_of key (heap w) (contacts_list w)) as [keyed|] eqn:Hkeyed; cbn [snd].
    - destruct (contacts_list_sort_spec _ _ _ Hkeyed) as (_ & _ & _ & Hkeys').
      unfold exec. rewrite sort_then_log_run. cbn [heap contacts_list].
      rewrite Hkeys'. cbn [snd contacts_list].
      by rewrite (sort_by_key_sorted_id _ (sort_by_key_sorted keyed)).
    - unfold exec. rewrite sort_then_log_run, Hkeyed. done. }
  unfold sort_contacts.
  destruct (String.eqb sort_type "alphabetical"); [apply Hkey|].
  destruct (String.eqb sort_type "group"); [apply Hkey|].
  reflexivity.
Qed.

(** A sort of a kind other than 'alphabetical' and 'group' returns,
    leaves the list and the objects as they were, prints an error and logs
    the attempt. *)
Lemma sort_contacts_invalid (sort_type : string) (w : World) :
  sort_type <> "alphabetical" ->
  sort_type <> "group" ->
  sort_contacts sort_type w =
  (Ok tt,
   MkWorld (heap w) (contacts_list w)
     (logged [Txt "Attempted to sort contacts with invalid sort type."] w)
     (data w) (broken w) (stdout w ++ [[Txt "Error: Invalid sort type."]]) (clock w) (S (ticks w))).
Proof.
  intros H1%String.eqb_neq H2%String.eqb_neq. unfold sort_contacts.
  rewrite H1, H2. reflexivity.
Qed.

Lemma sort_contacts_invalid_witness :
  contacts_list (exec (sort_contacts "by phone") world_ann) = [0].
Proof.
  unfold exec. rewrite (sort_contacts_invalid "by phone" world_ann); [reflexivity|..];
    discriminate.
Defined.

(** ** What is shown on the console *)

Lemma display_lines_run (idx : nat) (l : list ref) (w : World) :
  display_lines idx l w =
  (Ok tt,
   set_stdout (stdout w ++ imap (fun i r => contact_line (idx + i) (heap w !!! r)) l) w).
Proof.
  revert idx w. induction l as [|r l IH]; intros idx w; cbn [display_lines].
  - cbn. rewrite app_nil_r. by destruct w.
  - erewrite bind_ok by (unfold deref, gets; reflexivity).
    erewrite bind_ok by reflexivity. rewrite IH.
    unfold set_stdout. cbn [heap contacts_list audit_log data stdout clock ticks imap].
    rewrite <- app_assoc, Nat.add_0_r. cbn [app]. do 4 f_equal.
    apply imap_ext. intros i r' _. cbn. f_equal. lia.
Qed.

(** X22: listing the contacts changes nothing but the console.  For an
    empty list it prints one line; otherwise a title, a rule, one line for
    each contact in the order of the list, numbered from 1, a rule and the
    number of contacts. *)
Theorem display_contacts_lines (w : World) :
  exists out : list text,
    display_contacts w = (Ok tt, set_stdout (stdout w ++ out) w) /\
    match contacts_list w with
    | [] => length out = 1
    | l =>
        length out = length l + 4 /\
        (forall (i : nat) (r : ref),
           l !! i = Some r -> out !! (2 + i) = Some (contact_line (S i) (heap w !!! r))) /\
        last out = Some [Txt "Total contacts: "; Num (length l)]
    end.
Proof.
  unfold display_contacts. erewrite bind_ok by (unfold gets; reflexivity).
  destruct (contacts_list w) as [|r l] eqn:Hl.
  - eexists [_]. split; [reflexivity | done].
  - erewrite bind_ok by reflexivity. erewrite bind_ok by reflexivity.
    erewrite bind_ok by apply display_lines_run.
    erewrite bind_ok by reflexivity.
    set (lines := imap (fun i r0 => contact_line (1 + i) (heap w !!! r0)) (r :: l)).
    exists ([[Txt (NL +:+ "Phonebook Contacts:")]; [Txt (Str.times "=" 90)]] ++ lines ++
            [[Txt (Str.times "=" 90)]; [Txt "Total contacts: "; Num (length (r :: l))]]).
    split; [|split_and!].
    + unfold print, modify, set_stdout.
      cbn [heap contacts_list audit_log data stdout clock ticks]. fold lines.
      do 2 f_equal. rewrite <- !app_assoc. reflexivity.
    + rewrite !length_app. subst lines. rewrite length_imap. cbn [length]. lia.
    + intros i r' Hi. rewrite lookup_app_r by (cbn [length]; lia).
      cbn [length]. replace (2 + i - 2) with i by lia.
      rewrite lookup_app_l by (subst lines; rewrite length_imap; by eapply lookup_lt_Some).
      subst lines. rewrite list_lookup_imap, Hi. reflexivity.
    + rewrite app_assoc, last_app. cbn. reflexivity.
Qed.

Lemma for_each_print_run {A} (f : A -> text) (l : list A) (w : World) :
  for_each l (fun a => print (f a)) w = (Ok tt, set_stdout (stdout w ++ (f <$> l)) w).
Proof.
  revert w. induction l as [|a l IH]; intros w; cbn [for_each].
  - cbn. rewrite app_nil_r. by destruct w.
  - erewrite bind_ok by reflexivity. rewrite IH.
    unfold set_stdout. cbn. by rewrite <- app_assoc.
Qed.

(** *** The lines of the audit log *)

Lemma items_app (t1 t2 : text) : items (t1 ++ t2) = items t1 ++ items t2.
Proof. apply bind_app. Qed.

Lemma items_log_line (t : datetime) (description : text) :
  items (log_line t description) =
  (Atom (Date t) :: chars " - " ++ items description) ++ [Chr LF].
Proof.
  unfold log_line. rewrite !items_app. reflexivity.
Qed.

Lemma plain_log_line (t : datetime) (description : text) :
  no_line_end description = true ->
  forallb plain (Atom (Date t) :: chars " - " ++ items description) = true.
Proof. intros Hd. cbn. exact Hd. Qed.

(** Up to the first line feed, items that are no line ends make one line. *)
Lemma readlines_plain (xs : list item) (line rest : list item) :
  forallb plain xs = true ->
  readlines line (xs ++ Chr LF :: rest) = (line ++ xs ++ [Chr LF]) :: readlines [] rest.
Proof.
  revert line. induction xs as [|i xs IH]; intros line Hxs; [reflexivity|].
  cbn [forallb] in Hxs. apply andb_true_iff in Hxs as [Hi Hxs].
  destruct i as [a|p]; cbn [app readlines].
  - unfold plain, line_end in Hi. apply negb_true_iff, orb_false_iff in Hi as [-> ->].
    rewrite IH by done. by rewrite <- app_assoc.
  - rewrite IH by done. by rewrite <- app_assoc.
Qed.

Lemma readlines_LF (line rest : list item) :
  readlines line (Chr LF :: rest) = (line ++ [Chr LF]) :: readlines [] rest.
Proof. reflexivity. Qed.

(** A line feed ends a line, whatever stands in front of it. *)
Lemma readlines_line_feed (n : nat) (xs : list item) (line rest : list item) :
  length xs <= n ->
  1 + length (readlines [] rest) <= length (readlines line (xs ++ Chr LF :: rest)).
Proof.
  revert xs line. induction n as [|n IH]; intros xs line Hn.
  - destruct xs; [|cbn in Hn; lia]. cbn [app]. rewrite readlines_LF. cbn [length]. lia.
  - destruct xs as [|[a|p] xs]; [cbn [app]; rewrite readlines_LF; cbn [length]; lia| |].
    + cbn [length] in Hn. cbn [app readlines].
      destruct (Ascii.eqb a LF).
      { cbn [length]. specialize (IH xs [] ltac:(lia)). lia. }
      destruct (Ascii.eqb a CR); [|apply IH; lia].
      cbn [length]. destruct xs as [|[b|q] xs]; cbn [app].
      * change (Ascii.eqb LF LF) with true. lia.
      * cbn [length] in Hn. destruct (Ascii.eqb b LF).
        -- specialize (IH xs [] ltac:(lia)). lia.
        -- specialize (IH (Chr b :: xs) [] ltac:(cbn; lia)). cbn [app] in IH. lia.
      * specialize (IH (Atom q :: xs) [] ltac:(cbn in *; lia)). cbn [app] in IH. lia.
    + cbn [length] in Hn. cbn [app readlines]. apply IH. lia.
Qed.

Lemma lines_of_length (log_file : list text) :
  length (lines_of log_file) = length (readlines [] (items (concat log_file))).
Proof. unfold lines_of. by rewrite length_fmap. Qed.

Lemma lines_of_log_entries (log_file : list text) :
  Forall log_entry log_file -> length log_file <= length (lines_of log_file).
Proof.
  rewrite lines_of_length.
  induction 1 as [|entry log_file (t & description & ->) _ IH]; [cbn; lia|].
  cbn [concat length]. rewrite items_app, items_log_line, <- app_assoc. cbn [app].
  change (Atom (Date t) :: (chars " - " ++ items description) ++ Chr LF :: items (concat log_file))
    with ((Atom (Date t) :: chars " - " ++ items description) ++ Chr LF :: items (concat log_file)).
  pose proof (readlines_line_feed _ (Atom (Date t) :: chars " - " ++ items description) []
                (items (concat log_file)) (le_n _)).
  lia.
Qed.

Lemma lines_of_entries_on_one_line (log_file : list text) :
  Forall entry_on_one_line log_file ->
  lines_of log_file = (fun entry => text_of (items entry)) <$> log_file.
Proof.
  unfold lines_of.
  induction 1 as [|entry log_file (t & description & -> & Hd) _ IH]; [reflexivity|].
  cbn [concat]. rewrite items_app, items_log_line, <- app_assoc. cbn [app].
  change (Atom (Date t) :: (chars " - " ++ items description) ++ Chr LF :: items (concat log_file))
    with ((Atom (Date t) :: chars " - " ++ items description) ++ Chr LF :: items (concat log_file)).
  rewrite readlines_plain by by apply plain_log_line.
  cbn [fmap list_fmap]. cbn [fmap] in IH. rewrite IH, items_log_line. reflexivity.
Qed.

(** X23: showing the audit log stops with FileNotFoundError, leaving
    everything as it was, when the file does not exist; when it exists the
    call returns and changes nothing but the console, where it prints a
    title and then one line for each line of the file, a line ending at a
    line feed, at a carriage return or at the two in a row.  For a file
    that [log_operation] wrote that is at least one line for each entry,
    and exactly one, the entry without its line feed, when no description
    holds a line end. *)
Theorem view_audit_log_lines (w : World) :
  match audit_log w with
  | None => view_audit_log w = (Raised FileNotFoundError, w)
  | Some log_file =>
      exists out : list text,
        view_audit_log w = (Ok tt, set_stdout (stdout w ++ out) w) /\
        length out = 1 + length (lines_of log_file) /\
        (Forall log_entry log_file -> 1 + length log_file <= length out) /\
        (Forall entry_on_one_line log_file ->
         length out = 1 + length log_file /\
         forall (i : nat) (entry : text),
           log_file !! i = Some entry ->
           out !! (S i) =
           Some ([Txt (" " +:+ BLUE)] ++ strip (text_of (items entry)) ++ [Txt RESET]))
  end.
Proof.
  unfold view_audit_log. erewrite bind_ok by (unfold gets; reflexivity).
  destruct (audit_log w) as [log_file|]; [|reflexivity].
  erewrite bind_ok by reflexivity. rewrite for_each_print_run.
  eexists (_ :: _). split_and!.
  - unfold set_stdout. cbn. rewrite <- app_assoc. reflexivity.
  - cbn. by rewrite length_fmap.
  - intros Hall%lines_of_log_entries. cbn [length]. rewrite length_fmap. lia.
  - intros Hall%lines_of_entries_on_one_line. rewrite Hall. split.
    + cbn [length]. by rewrite !length_fmap.
    + intros i entry Hi. rewrite lookup_cons. cbv beta iota.
      rewrite !list_lookup_fmap, Hi. reflexivity.
Qed.

Lemma view_audit_log_lines_witness :
  exists out : list text,
    view_audit_log world_ann_logged =
      (Ok tt, set_stdout (stdout world_ann_logged ++ out) world_ann_logged) /\
    length out = 2.
Proof.
  destruct (view_audit_log_lines world_ann_logged) as (out & Hrun & _ & _ & Hone).
  exists out. split; [exact Hrun|].
  apply Hone. repeat constructor. eexists _, _. split; reflexivity.
Defined.

(** A name of two lines that is looked for in vain makes one entry of the
    audit log and two of its lines: with the message of [delete_contact]
    and the title there are four lines on the console. *)
Lemma view_audit_log_entry_of_two_lines :
  let w' := exec (delete_contact name_of_two_lines) world_ann in
  (length <$> audit_log w') = Some 1 /\
  length (stdout w') = 1 /\
  result view_audit_log w' = Ok tt /\
  length (stdout (exec view_audit_log w')) = 4.
Proof. vm_compute. done. Qed.

(** Once the audit log is cleared it exists and is empty, so showing
    it at once returns and prints the title alone, whatever the log held
    before and whether or not it existed. *)
Lemma clear_then_view_audit_log (w : World) :
  let w' := exec (clear_audit_log ;;; view_audit_log) w in
  result (clear_audit_log ;;; view_audit_log) w = Ok tt /\
  audit_log w' = Some [] /\
  stdout w' =
    stdout w ++ [[Txt (GREEN +:+ "Audit log has been cleared." +:+ RESET)];
                 [Txt (NL +:+ BLUE +:+ "--- Audit Log ---" +:+ RESET)]] /\
  heap w' = heap w /\ contacts_list w' = contacts_list w.
Proof.
  intros w'. subst w'. unfold exec, result, clear_audit_log, view_audit_log.
  cbn. by rewrite <- app_assoc.
Qed.

(** ** Deleting twice *)

(** X24: when one contact only has the given name, deleting by that name
    takes it out, and deleting by the same name again changes nothing and
    reports that no contact was found. *)
Theorem delete_contact_twice (full_name : string) (w : World) (l1 l2 : list ref) (r : ref) :
  contacts_list w = l1 ++ r :: l2 ->
  named (heap w) full_name r ->
  Forall (fun y => ~ named (heap w) full_name y) (l1 ++ l2) ->
  let w1 := exec (delete_contact full_name) w in
  let w2 := exec (delete_contact full_name) w1 in
  contacts_list w1 = l1 ++ l2 /\
  contacts_list w2 = l1 ++ l2 /\
  stdout w2 = stdout w ++ [deleted_message (Str.lower full_name);
                           not_found_message (Str.lower full_name)].
Proof.
  intros Hl Hr Hrest w1 w2. subst w2 w1.
  pose proof Hrest as [Hl1 Hl2]%Forall_app.
  unfold exec. erewrite (delete_contact_found full_name w l1 l2 r) by done. cbn [snd].
  rewrite delete_contact_not_found by done. cbn. by rewrite <- app_assoc.
Qed.

Lemma delete_contact_twice_witness :
  contacts_list (exec (delete_contact "ann lee") (exec (delete_contact "ann lee") world_ann))
  = [].
Proof.
  refine (proj1 (proj2 (delete_contact_twice "ann lee" world_ann [] [] 0 _ _ _))).
  - reflexivity.
  - reflexivity.
  - constructor.
Defined.

(** ** Which objects an operation can change *)

Section Objects.

Variable re_search : string -> string -> option bool.

(** X25: the only object an operation of the phone book can change is the
    contact given to an update: under every other operation, and for every
    other object under an update, an object that exists is afterwards what
    it was (the batch operations create objects, and change none). *)
Theorem objects_changed_by_update_only (o : operation) (w : World) (r : ref) (obj : contact) :
  heap w !! r = Some obj ->
  (forall contact first last phone mail addr,
     o = Update contact first last phone mail addr -> r <> contact) ->
  heap (exec (run re_search o) w) !! r = Some obj.
Proof.
  intros Hobj Hother.
  destruct o as [c|full_name|filename|filename|c first last phone mail addr|
                 query start_date end_date|mode| | |]; cbn [run].
  - unfold exec. by rewrite add_contact_run.
  - destruct (first_named_split (heap w) full_name (contacts_list w))
      as [Hl|(l1 & x & l2 & Hl & Hl1 & Hx)]; unfold exec.
    + by rewrite delete_contact_not_found.
    + by erewrite delete_contact_found.
  - destruct (data w !! filename) as [csv|] eqn:Hf.
    + destruct (batch_add_contacts_exec filename csv w Hf) as (objs & -> & _).
      by apply lookup_app_l_Some.
    + unfold exec. by rewrite batch_add_contacts_missing.
  - destruct (data w !! filename) as [csv|] eqn:Hf.
    + destruct (batch_delete_contacts_exec filename csv w Hf) as (-> & _).
      destruct (batch_delete_loop_account (tail csv) w) as (objs & errs & -> & _).
      by apply lookup_app_l_Some.
    + unfold exec. by rewrite batch_delete_contacts_missing.
  - destruct (update_contact_heap c first last phone mail addr w) as [->| ->]; [done|].
    rewrite list_lookup_insert_ne; [done|]. intros <-. by eapply Hother.
  - pose proof (search_contacts_run re_search query start_date end_date w) as Hrun.
    rewrite exec_bind.
    destruct (result (search_contacts re_search query start_date end_date) w).
    + destruct Hrun as (Hh & _). cbn. by rewrite Hh.
    + cbn in Hrun. by rewrite Hrun.
  - pose proof (sort_contacts_run mode w) as Hrun.
    destruct (result (sort_contacts mode) w).
    + destruct Hrun as (Hh & _). by rewrite Hh.
    + cbn in Hrun. by rewrite Hrun.
  - destruct (display_contacts_prints w) as ([] & out & Hrun).
    unfold exec. by rewrite Hrun.
  - pose proof (view_audit_log_run w) as Hrun. unfold exec.
    destruct (audit_log w).
    + by destruct Hrun as (out & ->).
    + by rewrite Hrun.
  - done.
Qed.

End Objects.

Lemma objects_changed_by_update_only_witness :
  heap (exec (run literal_search (BatchImport "people.csv")) world_ann_file) !! 0 = Some ann.
Proof.
  apply (objects_changed_by_update_only literal_search (BatchImport "people.csv")
           world_ann_file 0 ann).
  - reflexivity.
  - intros contact first last phone mail addr H. discriminate.
Defined.

(** ** main.py: what is typed at the menu *)

Lemma only_console_refl (w : World) : only_console w w.
Proof. by repeat split. Qed.

Lemma only_console_trans (w1 w2 w3 : World) :
  only_console w1 w2 -> only_console w2 w3 -> only_console w1 w3.
Proof.
  intros (H1 & H2 & H3 & H4 & H5 & H6) (K1 & K2 & K3 & K4 & K5 & K6).
  repeat split; congruence.
Qed.

Lemma only_console_set_stdout (out : list text) (w : World) : only_console w (set_stdout out w).
Proof. by repeat split. Qed.

Lemma cbind_got {A B} (m : Main.Console A) (k : A -> Main.Console B)
    (stdin rest : list string) (a : A) (w w' : World) :
  m stdin w = (Ok (Main.Got a rest), w') -> Main.cbind m k stdin w = k a rest w'.
Proof. intros H. unfold Main.cbind. by erewrite bind_ok by done. Qed.

Lemma cbind_eof {A B} (m : Main.Console A) (k : A -> Main.Console B)
    (stdin : list string) (w w' : World) :
  m stdin w = (Ok Main.EOFError, w') -> Main.cbind m k stdin w = (Ok Main.EOFError, w').
Proof. intros H. unfold Main.cbind. by erewrite bind_ok by done. Qed.

Lemma get_valid_input_run (prompt : string) (validation_func : string -> bool)
    (error_message : string) (stdin : list string) (w : World) :
  exists (bad : list string) (w' : World),
    Forall (fun x => validation_func x = false) bad /\
    only_console w w' /\
    ((exists value rest,
        stdin = bad ++ value :: rest /\ validation_func value = true /\
        stdout w' = stdout w ++ asked prompt error_message bad /\
        Main.get_valid_input prompt validation_func error_message stdin w
          = (Ok (Main.Got value rest), w')) \/
     (stdin = bad /\
      Main.get_valid_input prompt validation_func error_message stdin w
        = (Ok Main.EOFError, w'))).
Proof.
  revert w. induction stdin as [|value rest IH]; intros w; cbn [Main.get_valid_input].
  - exists [], (set_stdout (stdout w ++ [[Txt prompt]]) w).
    split_and!; [done | apply only_console_set_stdout | by right].
  - erewrite bind_ok by reflexivity.
    destruct (validation_func value) eqn:Hv.
    + exists [], (set_stdout (stdout w ++ [[Txt prompt]]) w).
      split_and!; [done | apply only_console_set_stdout |].
      left. exists value, rest. split_and!; done.
    + erewrite bind_ok by reflexivity.
      match goal with |- context [Main.get_valid_input _ _ _ rest ?w1] =>
        destruct (IH w1) as (bad & w' & Hbad & Hcons & Hrun) end.
      exists (value :: bad), w'. split_and!; [by constructor| |].
      * eapply only_console_trans; [|done].
        eapply only_console_trans; apply only_console_set_stdout.
      * destruct Hrun as [(v & rest' & -> & Hv' & Hout & Hrun)|[-> Hrun]].
        -- left. exists v, rest'. split_and!; [done..| |done].
           rewrite Hout. unfold set_stdout, asked. cbn. by rewrite <- !app_assoc.
        -- by right.
Qed.

(** X26: [get_valid_input] returns the first line typed that passes the
    check, and so never a line that fails it; it stops with EOFError when no
    line passes.  It writes the prompt for each line it reads and the error
    after each line it refuses, and changes nothing but the console. *)
Theorem get_valid_input_first_valid (prompt : string) (validation_func : string -> bool)
    (error_message : string) (stdin : list string) (w : World) :
  exists (bad : list string) (w' : World),
    Forall (fun x => validation_func x = false) bad /\
    only_console w w' /\
    ((exists value rest,
        stdin = bad ++ value :: rest /\ validation_func value = true /\
        stdout w' = stdout w ++ asked prompt error_message bad /\
        Main.get_valid_input prompt validation_func error_message stdin w
          = (Ok (Main.Got value rest), w')) \/
     (stdin = bad /\
      Main.get_valid_input prompt validation_func error_message stdin w
        = (Ok Main.EOFError, w'))).
Proof. apply get_valid_input_run. Qed.

Lemma input_run (prompt : string) (stdin : list string) (w : World) :
  Main.input prompt stdin w =
  (Ok (match stdin with
       | [] => Main.EOFError
       | line :: rest => Main.Got line rest
       end),
   set_stdout (stdout w ++ [[Txt prompt]]) w).
Proof. unfold Main.input. erewrite bind_ok by reflexivity. by destruct stdin. Qed.

(** The second question about the email, asked when the first answer fails
    the check. *)
Lemma ask_email_again (email : string) (stdin : list string) (w : World) :
  exists (r : Main.answer string) (w' : World),
    (if Str.truthy email && negb (Main.is_valid_email email)
     then Main.cbind (Main.lift (print Main.email_error))
            (fun _ => Main.input "Enter email (optional): ")
     else Main.lift (ret email)) stdin w = (Ok r, w') /\
    only_console w w'.
Proof.
  destruct (Str.truthy email && negb (Main.is_valid_email email)).
  - erewrite cbind_got by reflexivity. rewrite input_run. eexists _, _.
    split; [done|]. eapply only_console_trans; apply only_console_set_stdout.
  - eexists _, _. split; [reflexivity | apply only_console_refl].
Qed.

Lemma get_contact_details_run (stdin : list string) (w : World) :
  exists (r : Main.answer ref) (w' : World),
    Main.get_contact_details stdin w = (Ok r, w') /\
    contacts_list w' = contacts_list w /\ audit_log w' = audit_log w /\
    match r with
    | Main.Got made rest =>
        made = length (heap w) /\
        exists c : contact,
          heap w' = heap w ++ [c] /\
          Main.not_blank (first_name c) = true /\
          Main.not_blank (last_name c) = true /\
          is_valid_phone (phone_number c) = true /\
          is_Some (email c) /\ is_Some (address c) /\
          update_history c = []
    | Main.EOFError => heap w' = heap w
    end.
Proof.
  unfold Main.get_contact_details.
  destruct (get_valid_input_run "Enter first name: " Main.not_blank
              "Error: First name cannot be empty." stdin w)
    as (bad1 & w1 & _ & Hc1 & [(first & rest1 & _ & Hfirst & _ & Hrun1)|[_ Hrun1]]);
    [|erewrite cbind_eof by done; eexists _, _; split; [done|];
      destruct Hc1 as (? & ? & ? & _); done].
  erewrite cbind_got by done.
  destruct (get_valid_input_run "Enter last name: " Main.not_blank
              "Error: Last name cannot be empty." rest1 w1)
    as (bad2 & w2 & _ & Hc2 & [(last & rest2 & _ & Hlast & _ & Hrun2)|[_ Hrun2]]);
    pose proof (only_console_trans _ _ _ Hc1 Hc2) as Hc12;
    [|erewrite cbind_eof by done; eexists _, _; split; [done|];
      destruct Hc12 as (? & ? & ? & _); done].
  erewrite cbind_got by done.
  destruct (get_valid_input_run "Enter phone number (format: (###) ###-####): "
              Main.is_valid_phone
              "Error: Invalid phone number format. It must be (###) ###-####." rest2 w2)
    as (bad3 & w3 & _ & Hc3 & [(phone & rest3 & _ & Hphone & _ & Hrun3)|[_ Hrun3]]);
    pose proof (only_console_trans _ _ _ Hc12 Hc3) as Hc13;
    [|erewrite cbind_eof by done; eexists _, _; split; [done|];
      destruct Hc13 as (? & ? & ? & _); done].
  erewrite cbind_got by done.
  pose proof (only_console_trans _ _ _ Hc13
                (only_console_set_stdout (stdout w3 ++ [[Txt "Enter email (optional): "]]) w3))
    as Hc14.
  destruct rest3 as [|email rest4];
    [erewrite cbind_eof by (rewrite input_run; reflexivity); eexists _, _; split; [done|];
     destruct Hc14 as (? & ? & ? & _); done|].
  erewrite cbind_got by (rewrite input_run; reflexivity).
  destruct (ask_email_again email rest4
              (set_stdout (stdout w3 ++ [[Txt "Enter email (optional): "]]) w3))
    as (r5 & w5 & Hrun5 & Hc5).
  pose proof (only_console_trans _ _ _ Hc14 Hc5) as Hc15.
  destruct r5 as [email' rest5|];
    [|erewrite cbind_eof by done; eexists _, _; split; [done|];
      destruct Hc15 as (? & ? & ? & _); done].
  erewrite cbind_got by done.
  pose proof (only_console_trans _ _ _ Hc15
                (only_console_set_stdout (stdout w5 ++ [[Txt "Enter address (optional): "]]) w5))
    as Hc16.
  destruct rest5 as [|address rest6];
    [erewrite cbind_eof by (rewrite input_run; reflexivity); eexists _, _; split; [done|];
     destruct Hc16 as (? & ? & ? & _); done|].
  erewrite cbind_got by (rewrite input_run; reflexivity).
  unfold Main.lift. erewrite bind_ok by apply Contact_init_run.
  destruct Hc16 as (Hh & Hl & Ha & _).
  eexists _, _. split; [reflexivity|].
  cbn [heap contacts_list audit_log set_stdout] in *.
  split_and!; [done|done|by rewrite Hh|].
  eexists. split_and!; [by rewrite Hh|done..].
Qed.

(** X27: when [get_contact_details] returns, it has created one contact and
    changed nothing else but the console: the contact is a new object, with
    names that are not blank, a phone number of the checked shape, an email
    and an address that are strings, and an empty history.  When the lines
    typed run out first, it stops with EOFError and no object is created. *)
Theorem get_contact_details_contact (stdin : list string) (w : World) :
  exists (r : Main.answer ref) (w' : World),
    Main.get_contact_details stdin w = (Ok r, w') /\
    contacts_list w' = contacts_list w /\ audit_log w' = audit_log w /\
    match r with
    | Main.Got made rest =>
        made = length (heap w) /\
        exists c : contact,
          heap w' = heap w ++ [c] /\
          Main.not_blank (first_name c) = true /\
          Main.not_blank (last_name c) = true /\
          is_valid_phone (phone_number c) = true /\
          is_Some (email c) /\ is_Some (address c) /\
          update_history c = []
    | Main.EOFError => heap w' = heap w
    end.
Proof. apply get_contact_details_run. Qed.

Lemma get_valid_input_accepts prompt (validation_func : string -> bool) error_message
    (value : string) (rest : list string) (w : World) :
  validation_func value = true ->
  Main.get_valid_input prompt validation_func error_message (value :: rest) w =
  (Ok (Main.Got value rest), set_stdout (stdout w ++ [[Txt prompt]]) w).
Proof.
  intros Hv. cbn [Main.get_valid_input]. erewrite bind_ok by reflexivity. by rewrite Hv.
Qed.

(** X28: the menu checks the email once.  When the first answer is not empty
    and fails the check, the question is asked a second time and the second
    answer becomes the email of the contact as it is typed, checked or
    not. *)
Theorem get_contact_details_second_email (first last phone email1 email2 addr : string)
    (rest : list string) (w : World) :
  Main.not_blank first = true ->
  Main.not_blank last = true ->
  Main.is_valid_phone phone = true ->
  email1 <> "" ->
  Main.is_valid_email email1 = false ->
  exists w' : World,
    Main.get_contact_details (first :: last :: phone :: email1 :: email2 :: addr :: rest) w
      = (Ok (Main.Got (length (heap w)) rest), w') /\
    values_of (heap w' !!! length (heap w)) = Values first last phone (Some email2) (Some addr).
Proof.
  intros Hf Hl Hp Hne He. unfold Main.get_contact_details.
  erewrite cbind_got by by apply get_valid_input_accepts.
  erewrite cbind_got by by apply get_valid_input_accepts.
  erewrite cbind_got by by apply get_valid_input_accepts.
  erewrite cbind_got by (rewrite input_run; reflexivity).
  assert (Hbad : Str.truthy email1 && negb (Main.is_valid_email email1) = true).
  { rewrite He. by destruct email1. }
  rewrite Hbad.
  erewrite cbind_got; last first.
  { erewrite cbind_got by reflexivity. rewrite input_run. reflexivity. }
  erewrite cbind_got by (rewrite input_run; reflexivity).
  unfold Main.lift. erewrite bind_ok by apply Contact_init_run.
  eexists. split; [reflexivity|].
  cbn [heap set_stdout]. by rewrite list_lookup_total_middle.
Qed.

Lemma get_contact_details_second_email_witness :
  exists w' : World,
    Main.get_contact_details ["Bob"; "Ray"; "(613) 555-0101"; "bob"; "still not one"; ""] world_ann
      = (Ok (Main.Got 1 []), w') /\
    values_of (heap w' !!! 1)
      = Values "Bob" "Ray" "(613) 555-0101" (Some "still not one") (Some "").
Proof.
  apply (get_contact_details_second_email "Bob" "Ray" "(613) 555-0101" "bob" "still not one" ""
           [] world_ann); try reflexivity.
  discriminate.
Defined.

(** X29: adding a contact from the menu, when the lines typed suffice, puts
    one new contact at the end of the list, with names that are not blank
    and a phone number of the checked shape, and logs one line; a list in
    which every phone number has the checked shape stays such a list.  When
    the lines run out, the list, the objects and the audit log are as they
    were. *)
Theorem menu_add_contact (stdin : list string) (w : World) :
  exists (r : Main.answer unit) (w' : World),
    Main.add_contact stdin w = (Ok r, w') /\
    match r with
    | Main.Got _ rest =>
        (exists c : contact,
           heap w' = heap w ++ [c] /\
           contacts_list w' = contacts_list w ++ [length (heap w)] /\
           Main.not_blank (first_name c) = true /\
           Main.not_blank (last_name c) = true /\
           is_valid_phone (phone_number c) = true) /\
        one_more_line w w' /\
        (phones_valid w -> phones_valid w')
    | Main.EOFError =>
        heap w' = heap w /\ contacts_list w' = contacts_list w /\ audit_log w' = audit_log w
    end.
Proof.
  unfold Main.add_contact.
  destruct (get_contact_details_run stdin w) as ([made rest|] & w1 & Hrun & Hl & Ha & Hr).
  - destruct Hr as (-> & c & Hh & Hf & Hln & Hp & _).
    erewrite cbind_got by done.
    erewrite cbind_got by (unfold Main.lift; erewrite bind_ok by apply add_contact_run;
                           reflexivity).
    unfold Main.lift. erewrite bind_ok by reflexivity.
    eexists _, _. split; [reflexivity|].
    cbn [heap contacts_list audit_log set_stdout]. split_and!.
    + exists c. by rewrite Hl.
    + unfold logged. rewrite Ha. by eexists _, _.
    + unfold phones_valid. cbn [heap contacts_list]. rewrite Hl. intros Hvalid.
      apply Forall_app. split.
      * eapply Forall_impl; [done|]. intros r (c0 & Hc0 & Hv).
        unfold set_stdout. cbn [heap].
        exists c0. rewrite Hh. split; [by apply lookup_app_l_Some | done].
      * constructor; [|done]. unfold set_stdout. cbn [heap].
        exists c. rewrite Hh. split; [|done].
        by rewrite list_lookup_middle.
  - erewrite cbind_eof by done. eexists _, _. split; [reflexivity|]. done.
Qed.

Lemma menu_add_contact_witness :
  exists w' : World,
    Main.add_contact typed_bob world_ann = (Ok (Main.Got tt ["2"]), w') /\ phones_valid w'.
Proof.
  destruct (menu_add_contact typed_bob world_ann) as (r & w' & Hrun & Hr).
  exists w'.
  assert (Hgot : r = Main.Got tt ["2"]).
  { apply (f_equal fst) in Hrun. vm_compute in Hrun. by injection Hrun. }
  subst r. split; [done|].
  destruct Hr as (_ & _ & Hvalid). apply Hvalid.
  repeat constructor. exists ann. split; reflexivity.
Defined.

(** ** The phone numbers of the list *)

Lemma sort_contacts_list_perm (sort_type : string) (w : World) :
  heap (exec (sort_contacts sort_type) w) = heap w /\
  contacts_list (exec (sort_contacts sort_type) w) ≡ₚ contacts_list w.
Proof.
  assert (Hkey : forall key operation,
            let sort := (contacts_list_sort key ;;; log_operation operation) in
            heap (exec sort w) = heap w /\ contacts_list (exec sort w) ≡ₚ contacts_list w).
  { intros key operation sort. subst sort. unfold exec. rewrite sort_then_log_run.
    destruct (keys_of key (heap w) (contacts_list w)) as [keyed|] eqn:Hkeyed; [|done].
    split; [done|]. by destruct (contacts_list_sort_spec _ _ _ Hkeyed) as (Hperm & _). }
  unfold sort_contacts.
  destruct (String.eqb sort_type "alphabetical"); [apply Hkey|].
  destruct (String.eqb sort_type "group"); [apply Hkey|]. done.
Qed.

Section Phones.

Variable re_search : string -> string -> option bool.

(** X30: a list in which every phone number has the checked shape stays
    such a list under every operation other than the batch import, as long
    as the contacts added have a phone number of that shape: deleting,
    sorting and searching change no contact, and an update replaces a
    phone number only by one that passed the check. *)
Theorem phones_stay_valid (o : operation) (w : World) :
  phones_valid w ->
  (forall filename, o <> BatchImport filename) ->
  (forall contact, o = Add contact ->
     exists c, heap w !! contact = Some c /\ is_valid_phone (phone_number c) = true) ->
  phones_valid (exec (run re_search o) w).
Proof.
  unfold phones_valid. intros Hvalid Hnot Hadd.
  destruct o as [c|full_name|filename|filename|c first last phone mail addr|
                 query start_date end_date|mode| | |]; cbn [run].
  - unfold exec. rewrite add_contact_run. cbn [snd heap contacts_list].
    apply Forall_app. split; [done|]. constructor; [by apply Hadd | done].
  - destruct (first_named_split (heap w) full_name (contacts_list w))
      as [Hl|(l1 & x & l2 & Hl & Hl1 & Hx)]; unfold exec.
    + by rewrite delete_contact_not_found.
    + erewrite delete_contact_found by done. cbn [snd heap contacts_list].
      rewrite Hl in Hvalid. apply Forall_app in Hvalid as [H1 H2].
      apply Forall_cons in H2 as [_ H2]. by apply Forall_app.
  - by destruct (Hnot filename).
  - destruct (data w !! filename) as [csv|] eqn:Hf.
    + destruct (batch_delete_contacts_exec filename csv w Hf) as (Hh & Hl & _).
      destruct (batch_delete_loop_account (tail csv) w) as (objs & errs & Hh' & _ & Hsub & _).
      rewrite Hl. apply Forall_forall. intros r Hr.
      destruct (proj1 (Forall_forall _ _) Hvalid r (elem_of_sublist _ _ _ Hr Hsub))
        as (c0 & Hc0 & Hv).
      exists c0. rewrite Hh, Hh'. split; [by apply lookup_app_l_Some | done].
    + unfold exec. by rewrite batch_delete_contacts_missing.
  - unfold exec. rewrite update_contact_run.
    destruct (Str.given phone && negb (is_valid_phone (default "" phone))) eqn:Hp; [done|].
    destruct (Str.given mail && negb (is_valid_email (default "" mail))) eqn:Hm; [done|].
    cbn [snd heap contacts_list].
    eapply Forall_impl; [exact Hvalid|]. intros r (c0 & Hc0 & Hv).
    destruct (decide (r = c)) as [->|Hne].
    + eexists. split.
      * apply list_lookup_insert_eq. by eapply lookup_lt_Some.
      * rewrite (list_lookup_total_correct _ _ _ Hc0). cbn.
        destruct (Str.given phone); [|done]. cbn in Hp. by apply negb_false_iff in Hp.
    + exists c0. by rewrite list_lookup_insert_ne.
  - pose proof (search_contacts_run re_search query start_date end_date w) as Hrun.
    rewrite exec_bind.
    destruct (result (search_contacts re_search query start_date end_date) w).
    + destruct Hrun as (Hh & Hl & _). cbn. by rewrite Hh, Hl.
    + cbn in Hrun. by rewrite Hrun.
  - destruct (sort_contacts_list_perm mode w) as [Hh Hperm].
    rewrite Hh, Hperm. done.
  - destruct (display_contacts_prints w) as ([] & out & Hrun).
    unfold exec. by rewrite Hrun.
  - pose proof (view_audit_log_run w) as Hrun. unfold exec.
    destruct (audit_log w).
    + by destruct Hrun as (out & ->).
    + by rewrite Hrun.
  - done.
Qed.

End Phones.

Lemma phones_stay_valid_witness :
  phones_valid
    (exec (run literal_search (Update 0 None None (Some "(613) 555-0199") None None)) world_ann).
Proof.
  apply (phones_stay_valid literal_search
           (Update 0 None None (Some "(613) 555-0199") None None) world_ann).
  - repeat constructor. exists ann. split; reflexivity.
  - discriminate.
  - discriminate.
Defined.

Lemma batch_delete_contacts_only_removes_witness :
  heap (exec (batch_delete_contacts "people.csv") world_ann_file) !! 0 = Some ann.
Proof.
  destruct (batch_delete_contacts_only_removes "people.csv" world_ann_file) as (_ & Hobj & _).
  apply (Hobj 0). cbn. lia.
Defined.

Lemma display_contacts_lines_witness :
  exists out : list text,
    display_contacts world_ann = (Ok tt, set_stdout (stdout world_ann ++ out) world_ann) /\
    out !! 2 = Some (contact_line 1 ann).
Proof.
  destruct (display_contacts_lines world_ann) as (out & Hrun & _ & Hline & _).
  exists out. split; [exact Hrun|]. apply (Hline 0 0). reflexivity.
Defined.
